(** * Swarm orchestration kernel: coordinator and result aggregator

    A shallow embedding of
      - swarm/orchestrator/coordinator.py        (module [Coordinator])
      - swarm/orchestrator/result_aggregator.py  (module [Aggregator])

    Conventions of the embedding.
      - A Python [dict] keyed by [str] is an association list in insertion
        order ([Dict V]); [d[k] = v] keeps the position of an existing key
        and appends a new one.  The keys of a Python dictionary are
        distinct: [dict_wf] is assumed of the dictionaries a property
        receives and proved of those the code builds.
      - Values of type [Any] are the tagged union [PyVal] of [None], [bool],
        [int] and [str] values; [py_eq] is Python's [==] on it and [py_str]
        is [str()].
      - [float] confidences and scores are idealised as rationals [Q];
        wall-clock fields (durations, timestamps) are left out.
      - Code that can raise returns [Exc]; methods that mutate [self] run in
        the state-and-exception monad [SE].  Only instances of Python's
        [Exception] are modelled, which is what [except Exception] catches.
      - Agent objects are mutable and shared: an agent is referred to by its
        position in [available_agents], and [assign_role] updates the
        object at that position. *)

From stdpp Require Import base list strings pretty.
From Stdlib Require Import ZArith QArith Qminmax Lia Lqa.

Set Default Proof Using "Type".
Close Scope Q_scope.
Open Scope string_scope.
Open Scope list_scope.
Open Scope nat_scope.

(* ===================================================================== *)
(** ** Python values *)
(* ===================================================================== *)

Inductive PyVal : Type :=
  | VNone
  | VBool (b : bool)
  | VInt (z : Z)
  | VStr (s : string).

#[global] Instance PyVal_eq_dec : EqDecision PyVal.
Proof. solve_decision. Defined.

Definition int_of_bool (b : bool) : Z := if b then 1%Z else 0%Z.

(** Python [a == b]: [bool] is a subclass of [int], so [True == 1]. *)
Definition py_eq (a b : PyVal) : bool :=
  match a, b with
  | VNone, VNone => true
  | VBool x, VBool y => bool_decide (x = y)
  | VBool x, VInt z | VInt z, VBool x => bool_decide (int_of_bool x = z)
  | VInt x, VInt y => bool_decide (x = y)
  | VStr x, VStr y => bool_decide (x = y)
  | _, _ => false
  end.

(** Python [str(v)]. *)
Definition py_str (v : PyVal) : string :=
  match v with
  | VNone => "None"
  | VBool true => "True"
  | VBool false => "False"
  | VInt z => pretty z
  | VStr s => s
  end.

(** Python [type(v).__name__]. *)
Definition py_type (v : PyVal) : string :=
  match v with
  | VNone => "NoneType"
  | VBool _ => "bool"
  | VInt _ => "int"
  | VStr _ => "str"
  end.

(* ===================================================================== *)
(** ** Insertion-ordered dictionaries with string keys *)
(* ===================================================================== *)

Abbreviation Dict V := (list (string * V)).

Section Dict.
Context {V : Type}.

(** [d.get(k)] *)
Fixpoint dict_get (k : string) (d : Dict V) : option V :=
  match d with
  | [] => None
  | (k', v) :: d' => if decide (k = k') then Some v else dict_get k d'
  end.

(** [k in d] *)
Definition dict_mem (k : string) (d : Dict V) : bool :=
  match dict_get k d with Some _ => true | None => false end.

(** [d[k] = v] *)
Fixpoint dict_set (k : string) (v : V) (d : Dict V) : Dict V :=
  match d with
  | [] => [(k, v)]
  | (k', v') :: d' =>
      if decide (k = k') then (k, v) :: d' else (k', v') :: dict_set k v d'
  end.

(** [del d[k]] (for a key that is present) *)
Fixpoint dict_del (k : string) (d : Dict V) : Dict V :=
  match d with
  | [] => []
  | (k', v') :: d' =>
      if decide (k = k') then d' else (k', v') :: dict_del k d'
  end.

(** [d.update(other)] *)
Definition dict_update (d other : Dict V) : Dict V :=
  foldl (λ acc kv, dict_set kv.1 kv.2 acc) d other.

Definition dict_keys (d : Dict V) : list string := d.*1.
Definition dict_values (d : Dict V) : list V := d.*2.

(** [not d] *)
Definition dict_is_empty (d : Dict V) : bool :=
  match d with [] => true | _ => false end.

(** The keys of a dictionary are pairwise distinct. *)
Definition dict_wf (d : Dict V) : Prop := NoDup (dict_keys d).
End Dict.

(* ===================================================================== *)
(** ** Exceptions and the state-and-exception monad *)
(* ===================================================================== *)

(** A raised object, by its class and message.  The raised objects of the
    model are the instances of [Exception] and [asyncio.CancelledError],
    which a cancelled coroutine raises and which derives from
    [BaseException] directly. *)
Record Exception := mkException { exc_class : string; exc_msg : string }.

(** [str(e)] *)
Definition str_exc (e : Exception) : string := exc_msg e.

(** [isinstance(e, Exception)]: what an [except Exception] clause catches. *)
Definition is_Exception (e : Exception) : bool :=
  bool_decide (exc_class e ≠ "CancelledError").

(** The [TypeError] of [dict.update(e)] for a raised object [e], which is
    no mapping and cannot be iterated. *)
Definition not_iterable (e : Exception) : Exception :=
  mkException "TypeError"
    (String.append "'" (String.append (exc_class e) "' object is not iterable")).

Inductive Exc (A : Type) : Type :=
  | Ret (a : A)
  | Raise (e : Exception).
Arguments Ret {A} a.
Arguments Raise {A} e.

Definition SE (S A : Type) : Type := S → Exc A * S.

Section SE.
Context {S : Type}.

Definition se_ret {A} (a : A) : SE S A := λ s, (Ret a, s).

Definition se_bind {A B} (m : SE S A) (f : A → SE S B) : SE S B :=
  λ s, match m s with
       | (Ret a, s') => f a s'
       | (Raise e, s') => (Raise e, s')
       end.

Definition se_raise {A} (e : Exception) : SE S A := λ s, (Raise e, s).
Definition se_get : SE S S := λ s, (Ret s, s).
Definition se_modify (f : S → S) : SE S unit := λ s, (Ret tt, f s).

(** Lift a computation that only raises or returns. *)
Definition se_lift {A} (r : Exc A) : SE S A := λ s, (r, s).

(** [try: body  except Exception as e: handler(e)]; a raised object that
    is no instance of [Exception] passes through. *)
Definition try_except {A} (body : SE S A) (handler : Exception → SE S A)
  : SE S A :=
  λ s, match body s with
       | (Ret a, s') => (Ret a, s')
       | (Raise e, s') => if is_Exception e then handler e s' else (Raise e, s')
       end.

(** [try: body  finally: fin]; an exception of [fin] replaces the outcome
    of [body]. *)
Definition try_finally {A} (body : SE S A) (fin : SE S unit) : SE S A :=
  λ s, let '(r, s') := body s in
       match fin s' with
       | (Ret _, s'') => (r, s'')
       | (Raise e, s'') => (Raise e, s'')
       end.

(** [for x in l: body(x)] *)
Fixpoint for_each {A} (l : list A) (body : A → SE S unit) : SE S unit :=
  match l with
  | [] => se_ret tt
  | x :: l' => se_bind (body x) (λ _, for_each l' body)
  end.
End SE.

Declare Scope se_scope.
Delimit Scope se_scope with se.
Notation "x <- c1 ;; c2" := (se_bind c1 (λ x, c2))
  (at level 100, c1 at next level, right associativity) : se_scope.
Notation "c1 ;;; c2" := (se_bind c1 (λ _, c2))
  (at level 100, right associativity) : se_scope.

(* ===================================================================== *)
(** ** coordinator.py *)
(* ===================================================================== *)

Module Coordinator.

Inductive ExecutionStatus := PENDING | RUNNING | COMPLETED | FAILED | CANCELLED.

#[global] Instance ExecutionStatus_eq_dec : EqDecision ExecutionStatus.
Proof. solve_decision. Defined.

Record ExecutionContext := {
  task_id : string;
  input_data : Dict PyVal;
  constraints : Dict PyVal;
  metadata : Dict PyVal
}.

Module Role.
Record t := {
  name : string;
  capabilities : list string;
  responsibilities : list string;
  dependencies : list string
}.
End Role.

#[global] Instance Role_eq_dec : EqDecision Role.t.
Proof. solve_decision. Defined.

Module Agent.
Record t := {
  agent_id : string;
  name : string;
  capabilities : list string;
  current_role : option Role.t;
  status : string
}.
End Agent.

(** The dataclass-generated [__eq__]: field-wise comparison. *)
#[global] Instance Agent_eq_dec : EqDecision Agent.t.
Proof. solve_decision. Defined.

(** [Role.can_fulfill] *)
Definition can_fulfill (self : Role.t) (requirements : list string) : bool :=
  forallb (λ req, bool_decide (req ∈ Role.capabilities self)) requirements.

(** [Agent.can_perform_role]:
    [all(cap in self.capabilities for cap in role.capabilities[:3])] *)
Definition can_perform_role (self : Agent.t) (role : Role.t) : bool :=
  forallb (λ cap, bool_decide (cap ∈ Agent.capabilities self))
          (take 3 (Role.capabilities role)).

(** [Agent.assign_role]: the agent after the call and the returned flag. *)
Definition assign_role (self : Agent.t) (role : Role.t) : Agent.t * bool :=
  if can_perform_role self role then
    ({| Agent.agent_id := Agent.agent_id self;
        Agent.name := Agent.name self;
        Agent.capabilities := Agent.capabilities self;
        Agent.current_role := Some role;
        Agent.status := "assigned" |}, true)
  else (self, false).

(** A workflow step is a [Dict[str, Any]] with entries "role" and "action". *)
Definition Step : Type := Dict PyVal.

Record Workflow := {
  steps : list Step;
  parallel_execution : bool;
  error_handling : string
}.

Record SuccessCriteria := {
  required_outputs : list string;
  quality_threshold : Q;
  validation_rules : list string
}.

Module Assembly.
Record t := {
  name : string;
  description : string;
  roles : list Role.t;
  workflow : Workflow;
  success_criteria : SuccessCriteria;
  version : string
}.
End Assembly.

Module Contribution.
Record t := {
  agent_id : string;
  role_name : string;
  outputs : Dict PyVal;
  duration_seconds : Q;
  quality_score : Q
}.
End Contribution.

Record AssemblyResult := {
  assembly_name : string;
  status : ExecutionStatus;
  outputs : Dict PyVal;
  agent_contributions : Dict Contribution.t;
  error_message : option string
}.

Record RoleRequirements := {
  required_roles : list string;
  min_capabilities : Dict Z
}.

(** An agent object is named by its position in [available_agents]. *)
Abbreviation AgentRef := nat.

Record SwarmCoordinator := {
  active_assemblies : Dict Assembly.t;
  available_agents : list Agent.t;
  execution_history : list AssemblyResult
}.

(** [SwarmCoordinator.__init__] *)
Definition init : SwarmCoordinator :=
  {| active_assemblies := []; available_agents := []; execution_history := [] |}.

Definition set_active (f : Dict Assembly.t → Dict Assembly.t)
    (self : SwarmCoordinator) : SwarmCoordinator :=
  {| active_assemblies := f (active_assemblies self);
     available_agents := available_agents self;
     execution_history := execution_history self |}.

Definition set_agents (f : list Agent.t → list Agent.t)
    (self : SwarmCoordinator) : SwarmCoordinator :=
  {| active_assemblies := active_assemblies self;
     available_agents := f (available_agents self);
     execution_history := execution_history self |}.

Definition set_history (f : list AssemblyResult → list AssemblyResult)
    (self : SwarmCoordinator) : SwarmCoordinator :=
  {| active_assemblies := active_assemblies self;
     available_agents := available_agents self;
     execution_history := f (execution_history self) |}.

(** [register_agent]: [agent not in self.available_agents] compares with
    [==], so neither the same object nor an equal one is added twice. *)
Definition register_agent (agent : Agent.t) (self : SwarmCoordinator)
  : SwarmCoordinator :=
  if bool_decide (agent ∈ available_agents self) then self
  else set_agents (λ l, l ++ [agent]) self.

(** [unregister_agent] *)
Definition unregister_agent (agent_id : string) (self : SwarmCoordinator)
  : SwarmCoordinator :=
  set_agents (filter (λ a, Agent.agent_id a ≠ agent_id)) self.

(** [get_active_assemblies] *)
Definition get_active_assemblies (self : SwarmCoordinator) : list string :=
  dict_keys (active_assemblies self).

(** [len(set(a) & set(b))] *)
Definition py_set_inter_len (a b : list string) : nat :=
  length (remove_dups (filter (λ x, x ∈ b) a)).

(* ------------------------------------------------------------------- *)
(** *** [_assign_roles] *)

(** Local variables of [_assign_roles] together with the agent objects
    they point to. *)
Record AssignLoop := {
  heap : list Agent.t;
  available : list AgentRef;
  assignments : Dict AgentRef
}.

(** One iteration of [for agent in available]. *)
Definition scan_agent (agents : list Agent.t) (role : Role.t)
    (acc : option AgentRef * nat) (ref : AgentRef) : option AgentRef * nat :=
  match agents !! ref with
  | Some agent =>
      if can_perform_role agent role then
        let score :=
          py_set_inter_len (Agent.capabilities agent) (Role.capabilities role) in
        if bool_decide (acc.2 < score) then (Some ref, score) else acc
      else acc
  | None => acc
  end.

(** The scan for [best_agent], starting from [best_agent = None] and
    [best_score = 0]. *)
Definition find_best (agents : list Agent.t) (role : Role.t)
    (available : list AgentRef) : option AgentRef * nat :=
  foldl (scan_agent agents role) (None, 0) available.

(** [available.remove(x)]: delete the first element that is [x] or
    compares equal to it; [ValueError] when there is none. *)
Fixpoint py_list_remove (agents : list Agent.t) (x : AgentRef)
    (l : list AgentRef) : Exc (list AgentRef) :=
  match l with
  | [] => Raise (mkException "ValueError" "list.remove(x): x not in list")
  | y :: l' =>
      if bool_decide (y = x ∨ agents !! y = agents !! x) then Ret l'
      else match py_list_remove agents x l' with
           | Ret r => Ret (y :: r)
           | Raise e => Raise e
           end
  end.

(** Body of [for role in roles]. *)
Definition assign_one (role : Role.t) : SE AssignLoop unit :=
  λ st,
    match (find_best (heap st) role (available st)).1 with
    | Some ref =>
        let heap' :=
          match heap st !! ref with
          | Some agent => <[ref := (assign_role agent role).1]> (heap st)
          | None => heap st
          end in
        let assignments' := dict_set (Role.name role) ref (assignments st) in
        match py_list_remove heap' ref (available st) with
        | Ret available' =>
            (Ret tt, {| heap := heap'; available := available';
                        assignments := assignments' |})
        | Raise e =>
            (Raise e, {| heap := heap'; available := available st;
                         assignments := assignments' |})
        end
    | None => (Ret tt, st)
    end.

Definition _assign_roles (roles : list Role.t)
  : SE SwarmCoordinator (Dict AgentRef) :=
  λ self,
    let st0 := {| heap := available_agents self;
                  available := seq 0 (length (available_agents self));
                  assignments := [] |} in
    let '(r, st) := for_each roles assign_one st0 in
    (match r with Ret _ => Ret (assignments st) | Raise e => Raise e end,
     set_agents (λ _, heap st) self).

(* ------------------------------------------------------------------- *)
(** *** [assign_roles] (the requirements path) *)

(** [hash(agent)] for [Agent] as the source declares it: [@dataclass] with
    the default [eq=True] and without [frozen=True] sets [__hash__] to
    [None], so an [Agent] is unhashable. *)
Definition py_hash_agent (agent : Agent.t) : Exc Z :=
  Raise (mkException "TypeError" "unhashable type: 'Agent'").

Section RequirementsPath.
(** The [__hash__] of the agent objects that the method is called with. *)
Variable hash_agent : Agent.t → Exc Z.

(** [agent in assignments], for the dictionary keyed by agents: the key
    is hashed first, then compared with [==]. *)
Definition agent_in_assignments (agents : list Agent.t) (ref : AgentRef)
    (assignments : list (AgentRef * Role.t)) : Exc bool :=
  match agents !! ref with
  | Some agent =>
      match hash_agent agent with
      | Ret _ =>
          Ret (bool_decide (Exists (λ kv, agents !! kv.1 = Some agent) assignments))
      | Raise e => Raise e
      end
  | None => Ret false
  end.

(** [_calculate_role_fitness]: the constant 0.5. *)
Definition _calculate_role_fitness (agent : Agent.t) (role_name : string) : Q :=
  (1 # 2)%Q.

(** [for agent in agents] of [assign_roles]. *)
Fixpoint scan_fitness (agents : list Agent.t) (role_name : string)
    (assignments : list (AgentRef * Role.t)) (refs : list AgentRef)
    (acc : option AgentRef * Q) : Exc (option AgentRef * Q) :=
  match refs with
  | [] => Ret acc
  | ref :: refs' =>
      match agent_in_assignments agents ref assignments with
      | Raise e => Raise e
      | Ret true => scan_fitness agents role_name assignments refs' acc
      | Ret false =>
          match agents !! ref with
          | Some agent =>
              let score := _calculate_role_fitness agent role_name in
              scan_fitness agents role_name assignments refs'
                (if Qlt_le_dec acc.2 score then (Some ref, score) else acc)
          | None => scan_fitness agents role_name assignments refs' acc
          end
      end
  end.

(** [for role_name in requirements.required_roles] of [assign_roles]. *)
Fixpoint assign_required (agents : list Agent.t) (role_names : list string)
    (assignments : list (AgentRef * Role.t)) : Exc (list (AgentRef * Role.t)) :=
  match role_names with
  | [] => Ret assignments
  | role_name :: rest =>
      match scan_fitness agents role_name assignments
              (seq 0 (length agents)) (None, 0%Q) with
      | Raise e => Raise e
      | Ret (Some best_agent, _) =>
          let role := {| Role.name := role_name; Role.capabilities := [];
                         Role.responsibilities := []; Role.dependencies := [] |} in
          assign_required agents rest (assignments ++ [(best_agent, role)])
      | Ret (None, _) => assign_required agents rest assignments
      end
  end.

(** The body of [assign_roles(agents, requirements)]: the returned
    dictionary maps agents to roles.  No statement of the method writes
    to an agent. *)
Definition assign_roles_with (agents : list Agent.t)
    (requirements : RoleRequirements) : Exc (list (AgentRef * Role.t)) :=
  assign_required agents (required_roles requirements) [].
End RequirementsPath.

(** [assign_roles(agents, requirements)] on agents of the class [Agent]. *)
Definition assign_roles (agents : list Agent.t) (requirements : RoleRequirements)
  : Exc (list (AgentRef * Role.t)) :=
  assign_roles_with py_hash_agent agents requirements.

(* ------------------------------------------------------------------- *)
(** *** Workflow execution *)

(** Formatting of a looked-up value inside an f-string. *)
Definition py_format (v : option PyVal) : string :=
  match v with Some x => py_str x | None => "None" end.

(** [_execute_step]: the placeholder of the source; it never fails. *)
Definition _execute_step (step : Step) (role_assignments : Dict AgentRef)
    (context : ExecutionContext) : Exc (Dict PyVal) :=
  let role_name := dict_get "role" step in
  let action := dict_get "action" step in
  Ret [(String.append (py_format role_name)
          (String.append "_" (py_format action)), VStr "completed")].

Section Execution.
(** The step executor: the worker the coordinator delegates a step to.
    It returns the step's output map or raises. *)
Variable execute_step : Step → Dict AgentRef → ExecutionContext → Exc (Dict PyVal).

(** Sequential branch of [_execute_workflow]; the [except Exception] of
    a step lets a [CancelledError] through, whatever the policy. *)
Fixpoint run_sequential (error_handling : string)
    (role_assignments : Dict AgentRef) (context : ExecutionContext)
    (steps : list Step) (outputs : Dict PyVal) : Exc (Dict PyVal) :=
  match steps with
  | [] => Ret outputs
  | step :: rest =>
      match execute_step step role_assignments context with
      | Ret result =>
          run_sequential error_handling role_assignments context rest
            (dict_update outputs result)
      | Raise e =>
          if is_Exception e then
            if decide (error_handling = "stop") then Raise e
            else run_sequential error_handling role_assignments context rest outputs
          else Raise e
      end
  end.

(** [for i, result in enumerate(results)] of the parallel branch, over
    the list that [asyncio.gather(..., return_exceptions=True)] returns
    in task order.  A raised object that fails [isinstance(result,
    Exception)] goes to [outputs.update(result)], which raises
    [TypeError]. *)
Fixpoint merge_results (error_handling : string)
    (results : list (Exc (Dict PyVal))) (outputs : Dict PyVal)
  : Exc (Dict PyVal) :=
  match results with
  | [] => Ret outputs
  | Ret result :: rest =>
      merge_results error_handling rest (dict_update outputs result)
  | Raise e :: rest =>
      if is_Exception e then
        if decide (error_handling = "stop") then Raise e
        else merge_results error_handling rest outputs
      else Raise (not_iterable e)
  end.

Definition _execute_workflow (workflow : Workflow)
    (role_assignments : Dict AgentRef) (context : ExecutionContext)
  : Exc (Dict PyVal) :=
  if parallel_execution workflow then
    merge_results (error_handling workflow)
      (map (λ step, execute_step step role_assignments context) (steps workflow))
      []
  else
    run_sequential (error_handling workflow) role_assignments context
      (steps workflow) [].

(** [_collect_contributions] *)
Definition _collect_contributions (role_assignments : Dict AgentRef)
  : SE SwarmCoordinator (Dict Contribution.t) :=
  λ self,
    (Ret (foldl
            (λ contributions item,
               match available_agents self !! item.2 with
               | Some agent =>
                   dict_set (Agent.agent_id agent)
                     {| Contribution.agent_id := Agent.agent_id agent;
                        Contribution.role_name := item.1;
                        Contribution.outputs := [];
                        Contribution.duration_seconds := 1%Q;
                        Contribution.quality_score := (85 # 100)%Q |}
                     contributions
               | None => contributions
               end)
            [] role_assignments),
     self).

(** [_validate_results] *)
Definition _validate_results (outputs : Dict PyVal) (criteria : SuccessCriteria)
  : bool :=
  forallb (λ required, dict_mem required outputs) (required_outputs criteria).

(** The [try] block of [execute_assembly]. *)
Definition execute_assembly_body (assembly : Assembly.t)
    (context : ExecutionContext) : SE SwarmCoordinator AssemblyResult :=
  (se_modify (set_active (dict_set (task_id context) assembly)) ;;;
   role_assignments <- _assign_roles (Assembly.roles assembly) ;;
   (if dict_is_empty role_assignments
    then se_raise (mkException "ValueError" "Failed to assign all required roles")
    else se_ret tt) ;;;
   outputs <- se_lift (_execute_workflow (Assembly.workflow assembly)
                         role_assignments context) ;;
   contributions <- _collect_contributions role_assignments ;;
   let success := _validate_results outputs (Assembly.success_criteria assembly) in
   let result :=
     {| assembly_name := Assembly.name assembly;
        status := if success then COMPLETED else FAILED;
        outputs := outputs;
        agent_contributions := contributions;
        error_message := None |} in
   se_modify (set_history (λ h, h ++ [result])) ;;;
   se_ret result)%se.

(** The [except Exception as e] handler. *)
Definition execute_assembly_handler (assembly : Assembly.t) (e : Exception)
  : SE SwarmCoordinator AssemblyResult :=
  se_ret {| assembly_name := Assembly.name assembly;
            status := FAILED;
            outputs := [];
            agent_contributions := [];
            error_message := Some (str_exc e) |}.

(** The [finally] block. *)
Definition execute_assembly_cleanup (context : ExecutionContext)
  : SE SwarmCoordinator unit :=
  se_modify (λ self,
    if dict_mem (task_id context) (active_assemblies self)
    then set_active (dict_del (task_id context)) self
    else self).

Definition execute_assembly (assembly : Assembly.t) (context : ExecutionContext)
  : SE SwarmCoordinator AssemblyResult :=
  try_finally
    (try_except (execute_assembly_body assembly context)
                (execute_assembly_handler assembly))
    (execute_assembly_cleanup context).
End Execution.

End Coordinator.

(* ===================================================================== *)
(** ** result_aggregator.py *)
(* ===================================================================== *)

(** Left fold whose step can raise. *)
Fixpoint exc_foldl {A B} (f : A → B → Exc A) (a : A) (l : list B) : Exc A :=
  match l with
  | [] => Ret a
  | x :: l' =>
      match f a x with
      | Ret a' => exc_foldl f a' l'
      | Raise e => Raise e
      end
  end.

Module Aggregator.

Inductive AggregationStrategy :=
  MERGE | VOTE | CONSENSUS | WEIGHTED | BEST | SEQUENTIAL.

Record AgentOutput := {
  agent_id : string;
  role_name : string;
  output_data : Dict PyVal;
  confidence : Q;
  metadata : Dict PyVal;
  timestamp : string
}.

(** [AgentOutput.validate] *)
Definition validate (self : AgentOutput) : bool :=
  if dict_is_empty (output_data self) then false
  else if Qlt_le_dec (confidence self) 0 then false
  else if Qlt_le_dec 1 (confidence self) then false
  else true.

(** A conflict record: a dictionary with the entries "key" and "values"
    and either "agents" (MERGE, CONSENSUS) or "votes" (VOTE). *)
Record Conflict := {
  key : string;
  values : list PyVal;
  agents : option (list string);
  votes : option (list nat)
}.

Record AggregatedResult := {
  outputs : Dict PyVal;
  contributing_agents : list string;
  result_confidence : Q;
  strategy_used : AggregationStrategy;
  conflicts : list Conflict;
  result_metadata : Dict PyVal
}.

(** [_empty_result] *)
Definition _empty_result (strategy : AggregationStrategy) : AggregatedResult :=
  {| outputs := []; contributing_agents := []; result_confidence := 0%Q;
     strategy_used := strategy; conflicts := []; result_metadata := [] |}.

(** [sum(o.confidence for o in outputs)] *)
Definition sum_confidence (outs : list AgentOutput) : Q :=
  foldl (λ acc o, (acc + confidence o)%Q) 0%Q outs.

(** [x / len(outputs)] *)
Definition div_len (x : Q) (n : nat) : Exc Q :=
  match n with
  | O => Raise (mkException "ZeroDivisionError" "division by zero")
  | _ => Ret (x / inject_Z (Z.of_nat n))%Q
  end.

Definition VLen (n : nat) : PyVal := VInt (Z.of_nat n).

(* ------------------------------------------------------------------- *)
(** *** MERGE *)

(** [key in o.output_data and o.output_data[key] == v] *)
Definition holds (k : string) (v : PyVal) (o : AgentOutput) : bool :=
  match dict_get k (output_data o) with
  | Some w => py_eq w v
  | None => false
  end.

(** [next(o.agent_id for o in outputs if ...)]; a [StopIteration] that
    leaves a coroutine surfaces as [RuntimeError]. *)
Definition first_holder (outs : list AgentOutput) (k : string) (v : PyVal)
  : Exc string :=
  match List.filter (holds k v) outs with
  | o :: _ => Ret (agent_id o)
  | [] => Raise (mkException "RuntimeError" "coroutine raised StopIteration")
  end.

(** Body of [for key, value in output.output_data.items()]. *)
Definition merge_item (outs : list AgentOutput) (output : AgentOutput)
    (st : Dict PyVal * list Conflict) (item : string * PyVal)
  : Exc (Dict PyVal * list Conflict) :=
  match dict_get item.1 st.1 with
  | Some cur =>
      if py_eq cur item.2 then Ret (dict_set item.1 item.2 st.1, st.2)
      else
        match first_holder outs item.1 cur with
        | Ret a =>
            Ret (dict_set item.1 item.2 st.1,
                 st.2 ++ [{| key := item.1; values := [cur; item.2];
                             agents := Some [a; agent_id output];
                             votes := None |}])
        | Raise e => Raise e
        end
  | None => Ret (dict_set item.1 item.2 st.1, st.2)
  end.

(** Body of [for output in outputs]. *)
Definition merge_output (outs : list AgentOutput)
    (st : Dict PyVal * list Conflict) (output : AgentOutput)
  : Exc (Dict PyVal * list Conflict) :=
  exc_foldl (merge_item outs output) st (output_data output).

Definition _merge_strategy (outs : list AgentOutput) : Exc AggregatedResult :=
  match exc_foldl (merge_output outs) ([], []) outs with
  | Raise e => Raise e
  | Ret (merged, conflicts) =>
      match div_len (sum_confidence outs) (length outs) with
      | Raise e => Raise e
      | Ret avg_confidence =>
          Ret {| outputs := merged;
                 contributing_agents := map agent_id outs;
                 result_confidence := avg_confidence;
                 strategy_used := MERGE;
                 conflicts := conflicts;
                 result_metadata := [("num_outputs", VLen (length outs))] |}
      end
  end.

(* ------------------------------------------------------------------- *)
(** *** VOTE *)

(** [all_keys.update(keys)]; the set is kept in first-insertion order. *)
Definition set_update (s : list string) (keys : list string) : list string :=
  foldl (λ acc k, if bool_decide (k ∈ acc) then acc else acc ++ [k]) s keys.

(** [votes[key][value_str] = votes[key].get(value_str, 0) + 1], after
    [votes[key] = {}] for a new key. *)
Definition cast_vote (votes : Dict (Dict nat)) (item : string * PyVal)
  : Dict (Dict nat) :=
  let tally := default [] (dict_get item.1 votes) in
  let value_str := py_str item.2 in
  dict_set item.1
    (dict_set value_str (default 0 (dict_get value_str tally) + 1) tally)
    votes.

Definition collect_votes (outs : list AgentOutput) : Dict (Dict nat) :=
  foldl (λ votes o, foldl cast_vote votes (output_data o)) [] outs.

Definition collect_keys (outs : list AgentOutput) : list string :=
  foldl (λ s o, set_update s (dict_keys (output_data o))) [] outs.

(** [sorted(items, key=lambda x: x[1], reverse=True)]: stable, so items
    with equal counts keep their order. *)
Fixpoint insert_desc (x : string * nat) (l : list (string * nat))
  : list (string * nat) :=
  match l with
  | [] => [x]
  | y :: l' =>
      if bool_decide (x.2 < y.2) then y :: insert_desc x l' else x :: y :: l'
  end.

Definition sorted_desc (l : list (string * nat)) : list (string * nat) :=
  foldr insert_desc [] l.

(** Body of [for key in all_keys]. *)
Definition pick_winner (votes : Dict (Dict nat))
    (st : Dict PyVal * list Conflict) (k : string)
  : Exc (Dict PyVal * list Conflict) :=
  match dict_get k votes with
  | Some tally =>
      let sorted_votes := sorted_desc tally in
      match sorted_votes with
      | [] => Raise (mkException "IndexError" "list index out of range")
      | first :: rest =>
          let conflicts' :=
            match rest with
            | second :: _ =>
                if bool_decide (first.2 = second.2) then
                  st.2 ++ [{| key := k;
                              values := map (λ v, VStr v.1) (take 2 sorted_votes);
                              agents := None;
                              votes := Some (map snd (take 2 sorted_votes)) |}]
                else st.2
            | [] => st.2
            end in
          Ret (dict_set k (VStr first.1) st.1, conflicts')
      end
  | None => Ret st
  end.

(** [sum(l)] and [max(l)] on counts. *)
Definition sum_nat (l : list nat) : nat := foldr Nat.add 0 l.

Definition py_max (l : list nat) : Exc nat :=
  match l with
  | [] => Raise (mkException "ValueError" "max() arg is an empty sequence")
  | x :: l' => Ret (foldl Nat.max x l')
  end.

Definition total_votes (votes : Dict (Dict nat)) : nat :=
  sum_nat (map (λ v, sum_nat (dict_values v)) (dict_values votes)).

Definition winning_votes (votes : Dict (Dict nat)) : Exc nat :=
  exc_foldl (λ acc v, match py_max (dict_values v) with
                      | Ret m => Ret (acc + m)
                      | Raise e => Raise e
                      end) 0 (dict_values votes).

(** [a / b] on two counts. *)
Definition ratio (a b : nat) : Q := (inject_Z (Z.of_nat a) / inject_Z (Z.of_nat b))%Q.

Definition _vote_strategy (outs : list AgentOutput) : Exc AggregatedResult :=
  let votes := collect_votes outs in
  let all_keys := collect_keys outs in
  match exc_foldl (pick_winner votes) ([], []) all_keys with
  | Raise e => Raise e
  | Ret (result, conflicts) =>
      let total := total_votes votes in
      match winning_votes votes with
      | Raise e => Raise e
      | Ret winning =>
          Ret {| outputs := result;
                 contributing_agents := map agent_id outs;
                 result_confidence :=
                   if bool_decide (0 < total) then ratio winning total else 0%Q;
                 strategy_used := VOTE;
                 conflicts := conflicts;
                 result_metadata := [("total_votes", VLen total)] |}
      end
  end.

(* ------------------------------------------------------------------- *)
(** *** CONSENSUS *)

(** Body of [for key, value in output.output_data.items()]. *)
Definition consensus_item (first_id : string) (output : AgentOutput)
    (st : Dict PyVal * list Conflict) (item : string * PyVal)
  : Dict PyVal * list Conflict :=
  match dict_get item.1 st.1 with
  | Some cur =>
      if py_eq cur item.2 then st
      else (dict_del item.1 st.1,
            st.2 ++ [{| key := item.1; values := [cur; item.2];
                        agents := Some [first_id; agent_id output];
                        votes := None |}])
  | None => st
  end.

(** Body of [for output in outputs[1:]]. *)
Definition consensus_output (first_id : string)
    (st : Dict PyVal * list Conflict) (output : AgentOutput)
  : Dict PyVal * list Conflict :=
  foldl (consensus_item first_id output) st (output_data output).

Definition _consensus_strategy (outs : list AgentOutput) : AggregatedResult :=
  match outs with
  | [] => _empty_result CONSENSUS
  | first :: rest =>
      let st := foldl (consensus_output (agent_id first))
                      (output_data first, []) rest in
      let all_keys := collect_keys outs in
      {| outputs := st.1;
         contributing_agents := map agent_id outs;
         result_confidence :=
           match all_keys with
           | [] => 0%Q
           | _ => ratio (length st.1) (length all_keys)
           end;
         strategy_used := CONSENSUS;
         conflicts := st.2;
         result_metadata := [("consensus_keys", VLen (length st.1))] |}
  end.

(* ------------------------------------------------------------------- *)
(** *** WEIGHTED, BEST, SEQUENTIAL *)

(** [max(x :: l, key=f)]: the first maximal element. *)
Definition py_max_by {A} (f : A → Q) (x : A) (l : list A) : A :=
  foldl (λ best y, if Qlt_le_dec (f best) (f y) then y else best) x l.

Definition add_weight (o : AgentOutput) (weights : Dict (list (PyVal * Q)))
    (item : string * PyVal) : Dict (list (PyVal * Q)) :=
  dict_set item.1
    (default [] (dict_get item.1 weights) ++ [(item.2, confidence o)]) weights.

(** [_weighted_strategy].  The metadata entry "total_weight" of the
    source holds a float, which [PyVal] does not have; the metadata of
    the model is left empty, and nothing below reads it. *)
Definition _weighted_strategy (outs : list AgentOutput) : AggregatedResult :=
  let weights := foldl (λ w o, foldl (add_weight o) w (output_data o)) [] outs in
  let weighted :=
    foldl (λ acc kv,
             match kv.2 with
             | x :: l => dict_set kv.1 (py_max_by snd x l).1 acc
             | [] => acc
             end) [] weights in
  let total_weight := sum_confidence outs in
  {| outputs := weighted;
     contributing_agents := map agent_id outs;
     result_confidence :=
       match outs with
       | [] => 0%Q
       | _ => (total_weight / inject_Z (Z.of_nat (length outs)))%Q
       end;
     strategy_used := WEIGHTED;
     conflicts := [];
     result_metadata := [] |}.

Definition _best_strategy (outs : list AgentOutput) : AggregatedResult :=
  match outs with
  | [] => _empty_result BEST
  | o :: rest =>
      let best := py_max_by confidence o rest in
      {| outputs := output_data best;
         contributing_agents := [agent_id best];
         result_confidence := confidence best;
         strategy_used := BEST;
         conflicts := [];
         result_metadata := [("selected_agent", VStr (agent_id best))] |}
  end.

Definition _sequential_strategy (outs : list AgentOutput) : Exc AggregatedResult :=
  let result := foldl (λ r o, dict_update r (output_data o)) [] outs in
  match div_len (sum_confidence outs) (length outs) with
  | Raise e => Raise e
  | Ret avg_confidence =>
      Ret {| outputs := result;
             contributing_agents := map agent_id outs;
             result_confidence := avg_confidence;
             strategy_used := SEQUENTIAL;
             conflicts := [];
             result_metadata := [("pipeline_length", VLen (length outs))] |}
  end.

(* ------------------------------------------------------------------- *)
(** *** [aggregate] *)

Definition aggregate (agent_outputs : list AgentOutput)
    (strategy : AggregationStrategy) : Exc AggregatedResult :=
  let valid_outputs := List.filter validate agent_outputs in
  match valid_outputs with
  | [] => Ret (_empty_result strategy)
  | _ =>
      match strategy with
      | MERGE => _merge_strategy valid_outputs
      | VOTE => _vote_strategy valid_outputs
      | CONSENSUS => Ret (_consensus_strategy valid_outputs)
      | WEIGHTED => Ret (_weighted_strategy valid_outputs)
      | BEST => Ret (_best_strategy valid_outputs)
      | SEQUENTIAL => _sequential_strategy valid_outputs
      end
  end.

(* ------------------------------------------------------------------- *)
(** *** [validate_result] *)

(** The [requirements] dictionary; [None] is an absent entry. *)
Record Requirements := {
  req_required_outputs : option (list string);
  req_max_conflicts : option Z;
  req_min_confidence : option Q
}.

(** The error and warning texts, by the f-string that builds them. *)
Inductive Message :=
  | MissingRequiredOutput (key : string)
  | TooManyConflicts (n : nat) (max_conflicts : Z)
  | ConfidenceBelowThreshold (confidence min_confidence : Q)
  | FoundConflicts (n : nat).

Record ValidationResult := {
  is_valid : bool;
  errors : list Message;
  warnings : list Message;
  quality_score : Q
}.

(** The three checks of [validate_result], each appending to [errors]
    or [warnings]. *)
Definition check_required (result : AggregatedResult) (requirements : Requirements)
  : list Message :=
  foldl (λ errors k,
           if dict_mem k (outputs result) then errors
           else errors ++ [MissingRequiredOutput k])
        [] (default [] (req_required_outputs requirements)).

Definition check_conflicts (result : AggregatedResult) (requirements : Requirements)
  : list Message * list Message :=
  match conflicts result with
  | [] => ([], [])
  | _ =>
      let n := length (conflicts result) in
      let conflict_threshold := default 3%Z (req_max_conflicts requirements) in
      if bool_decide (conflict_threshold < Z.of_nat n)%Z
      then ([TooManyConflicts n conflict_threshold], [])
      else ([], [FoundConflicts n])
  end.

Definition check_confidence (result : AggregatedResult) (requirements : Requirements)
  : list Message :=
  let min_confidence := default (7 # 10)%Q (req_min_confidence requirements) in
  if Qlt_le_dec (result_confidence result) min_confidence
  then [ConfidenceBelowThreshold (result_confidence result) min_confidence]
  else [].

(** [max(0.0, min(1.0, q))] *)
Definition clamp01 (q : Q) : Q := Qmax 0 (Qmin 1 q).

Definition penalty (n : nat) (unit_penalty : Q) : Q :=
  (inject_Z (Z.of_nat n) * unit_penalty)%Q.

Definition validate_result (result : AggregatedResult) (requirements : Requirements)
  : ValidationResult :=
  let errors :=
    check_required result requirements
    ++ (check_conflicts result requirements).1
    ++ check_confidence result requirements in
  let warnings := (check_conflicts result requirements).2 in
  let quality_score :=
    (result_confidence result - penalty (length errors) (1 # 10)
                              - penalty (length warnings) (5 # 100))%Q in
  {| is_valid := bool_decide (length errors = 0);
     errors := errors;
     warnings := warnings;
     quality_score := clamp01 quality_score |}.

(* ------------------------------------------------------------------- *)
(** *** [resolve_conflicts] *)

(** [{c["key"]: c["values"][0] for c in conflicts}], the body of the three
    resolution helpers; [IndexError] for a record without values.  The
    records are those of the shape this module builds, with the entries
    "key" and "values". *)
Definition first_values (conflicts : list Conflict) : Exc (Dict PyVal) :=
  exc_foldl (λ resolved c,
               match values c with
               | v :: _ => Ret (dict_set (key c) v resolved)
               | [] => Raise (mkException "IndexError" "list index out of range")
               end) [] conflicts.

Definition _resolve_by_majority (conflicts : list Conflict) : Exc (Dict PyVal) :=
  first_values conflicts.

Definition _resolve_by_weight (conflicts : list Conflict) : Exc (Dict PyVal) :=
  first_values conflicts.

Definition _resolve_by_confidence (conflicts : list Conflict) : Exc (Dict PyVal) :=
  first_values conflicts.

(** What [resolve_conflicts] returns: a map from keys to values or, for a
    strategy it does not know, the first conflict record as it is. *)
Inductive Resolution :=
  | ResolvedMap (resolved : Dict PyVal)
  | ConflictRecord (c : Conflict).

Definition resolved_map (r : Exc (Dict PyVal)) : Exc Resolution :=
  match r with
  | Ret d => Ret (ResolvedMap d)
  | Raise e => Raise e
  end.

Definition resolve_conflicts (conflicts : list Conflict) (strategy : string)
  : Exc Resolution :=
  match conflicts with
  | [] => Ret (ResolvedMap [])
  | c :: _ =>
      if decide (strategy = "majority")
      then resolved_map (_resolve_by_majority conflicts)
      else if decide (strategy = "weighted")
      then resolved_map (_resolve_by_weight conflicts)
      else if decide (strategy = "confidence")
      then resolved_map (_resolve_by_confidence conflicts)
      else Ret (ConflictRecord c)
  end.

End Aggregator.

(* ===================================================================== *)
(** ** Notions used to state the properties *)
(* ===================================================================== *)

Module CoordinatorSpec.
Import Coordinator.

(** The overlap score of the agent behind a reference, when the agent is
    eligible for the role. *)
Definition eligible_score (agents : list Agent.t) (role : Role.t)
    (ref : AgentRef) : option nat :=
  match agents !! ref with
  | Some agent =>
      if can_perform_role agent role
      then Some (py_set_inter_len (Agent.capabilities agent) (Role.capabilities role))
      else None
  | None => None
  end.

(** Invariant of the loop over the roles. *)
Definition assign_inv (st : AssignLoop) : Prop :=
  NoDup (available st)
  ∧ (∀ n ref, dict_get n (assignments st) = Some ref →
       (ref ∉ available st)
       ∧ ∃ agent, heap st !! ref = Some agent ∧ Agent.status agent = "assigned")
  ∧ (∀ n1 n2 ref, dict_get n1 (assignments st) = Some ref →
       dict_get n2 (assignments st) = Some ref → n1 = n2).

(** A role with its capability list replaced. *)
Definition with_capabilities (role : Role.t) (caps : list string) : Role.t :=
  {| Role.name := Role.name role;
     Role.capabilities := caps;
     Role.responsibilities := Role.responsibilities role;
     Role.dependencies := Role.dependencies role |}.

(** Concrete inputs. *)
Definition mk_agent (id : string) (caps : list string) : Agent.t :=
  {| Agent.agent_id := id; Agent.name := id; Agent.capabilities := caps;
     Agent.current_role := None; Agent.status := "available" |}.

Definition mk_role (n : string) (caps : list string) : Role.t :=
  {| Role.name := n; Role.capabilities := caps;
     Role.responsibilities := []; Role.dependencies := [] |}.

Definition pool_of (agents : list Agent.t) : SwarmCoordinator :=
  foldl (λ self a, register_agent a self) init agents.

(** Scenario C: a writer role, one capable agent, two sequential steps
    under the "stop" policy; the executor answers S1 with [{"k1": "v1"}]
    and fails on every other step. *)
Definition step_of (role action : string) : Step :=
  [("role", VStr role); ("action", VStr action)].

Definition exec_scenario_c (step : Step) (role_assignments : Dict AgentRef)
    (context : ExecutionContext) : Exc (Dict PyVal) :=
  if decide (dict_get "action" step = Some (VStr "S1"))
  then Ret [("k1", VStr "v1")]
  else Raise (mkException "RuntimeError" "step S2 failed").

(** A step executor whose step S2 is cancelled. *)
Definition exec_cancelled (step : Step) (role_assignments : Dict AgentRef)
    (context : ExecutionContext) : Exc (Dict PyVal) :=
  if decide (dict_get "action" step = Some (VStr "S1"))
  then Ret [("k1", VStr "v1")]
  else Raise (mkException "CancelledError" "").

Definition assembly_c : Assembly.t :=
  {| Assembly.name := "scenario-c";
     Assembly.description := "";
     Assembly.roles := [mk_role "writer" ["writing"]];
     Assembly.workflow :=
       {| steps := [step_of "writer" "S1"; step_of "writer" "S2"];
          parallel_execution := false;
          error_handling := "stop" |};
     Assembly.success_criteria :=
       {| required_outputs := []; quality_threshold := (8 # 10)%Q;
          validation_rules := [] |};
     Assembly.version := "1.0.0" |}.

Definition context_c : ExecutionContext :=
  {| task_id := "task-1"; input_data := []; constraints := []; metadata := [] |}.

Definition pool_c : SwarmCoordinator := pool_of [mk_agent "a1" ["writing"]].

(** What the loop over the roles has done to the agents [heap0] it started
    from: agents still available are untouched, a changed agent was given a
    role of the call that it can perform, and every entry of the mapping
    points to the agent given the role of that name. *)
Definition assign_frame (heap0 : list Agent.t) (roles : list Role.t)
    (st : AssignLoop) : Prop :=
  length (heap st) = length heap0
  ∧ (∀ ref, ref ∈ available st → heap st !! ref = heap0 !! ref)
  ∧ (∀ ref a', heap st !! ref = Some a' →
       ∃ a, heap0 !! ref = Some a
            ∧ (a' = a
               ∨ ∃ r, r ∈ roles ∧ can_perform_role a r = true
                      ∧ a' = (assign_role a r).1))
  ∧ (∀ n ref, dict_get n (assignments st) = Some ref →
       ∃ a r, heap0 !! ref = Some a ∧ r ∈ roles ∧ Role.name r = n
              ∧ can_perform_role a r = true
              ∧ 0 < py_set_inter_len (Agent.capabilities a) (Role.capabilities r)
              ∧ heap st !! ref = Some (assign_role a r).1).

(** The output key that the placeholder [_execute_step] builds for a step. *)
Definition step_key (step : Step) : string :=
  String.append (py_format (dict_get "role" step))
    (String.append "_" (py_format (dict_get "action" step))).

(** The output maps of the steps that succeed, in step order. *)
Definition step_successes
    (execute_step : Step → Dict AgentRef → ExecutionContext → Exc (Dict PyVal))
    (role_assignments : Dict AgentRef) (context : ExecutionContext)
    (steps : list Step) : list (Dict PyVal) :=
  omap (λ step, match execute_step step role_assignments context with
                | Ret out => Some out
                | Raise _ => None
                end) steps.

(** Every failure of the executor on the steps is an instance of
    [Exception]. *)
Definition fails_with_Exception
    (execute_step : Step → Dict AgentRef → ExecutionContext → Exc (Dict PyVal))
    (role_assignments : Dict AgentRef) (context : ExecutionContext)
    (steps : list Step) : Prop :=
  ∀ step e, step ∈ steps →
    execute_step step role_assignments context = Raise e → is_Exception e = true.


(** The result that [execute_assembly] returns when no role was assigned. *)
Definition no_roles_result (assembly : Assembly.t) : AssemblyResult :=
  {| assembly_name := Assembly.name assembly;
     status := FAILED;
     outputs := [];
     agent_contributions := [];
     error_message := Some "Failed to assign all required roles" |}.

End CoordinatorSpec.

Module AggregatorSpec.
Import Aggregator.



Definition mk_output (id : string) (data : Dict PyVal) (c : Q) : AgentOutput :=
  {| agent_id := id; role_name := "worker"; output_data := data;
     confidence := c; metadata := []; timestamp := "" |}.

(** The value under [k] of the last output of [outs] that has the key. *)
Fixpoint last_value (outs : list AgentOutput) (k : string) : option PyVal :=
  match outs with
  | [] => None
  | o :: rest =>
      match last_value rest k with
      | Some v => Some v
      | None => dict_get k (output_data o)
      end
  end.

(** Every value of the merged map is the value of some output. *)
Definition provenance (outs : list AgentOutput) (merged : Dict PyVal) : Prop :=
  ∀ k cur, dict_get k merged = Some cur →
    ∃ o, o ∈ outs ∧ dict_get k (output_data o) = Some cur.

(** Three contributors write 1, 2 and 3 under the same key. *)
Definition outputs_three_writers : list AgentOutput :=
  [mk_output "A" [("k", VInt 1)] (9 # 10)%Q;
   mk_output "B" [("k", VInt 2)] (8 # 10)%Q;
   mk_output "C" [("k", VInt 3)] (5 # 10)%Q].

(** The number of outputs whose value under [k] has the string form [s]:
    the votes for [s] under [k]. *)
Definition votes_for (outs : list AgentOutput) (k s : string) : nat :=
  length (List.filter
            (λ o, match dict_get k (output_data o) with
                  | Some v => bool_decide (py_str v = s)
                  | None => false
                  end) outs).

(** The number of votes cast: one per entry of every output. *)
Definition all_votes (outs : list AgentOutput) : nat :=
  sum_nat (map (λ o, length (output_data o)) outs).

(** The votes of the values chosen in a result map, summed over its keys. *)
Definition chosen_votes (outs : list AgentOutput) (result : Dict PyVal) : nat :=
  sum_nat (map (λ kv, votes_for outs kv.1 (py_str kv.2)) result).

(** The count that the tallies of the code hold for [s] under [k]. *)
Definition tally_of (votes : Dict (Dict nat)) (k s : string) : nat :=
  match dict_get k votes with
  | Some tally => default 0 (dict_get s tally)
  | None => 0
  end.

(** Invariant of the tallies: distinct keys, and under every key a
    non-empty tally with distinct values and positive counts. *)
Definition tallies_ok (votes : Dict (Dict nat)) : Prop :=
  dict_wf votes
  ∧ ∀ k tally, (k, tally) ∈ votes →
      dict_wf tally ∧ tally ≠ [] ∧ ∀ s c, (s, c) ∈ tally → 0 < c.

(** The first item of the sorted tally. *)
Definition top_of (tally : Dict nat) : string * nat :=
  match sorted_desc tally with
  | first :: _ => first
  | [] => ("", 0)
  end.

(** The entry that the winner loop writes for a key and its tally. *)
Definition winner_entry (kt : string * Dict nat) : string * PyVal :=
  (kt.1, VStr (top_of kt.2).1).

(** Scenario A. *)
Definition outputs_scenario_a (id1 id2 id3 : string) : list AgentOutput :=
  [mk_output id1 [("summary", VStr "x")] (9 # 10)%Q;
   mk_output id2 [("summary", VStr "x")] (8 # 10)%Q;
   mk_output id3 [("summary", VStr "y")] (5 # 10)%Q].

(** An integer and a string with the same string form, and a third value. *)
Definition outputs_same_str : list AgentOutput :=
  [mk_output "A" [("count", VStr "2")] (9 # 10)%Q;
   mk_output "B" [("count", VInt 1)] (8 # 10)%Q;
   mk_output "C" [("count", VStr "1")] (7 # 10)%Q].

(** Scenario D: two contributors agree on "budget" and disagree on "plan". *)
Definition output_d1 : AgentOutput :=
  mk_output "a1" [("budget", VInt 5); ("plan", VStr "p1")] (9 # 10)%Q.

Definition output_d2 : AgentOutput :=
  mk_output "a2" [("budget", VInt 5); ("plan", VStr "p2")] (8 # 10)%Q.


(** The value that the resolution helpers give to a key: the first value
    of the last conflict record of that key. *)
Fixpoint resolved_value (conflicts : list Conflict) (k : string) : option PyVal :=
  match conflicts with
  | [] => None
  | c :: rest =>
      match resolved_value rest k with
      | Some v => Some v
      | None => if decide (key c = k) then head (values c) else None
      end
  end.

(** A MERGE conflict record is sound: it holds the values that two
    contributors give to its key, which differ, the identifier of the
    second and that of the first contributor listed with the first value. *)
Definition conflict_sound (outs : list AgentOutput) (c : Conflict) : Prop :=
  ∃ o1 o2 w v a,
    o1 ∈ outs ∧ o2 ∈ outs
    ∧ dict_get (key c) (output_data o1) = Some w
    ∧ dict_get (key c) (output_data o2) = Some v
    ∧ py_eq w v = false
    ∧ values c = [w; v]
    ∧ first_holder outs (key c) w = Ret a
    ∧ agents c = Some [a; agent_id o2]
    ∧ votes c = None.

(** Invariant of the CONSENSUS loop with respect to the first output. *)
Definition consensus_inv (first : AgentOutput) (rest : list AgentOutput)
    (st : Dict PyVal * list Conflict) : Prop :=
  dict_wf st.1
  ∧ length st.1 + length st.2 = length (output_data first)
  ∧ (∀ k v, dict_get k st.1 = Some v → dict_get k (output_data first) = Some v)
  ∧ (∀ k v, dict_get k (output_data first) = Some v →
       dict_get k st.1 = Some v ∨ ∃ c, c ∈ st.2 ∧ key c = k)
  ∧ (∀ c, c ∈ st.2 →
       dict_get (key c) st.1 = None
       ∧ ∃ v w o, o ∈ rest
                  ∧ dict_get (key c) (output_data first) = Some v
                  ∧ py_eq v w = false
                  ∧ values c = [v; w]
                  ∧ agents c = Some [agent_id first; agent_id o]).

(** The values and confidences that the outputs give to a key, in order. *)
Definition entries_for (outs : list AgentOutput) (k : string) : list (PyVal * Q) :=
  omap (λ o, (λ v, (v, confidence o)) <$> dict_get k (output_data o)) outs.

(** Invariant of the weight lists of WEIGHTED. *)
Definition weights_ok (weights : Dict (list (PyVal * Q))) : Prop :=
  dict_wf weights ∧ ∀ k l, dict_get k weights = Some l → l ≠ [].

(** The conflict record that the winner loop of VOTE appends for a key and
    its tally: one record when the two first items of the sorted tally have
    the same count, none otherwise. *)
Definition tie_records (kt : string * Dict nat) : list Conflict :=
  match sorted_desc kt.2 with
  | first :: second :: _ =>
      if bool_decide (first.2 = second.2) then
        [{| key := kt.1;
            values := map (λ v, VStr v.1) (take 2 (sorted_desc kt.2));
            agents := None;
            votes := Some (map snd (take 2 (sorted_desc kt.2))) |}]
      else []
  | _ => []
  end.

(** A list of counted items is in descending order of count. *)
Fixpoint desc (l : list (string * nat)) : Prop :=
  match l with
  | [] => True
  | x :: l' => Forall (λ y, y.2 ≤ x.2) l' ∧ desc l'
  end.

End AggregatorSpec.

(* ===================================================================== *)
(** * Properties *)
(* ===================================================================== *)

(** Membership in a list that is given by its first element or its tail,
    and [Forall] over a list that is written out. *)
Ltac elem_head := apply elem_of_cons; by left.
Ltac elem_tail := apply elem_of_cons; by right.
Ltac forall_elements tac :=
  repeat (apply Forall_cons; split; [tac|]); apply Forall_nil_2.

(** ** Dictionaries *)

Section DictFacts.
Context {V : Type}.
Implicit Types (d : Dict V) (k : string) (v : V).

Lemma dict_get_set_eq k v d : dict_get k (dict_set k v d) = Some v.
Proof.
  induction d as [|[k' v'] d IH]; simpl.
  - by rewrite decide_True.
  - destruct (decide (k = k')); simpl.
    + by rewrite decide_True.
    + by rewrite decide_False.
Qed.

Lemma dict_get_set_ne k k' v d :
  k ≠ k' → dict_get k' (dict_set k v d) = dict_get k' d.
Proof.
  intros Hne. induction d as [|[k0 v0] d IH]; simpl.
  - by rewrite decide_False.
  - destruct (decide (k = k0)) as [->|]; simpl.
    + by rewrite !decide_False.
    + destruct (decide (k' = k0)); done.
Qed.

Lemma dict_get_set k k' v d :
  dict_get k' (dict_set k v d) = if decide (k = k') then Some v else dict_get k' d.
Proof.
  destruct (decide (k = k')) as [->|].
  - apply dict_get_set_eq.
  - by apply dict_get_set_ne.
Qed.

Lemma dict_get_None k d : dict_get k d = None ↔ k ∉ dict_keys d.
Proof.
  induction d as [|[k' v'] d IH]; simpl.
  - split; [intros _; apply not_elem_of_nil | done].
  - rewrite not_elem_of_cons. destruct (decide (k = k')) as [->|Hne].
    + split; [done | intros [? _]; done].
    + rewrite IH. split; [by split | by intros [_ ?]].
Qed.

Lemma dict_get_Some_elem k v d : dict_get k d = Some v → (k, v) ∈ d.
Proof.
  induction d as [|[k' v'] d IH]; simpl; [done|].
  destruct (decide (k = k')) as [->|].
  - intros [= ->]. elem_head.
  - intros H. apply elem_of_cons; right; auto.
Qed.

Lemma dict_get_is_Some k d : is_Some (dict_get k d) ↔ k ∈ dict_keys d.
Proof.
  rewrite <- not_eq_None_Some, dict_get_None.
  split; [apply dec_stable | auto].
Qed.

Lemma dict_elem_get k v d : dict_wf d → (k, v) ∈ d → dict_get k d = Some v.
Proof.
  unfold dict_wf, dict_keys.
  induction d as [|[k' v'] d IH]; simpl; intros Hwf Hin.
  - by apply elem_of_nil in Hin.
  - apply NoDup_cons in Hwf as [Hk Hwf].
    apply elem_of_cons in Hin as [[= -> ->]|Hin].
    + by rewrite decide_True.
    + rewrite decide_False; [auto|].
      intros ->. apply Hk. apply list_elem_of_fmap. by exists (k', v).
Qed.

Lemma dict_keys_set k v d :
  dict_keys (dict_set k v d)
  = if bool_decide (k ∈ dict_keys d) then dict_keys d else dict_keys d ++ [k].
Proof.
  unfold dict_keys. induction d as [|[k' v'] d IH]; simpl; [done|].
  destruct (decide (k = k')) as [->|Hne]; csimpl.
  - rewrite bool_decide_eq_true_2; [done | elem_head].
  - rewrite IH. destruct (bool_decide_reflect (k ∈ d.*1)) as [Hin|Hnin].
    + rewrite bool_decide_eq_true_2; [done | elem_tail].
    + rewrite bool_decide_eq_false_2; [done|].
      rewrite not_elem_of_cons. done.
Qed.

Lemma dict_wf_nil : dict_wf ([] : Dict V).
Proof. apply NoDup_nil_2. Qed.

Lemma dict_wf_set k v d : dict_wf d → dict_wf (dict_set k v d).
Proof.
  unfold dict_wf. rewrite dict_keys_set. intros Hwf.
  destruct (bool_decide_reflect (k ∈ dict_keys d)) as [Hin|Hnin]; [done|].
  apply NoDup_app. split_and!; [done| |apply NoDup_singleton].
  intros x Hx Hx'. apply list_elem_of_singleton in Hx' as ->. done.
Qed.

Lemma dict_get_del_eq k d : dict_wf d → dict_get k (dict_del k d) = None.
Proof.
  unfold dict_wf, dict_keys.
  induction d as [|[k' v'] d IH]; simpl; intros Hwf; [done|].
  apply NoDup_cons in Hwf as [Hk Hwf].
  destruct (decide (k = k')) as [->|Hne]; simpl.
  - by apply dict_get_None.
  - rewrite decide_False; auto.
Qed.

Lemma dict_get_del_ne k k' d : k ≠ k' → dict_get k' (dict_del k d) = dict_get k' d.
Proof.
  intros Hne. induction d as [|[k0 v0] d IH]; simpl; [done|].
  destruct (decide (k = k0)) as [->|]; simpl.
  - by rewrite decide_False.
  - destruct (decide (k' = k0)); done.
Qed.

Lemma dict_keys_del_subseteq k d : dict_keys (dict_del k d) ⊆ dict_keys d.
Proof.
  unfold dict_keys. induction d as [|[k0 v0] d IH]; simpl; [done|].
  destruct (decide (k = k0)); simpl.
  - intros x Hx. apply elem_of_cons. by right.
  - intros x. rewrite !elem_of_cons. intros [->|Hx]; [by left|right; by apply IH].
Qed.

Lemma dict_wf_del k d : dict_wf d → dict_wf (dict_del k d).
Proof.
  unfold dict_wf, dict_keys.
  induction d as [|[k0 v0] d IH]; simpl; intros Hwf; [done|].
  apply NoDup_cons in Hwf as [Hk Hwf].
  destruct (decide (k = k0)); simpl; [done|].
  apply NoDup_cons. split; [|auto].
  intros Hin. apply Hk. by apply (dict_keys_del_subseteq k d).
Qed.

Lemma dict_mem_true k d : dict_mem k d = true ↔ k ∈ dict_keys d.
Proof.
  unfold dict_mem. rewrite <- dict_get_is_Some.
  destruct (dict_get k d); split; done.
Qed.
Lemma dict_set_elem (k k0 : string) (x t : V) (d : Dict V) :
  (k, t) ∈ dict_set k0 x d → (k = k0 ∧ t = x) ∨ (k, t) ∈ d.
Proof.
  induction d as [|[k' v'] d IH]; simpl.
  - intros H. apply list_elem_of_singleton in H as [= -> ->]. by left.
  - destruct (decide (k0 = k')) as [->|Hne]; rewrite !elem_of_cons.
    + intros [[= -> ->]|H]; [by left | right; by right].
    + intros [[= -> ->]|H]; [right; by left|].
      destruct (IH H) as [?|?]; [by left | right; by right].
Qed.

Lemma dict_set_not_nil (k : string) (x : V) (d : Dict V) : dict_set k x d ≠ [].
Proof. destruct d as [|[k' v'] d]; simpl; [done|]. by destruct (decide (k = k')). Qed.

Lemma dict_set_fresh (k : string) (x : V) (d : Dict V) :
  k ∉ dict_keys d → dict_set k x d = d ++ [(k, x)].
Proof.
  unfold dict_keys. induction d as [|[k' v'] d IH]; csimpl; [done|].
  rewrite not_elem_of_cons. intros [Hne Hk].
  rewrite decide_False by done. by rewrite IH.
Qed.
End DictFacts.

Lemma exc_foldl_app {A B} (f : A → B → Exc A) (a : A) (l1 l2 : list B) :
  exc_foldl f a (l1 ++ l2)
  = match exc_foldl f a l1 with
    | Ret a' => exc_foldl f a' l2
    | Raise e => Raise e
    end.
Proof.
  revert a. induction l1 as [|x l1 IH]; intros a; simpl; [done|].
  destruct (f a x); [apply IH | done].
Qed.

(** ** Role assignment *)

Module CoordinatorFacts.
Import Coordinator CoordinatorSpec.

Lemma py_set_inter_len_nil (a : list string) : py_set_inter_len a [] = 0.
Proof.
  unfold py_set_inter_len.
  replace (filter (λ x, x ∈ []) a) with (@nil string); [done|].
  induction a as [|x a IH]; [done|].
  rewrite filter_cons_False; [done | apply not_elem_of_nil].
Qed.

Lemma py_set_inter_len_pos (a b : list string) (c : string) :
  c ∈ a → c ∈ b → 0 < py_set_inter_len a b.
Proof.
  intros Ha Hb. unfold py_set_inter_len.
  assert (c ∈ remove_dups (filter (λ x, x ∈ b) a)) as Hc.
  { apply elem_of_remove_dups. apply list_elem_of_filter. done. }
  destruct (remove_dups _); [by apply elem_of_nil in Hc | simpl; lia].
Qed.

(** Eligibility and score read nothing of an agent but its capabilities. *)
Lemma can_perform_role_caps (a a' : Agent.t) (r : Role.t) :
  Agent.capabilities a = Agent.capabilities a' →
  can_perform_role a r = can_perform_role a' r.
Proof. unfold can_perform_role. by intros ->. Qed.

Lemma can_perform_role_true (a : Agent.t) (r : Role.t) :
  can_perform_role a r = true
  ↔ ∀ cap, cap ∈ take 3 (Role.capabilities r) → cap ∈ Agent.capabilities a.
Proof.
  unfold can_perform_role. rewrite forallb_forall. split.
  - intros H cap Hcap. apply list_elem_of_In in Hcap.
    apply H in Hcap. by apply bool_decide_eq_true in Hcap.
  - intros H cap Hcap. apply bool_decide_eq_true, H. by apply list_elem_of_In.
Qed.

Lemma assign_role_caps (a : Agent.t) (r : Role.t) :
  Agent.capabilities (assign_role a r).1 = Agent.capabilities a.
Proof. unfold assign_role. by destruct (can_perform_role a r). Qed.

Lemma assign_role_status (a : Agent.t) (r : Role.t) :
  can_perform_role a r = true →
  Agent.status (assign_role a r).1 = "assigned"
  ∧ Agent.current_role (assign_role a r).1 = Some r.
Proof. unfold assign_role. by intros ->. Qed.

Lemma scan_agent_eligible agents role acc ref :
  scan_agent agents role acc ref
  = match eligible_score agents role ref with
    | Some score => if bool_decide (acc.2 < score) then (Some ref, score) else acc
    | None => acc
    end.
Proof.
  unfold scan_agent, eligible_score.
  destruct (agents !! ref) as [agent|]; [|done].
  by destruct (can_perform_role agent role).
Qed.

(** The scan keeps the first reference that reaches the highest score above
    the initial [best_score]. *)
Lemma find_best_foldl agents role (l : list AgentRef) (acc : option AgentRef * nat) :
  (foldl (scan_agent agents role) acc l = acc
   ∧ ∀ y s, y ∈ l → eligible_score agents role y = Some s → s ≤ acc.2)
  ∨ (∃ pre ref post s,
       l = pre ++ ref :: post
       ∧ foldl (scan_agent agents role) acc l = (Some ref, s)
       ∧ eligible_score agents role ref = Some s
       ∧ acc.2 < s
       ∧ ∀ y s', y ∈ pre → eligible_score agents role y = Some s' → s' < s).
Proof.
  revert acc. induction l as [|y l IH]; intros acc.
  - left. split; [done|]. intros y s Hy. by apply elem_of_nil in Hy.
  - simpl. rewrite scan_agent_eligible.
    destruct (eligible_score agents role y) as [sy|] eqn:Hy.
    + destruct (bool_decide_reflect (acc.2 < sy)) as [Hlt|Hge].
      * destruct (IH (Some y, sy)) as [[Heq Hle]|(pre & ref & post & s & -> & Hr & Hs & Hlt' & Hpre)].
        -- right. exists [], y, l, sy. simpl. split_and!; try done.
           intros ? ? Hin. by apply elem_of_nil in Hin.
        -- right. exists (y :: pre), ref, post, s. simpl in *.
           split_and!; try done; [lia|].
           intros z s' Hz Hs'. apply elem_of_cons in Hz as [->|Hz]; [|eauto].
           rewrite Hy in Hs'. injection Hs' as <-. done.
      * destruct (IH acc) as [[Heq Hle]|(pre & ref & post & s & -> & Hr & Hs & Hlt' & Hpre)].
        -- left. split; [done|]. intros z s Hz Hs.
           apply elem_of_cons in Hz as [->|Hz]; [|eauto].
           rewrite Hy in Hs. injection Hs as <-. lia.
        -- right. exists (y :: pre), ref, post, s. simpl.
           split_and!; try done.
           intros z s' Hz Hs'. apply elem_of_cons in Hz as [->|Hz]; [|eauto].
           rewrite Hy in Hs'. injection Hs' as <-. lia.
    + destruct (IH acc) as [[Heq Hle]|(pre & ref & post & s & -> & Hr & Hs & Hlt' & Hpre)].
      * left. split; [done|]. intros z s Hz Hs.
        apply elem_of_cons in Hz as [->|Hz]; [|eauto]. congruence.
      * right. exists (y :: pre), ref, post, s. simpl.
        split_and!; try done.
        intros z s' Hz Hs'. apply elem_of_cons in Hz as [->|Hz]; [|eauto]. congruence.
Qed.

Lemma find_best_None agents role available :
  (find_best agents role available).1 = None →
  find_best agents role available = (None, 0).
Proof.
  unfold find_best. intros H.
  destruct (find_best_foldl agents role available (None, 0))
    as [[Heq _]|(pre & ref & post & s & _ & Hr & _)]; [done|].
  rewrite Hr in H. done.
Qed.

Lemma find_best_Some agents role available ref :
  (find_best agents role available).1 = Some ref →
  ∃ pre post s,
    available = pre ++ ref :: post
    ∧ eligible_score agents role ref = Some s ∧ 0 < s
    ∧ ∀ y s', y ∈ pre → eligible_score agents role y = Some s' → s' < s.
Proof.
  unfold find_best. intros H.
  destruct (find_best_foldl agents role available (None, 0))
    as [[Heq _]|(pre & ref' & post & s & Hl & Hr & Hs & Hlt & Hpre)].
  - rewrite Heq in H. done.
  - rewrite Hr in H. simpl in H. injection H as ->.
    exists pre, post, s. done.
Qed.


Lemma for_each_inv {S A} (P : S → Prop) (body : A → SE S unit) (l : list A) (s : S) :
  P s →
  (∀ x s0, x ∈ l → P s0 → ∃ s1, body x s0 = (Ret tt, s1) ∧ P s1) →
  ∃ s', for_each l body s = (Ret tt, s') ∧ P s'.
Proof.
  revert s. induction l as [|x l IH]; intros s Hs Hbody; simpl.
  - by exists s.
  - destruct (Hbody x s) as (s1 & Hx & Hs1); [elem_head | done |].
    unfold se_bind. rewrite Hx. apply IH; [done|].
    intros y s0 Hy. apply Hbody. elem_tail.
Qed.

Lemma py_list_remove_first (agents : list Agent.t) (ref : AgentRef)
    (pre post : list AgentRef) :
  (∀ y, y ∈ pre → y ≠ ref ∧ agents !! y ≠ agents !! ref) →
  py_list_remove agents ref (pre ++ ref :: post) = Ret (pre ++ post).
Proof.
  induction pre as [|y pre IH]; intros Hpre; simpl.
  - rewrite bool_decide_eq_true_2; [done | by left].
  - destruct (Hpre y) as [Hne Hval]; [elem_head|].
    rewrite bool_decide_eq_false_2; [|intros [?|?]; done].
    rewrite IH; [done|]. intros z Hz. apply Hpre. elem_tail.
Qed.

(** What one iteration of [for role in roles] does. *)
Lemma assign_one_cases (role : Role.t) (st : AssignLoop) :
  ((find_best (heap st) role (available st)).1 = None
   ∧ assign_one role st = (Ret tt, st))
  ∨ (∃ ref agent pre post,
       available st = pre ++ ref :: post
       ∧ heap st !! ref = Some agent
       ∧ can_perform_role agent role = true
       ∧ 0 < py_set_inter_len (Agent.capabilities agent) (Role.capabilities role)
       ∧ (find_best (heap st) role (available st)).1 = Some ref
       ∧ assign_one role st
         = (Ret tt, {| heap := <[ref := (assign_role agent role).1]> (heap st);
                       available := pre ++ post;
                       assignments := dict_set (Role.name role) ref (assignments st) |})).
Proof.
  unfold assign_one.
  destruct (find_best (heap st) role (available st)).1 as [ref|] eqn:Hbest.
  - right. apply find_best_Some in Hbest as Hfb.
    destruct Hfb as (pre & post & s & Hav & Hs & Hpos & Hpre).
    unfold eligible_score in Hs.
    destruct (heap st !! ref) as [agent|] eqn:Href; [|done].
    destruct (can_perform_role agent role) eqn:Hcan; [|done].
    injection Hs as <-.
    exists ref, agent, pre, post. split_and!; try done.
    rewrite Hav, py_list_remove_first; [done|].
    intros y Hy.
    assert (y ≠ ref) as Hne.
    { intros ->. specialize (Hpre ref _ Hy ltac:(unfold eligible_score; by rewrite Href, Hcan)). lia. }
    split; [done|].
    rewrite list_lookup_insert_ne by done.
    rewrite list_lookup_insert_eq by (by eapply lookup_lt_Some).
    intros Hy'.
    specialize (Hpre y (py_set_inter_len (Agent.capabilities agent) (Role.capabilities role)) Hy).
    unfold eligible_score in Hpre. rewrite Hy' in Hpre.
    rewrite (can_perform_role_caps _ agent), assign_role_caps, Hcan in Hpre
      by apply assign_role_caps.
    specialize (Hpre eq_refl). lia.
  - left. done.
Qed.

Lemma assign_one_inv (role : Role.t) (st : AssignLoop) :
  assign_inv st → ∃ st', assign_one role st = (Ret tt, st') ∧ assign_inv st'.
Proof.
  intros (Hnd & Hasg & Hinj).
  destruct (assign_one_cases role st)
    as [[_ ->]|(ref & agent & pre & post & Hav & Href & Hcan & _ & _ & ->)].
  { by exists st. }
  eexists; split; [done|]. unfold assign_inv; simpl.
  rewrite Hav in Hnd. apply NoDup_app in Hnd as (Hpre & Hdisj & Hpost).
  apply NoDup_cons in Hpost as [Hrpost Hpost].
  assert (ref ∉ pre ++ post) as Hfresh.
  { rewrite elem_of_app. intros [H|H]; [|done].
    apply (Hdisj _ H). elem_head. }
  assert (∀ r, r ∉ available st → (r ∉ pre ++ post) ∧ r ≠ ref) as Hsub.
  { intros r Hr. rewrite Hav in Hr. rewrite elem_of_app, elem_of_cons in Hr.
    rewrite elem_of_app. split; [tauto | intros ->; tauto]. }
  split_and!.
  - apply NoDup_app. split_and!; [done| |done].
    intros x Hx Hx'. apply (Hdisj _ Hx). elem_tail.
  - intros n r. rewrite dict_get_set.
    destruct (decide (Role.name role = n)) as [_|_].
    + intros [= <-]. split; [done|].
      exists (assign_role agent role).1. split.
      * apply list_lookup_insert_eq. by eapply lookup_lt_Some.
      * by apply assign_role_status.
    + intros Hn. destruct (Hasg _ _ Hn) as (Hr & a & Ha & Hst).
      destruct (Hsub _ Hr) as [Hr' Hne]. split; [done|].
      exists a. by rewrite list_lookup_insert_ne.
  - intros n1 n2 r. rewrite !dict_get_set.
    destruct (decide (Role.name role = n1)) as [<-|Hn1],
             (decide (Role.name role = n2)) as [<-|Hn2]; try done.
    + intros [= <-] Hn. destruct (Hasg _ _ Hn) as [Hr _].
      exfalso. apply Hr. rewrite Hav, elem_of_app, elem_of_cons. tauto.
    + intros Hn [= <-]. destruct (Hasg _ _ Hn) as [Hr _].
      exfalso. apply Hr. rewrite Hav, elem_of_app, elem_of_cons. tauto.
    + apply Hinj.
Qed.

Lemma set_agents_same (self : SwarmCoordinator) :
  set_agents (λ _, available_agents self) self = self.
Proof. by destruct self. Qed.

(** X3.  The role-list path returns, never maps two role names to one
    agent, and every agent of the returned mapping has the status
    "assigned". *)
Lemma _assign_roles_unique (roles : list Role.t) (self : SwarmCoordinator) :
  ∃ assignments self',
    _assign_roles roles self = (Ret assignments, self')
    ∧ (∀ n1 n2 ref, dict_get n1 assignments = Some ref →
         dict_get n2 assignments = Some ref → n1 = n2)
    ∧ (∀ n ref, dict_get n assignments = Some ref →
         ∃ agent, available_agents self' !! ref = Some agent
                  ∧ Agent.status agent = "assigned").
Proof.
  unfold _assign_roles.
  set (st0 := {| heap := available_agents self;
                 available := seq 0 (length (available_agents self));
                 assignments := [] |}).
  destruct (for_each_inv assign_inv assign_one roles st0) as (st & -> & Hnd & Hasg & Hinj).
  - unfold assign_inv; simpl. split_and!; [apply NoDup_seq|done|done].
  - intros role s _. apply assign_one_inv.
  - eexists _, _. split; [done|]. split; [done|].
    intros n ref Hn. destruct (Hasg _ _ Hn) as [_ Hag]. by destruct self.
Qed.

(** Scenario B: the writer role takes the only agent that can write, the
    coder role the remaining one. *)
Example _assign_roles_scenario_b :
  (_assign_roles [mk_role "writer" ["writing"]; mk_role "coder" ["coding"]]
     (pool_of [mk_agent "a1" ["coding"]; mk_agent "a2" ["writing"; "coding"]])).1
  = Ret [("writer", 1); ("coder", 0)].
Proof. reflexivity. Qed.

Lemma py_set_inter_len_lt (a b b' : list string) (c : string) :
  b ⊆ b' → c ∈ a → c ∈ b' → c ∉ b →
  py_set_inter_len a b < py_set_inter_len a b'.
Proof.
  intros Hsub Ha Hb' Hb. unfold py_set_inter_len.
  set (A := remove_dups (filter (λ x, x ∈ b) a)).
  set (B := remove_dups (filter (λ x, x ∈ b') a)).
  assert (length (c :: A) ≤ length B) as Hlen; [|simpl in Hlen; lia].
  apply submseteq_length, NoDup_submseteq.
  - apply NoDup_cons. split; [|apply NoDup_remove_dups].
    unfold A. rewrite elem_of_remove_dups, list_elem_of_filter. tauto.
  - intros x. unfold A, B.
    rewrite elem_of_cons, !elem_of_remove_dups, !list_elem_of_filter.
    intros [->|[Hx Hxa]]; [done|]. split; [by apply Hsub | done].
Qed.

(** C9.  [can_perform_role] checks the first three required capabilities
    of a role and nothing else: an agent is eligible exactly when it holds
    each of the first three, so that replacing the capabilities after the
    third by any others leaves the eligibility as it is.  For a role with
    four or more required capabilities and a pool made of one agent: when
    the agent holds the first three, whatever it holds of the later ones,
    the role-list assignment assigns the role to it and marks it
    "assigned"; when it lacks one of the first three, the role stays
    unassigned; and a later capability that the agent does hold raises its
    overlap score above the score on the first three alone. *)
Theorem c9_eligibility_reads_first_three
    (agent : Agent.t) (role : Role.t) (self : SwarmCoordinator) :
  available_agents self = [agent] →
  4 ≤ length (Role.capabilities role) →
  (can_perform_role agent role = true
   ↔ ∀ cap, cap ∈ take 3 (Role.capabilities role) → cap ∈ Agent.capabilities agent)
  ∧ (∀ later,
       can_perform_role agent
         (with_capabilities role (take 3 (Role.capabilities role) ++ later))
       = can_perform_role agent role)
  ∧ ((∀ cap, cap ∈ take 3 (Role.capabilities role) → cap ∈ Agent.capabilities agent) →
     _assign_roles [role] self
     = (Ret [(Role.name role, 0)],
        set_agents (λ _, [(assign_role agent role).1]) self)
     ∧ Agent.status (assign_role agent role).1 = "assigned")
  ∧ ((∃ cap, cap ∈ take 3 (Role.capabilities role) ∧ cap ∉ Agent.capabilities agent) →
     can_perform_role agent role = false
     ∧ _assign_roles [role] self = (Ret [], self))
  ∧ (∀ cap, cap ∈ Role.capabilities role →
       cap ∉ take 3 (Role.capabilities role) →
       cap ∈ Agent.capabilities agent →
       py_set_inter_len (Agent.capabilities agent) (take 3 (Role.capabilities role))
       < py_set_inter_len (Agent.capabilities agent) (Role.capabilities role)).
Proof.
  intros Hpool Hlen.
  assert (∀ later,
            take 3 (take 3 (Role.capabilities role) ++ later)
            = take 3 (Role.capabilities role)) as Htake.
  { intros later. rewrite take_app_le by (rewrite length_take; lia).
    rewrite take_take. by replace (3 `min` 3) with 3 by done. }
  split_and!.
  - apply can_perform_role_true.
  - intros later. unfold can_perform_role. simpl. by rewrite Htake.
  - intros Hheld.
    assert (can_perform_role agent role = true) as Hcan
      by by apply can_perform_role_true.
    assert (0 < py_set_inter_len (Agent.capabilities agent) (Role.capabilities role))
      as Hscore.
    { destruct (Role.capabilities role) as [|c caps] eqn:Hcaps; [simpl in Hlen; lia|].
      apply (py_set_inter_len_pos _ _ c).
      - apply Hheld. simpl. elem_head.
      - elem_head. }
    split; [|by apply assign_role_status].
    unfold _assign_roles. rewrite Hpool. simpl.
    unfold se_bind, assign_one, find_best. simpl.
    unfold scan_agent. simpl. rewrite Hcan. simpl.
    rewrite (bool_decide_eq_true_2 _ Hscore). done.
  - intros (cap & Hcap & Hlacks).
    assert (can_perform_role agent role = false) as Hcan.
    { destruct (can_perform_role agent role) eqn:Hcan; [|done].
      exfalso. apply Hlacks. by apply (proj1 (can_perform_role_true agent role) Hcan). }
    split; [done|].
    unfold _assign_roles. rewrite Hpool. simpl.
    unfold se_bind, assign_one, find_best. simpl.
    unfold scan_agent. simpl. rewrite Hcan. simpl.
    rewrite <- Hpool. by rewrite set_agents_same.
  - intros cap Hcap Hnot Hag.
    by apply (py_set_inter_len_lt _ _ _ cap); [apply subseteq_take|..].
Qed.

Lemma c9_eligibility_reads_first_three_witness :
  _assign_roles [mk_role "lead" ["plan"; "code"; "test"; "deploy"]]
                (pool_of [mk_agent "a1" ["plan"; "code"; "test"]])
  = (Ret [("lead", 0)],
     set_agents
       (λ _, [(assign_role (mk_agent "a1" ["plan"; "code"; "test"])
                 (mk_role "lead" ["plan"; "code"; "test"; "deploy"])).1])
       (pool_of [mk_agent "a1" ["plan"; "code"; "test"]])).
Proof.
  destruct (c9_eligibility_reads_first_three
              (mk_agent "a1" ["plan"; "code"; "test"])
              (mk_role "lead" ["plan"; "code"; "test"; "deploy"])
              (pool_of [mk_agent "a1" ["plan"; "code"; "test"]]))
    as (_ & _ & Hassign & _).
  - reflexivity.
  - simpl. lia.
  - apply Hassign. intros cap Hcap. exact Hcap.
Defined.

(** The requirement "deploy" is not held by the agent of the witness. *)
Lemma c9_witness_agent_lacks_fourth :
  "deploy" ∉ Agent.capabilities (mk_agent "a1" ["plan"; "code"; "test"]).
Proof. apply (proj1 (bool_decide_eq_false _)). reflexivity. Qed.

(** C2, as stated, fails: with one available agent, a role without
    required capabilities is left unassigned. *)
Lemma c2_capability_less_role_left_unassigned :
  length (available_agents (pool_of [mk_agent "a1" ["coding"]])) = 1
  ∧ Role.capabilities (mk_role "observer" []) = []
  ∧ ¬ ∃ assignments self' ref,
        _assign_roles [mk_role "observer" []] (pool_of [mk_agent "a1" ["coding"]])
        = (Ret assignments, self')
        ∧ dict_get "observer" assignments = Some ref.
Proof.
  split_and!; [done|done|].
  intros (assignments & self' & ref & Hrun & Hget).
  vm_compute in Hrun. injection Hrun as <- _. done.
Qed.

(** C2, amended.  A role whose required-capability list is empty passes
    the eligibility check of every agent ([can_perform_role] holds and
    [assign_role] accepts it), but the role-list assignment gives it the
    overlap score 0 with every agent and keeps an agent only for a score
    above 0: the call returns, and the role's name is not assigned, whatever
    the pool. *)
Theorem c2_capability_less_role
    (role : Role.t) (roles : list Role.t) (self : SwarmCoordinator) :
  Role.capabilities role = [] →
  (∀ r, r ∈ roles → Role.name r = Role.name role → Role.capabilities r = []) →
  (∀ agent, can_perform_role agent role = true ∧ (assign_role agent role).2 = true)
  ∧ ∃ assignments self',
      _assign_roles roles self = (Ret assignments, self')
      ∧ dict_get (Role.name role) assignments = None.
Proof.
  intros Hcaps Hsame. split.
  - intros agent.
    assert (can_perform_role agent role = true) as Hcan.
    { apply can_perform_role_true. rewrite Hcaps. simpl.
      intros cap Hcap. by apply elem_of_nil in Hcap. }
    split; [done|]. unfold assign_role. by rewrite Hcan.
  - unfold _assign_roles.
    set (st0 := {| heap := available_agents self;
                   available := seq 0 (length (available_agents self));
                   assignments := [] |}).
    destruct (for_each_inv
                (λ st, dict_get (Role.name role) (assignments st) = None)
                assign_one roles st0) as (st & -> & Hnone); [done| |by eauto].
    intros r s Hr Hs.
    destruct (assign_one_cases r s)
      as [[_ ->]|(ref & agent & pre & post & _ & _ & _ & Hpos & _ & ->)].
    + by exists s.
    + eexists; split; [done|]. simpl.
      rewrite dict_get_set_ne; [done|].
      intros Hname. apply Hsame in Hname; [|done].
      rewrite Hname, py_set_inter_len_nil in Hpos. lia.
Qed.

Lemma c2_capability_less_role_witness :
  ∃ assignments self',
    _assign_roles [mk_role "coder" ["coding"]; mk_role "observer" []]
                  (pool_of [mk_agent "a1" ["coding"]; mk_agent "a2" []])
    = (Ret assignments, self')
    ∧ dict_get "observer" assignments = None.
Proof.
  apply (c2_capability_less_role (mk_role "observer" [])
           [mk_role "coder" ["coding"]; mk_role "observer" []]
           (pool_of [mk_agent "a1" ["coding"]; mk_agent "a2" []])).
  - reflexivity.
  - intros r Hr Hname.
    apply elem_of_cons in Hr as [->|Hr]; [discriminate Hname|].
    apply list_elem_of_singleton in Hr as ->. reflexivity.
Defined.

(** The requirements path raises as soon as there is an agent to look at:
    [agent in assignments] hashes the agent. *)
Lemma assign_roles_raises (agents : list Agent.t) (requirements : RoleRequirements) :
  agents ≠ [] → required_roles requirements ≠ [] →
  assign_roles agents requirements
  = Raise (mkException "TypeError" "unhashable type: 'Agent'").
Proof.
  unfold assign_roles, assign_roles_with. intros Hag Hreq.
  destruct agents as [|a agents]; [done|].
  destruct (required_roles requirements) as [|n rest]; [done|].
  reflexivity.
Qed.

(** The requirements path returns no mapping but the empty one. *)
Lemma assign_roles_returns_empty (agents : list Agent.t)
    (requirements : RoleRequirements) (mapping : list (AgentRef * Role.t)) :
  assign_roles agents requirements = Ret mapping → mapping = [].
Proof.
  unfold assign_roles, assign_roles_with.
  destruct agents as [|a agents].
  - induction (required_roles requirements) as [|n rest IH]; simpl.
    + by intros [= <-].
    + exact IH.
  - destruct (required_roles requirements) as [|n rest]; simpl.
    + by intros [= <-].
    + done.
Qed.

(** C4, at the failing input: the requirements path, called with one
    agent and one required role, returns no mapping: it raises [TypeError]
    when it looks the agent up in its dictionary.  Were the agent
    hashable, the call would return the mapping of this agent to the role;
    in either case no statement of the method writes to the agent, whose
    status is "available" as before the call, where the role-list path
    marks the agents it returns "assigned". *)
Theorem c4_requirements_path_raises :
  assign_roles [mk_agent "a1" ["coding"]]
               {| required_roles := ["coder"]; min_capabilities := [] |}
  = Raise (mkException "TypeError" "unhashable type: 'Agent'")
  ∧ assign_roles_with (λ _, Ret 0%Z) [mk_agent "a1" ["coding"]]
                      {| required_roles := ["coder"]; min_capabilities := [] |}
    = Ret [(0, mk_role "coder" [])]
  ∧ Agent.status (mk_agent "a1" ["coding"]) = "available".
Proof. split_and!; reflexivity. Qed.

(** ** Workflow execution and [execute_assembly] *)

Section ExecutionFacts.
Variable execute_step : Step → Dict AgentRef → ExecutionContext → Exc (Dict PyVal).

(** Under the "stop" policy the sequential loop re-raises the first
    failure; the outputs merged so far are local to the loop. *)
Lemma run_sequential_stop_raises (role_assignments : Dict AgentRef)
    (context : ExecutionContext) (pre : list Step) (failing : Step)
    (post : list Step) (e : Exception) (outputs0 : Dict PyVal) :
  (∀ step, step ∈ pre → ∃ out, execute_step step role_assignments context = Ret out) →
  execute_step failing role_assignments context = Raise e →
  run_sequential execute_step "stop" role_assignments context
    (pre ++ failing :: post) outputs0 = Raise e.
Proof.
  revert outputs0. induction pre as [|step pre IH]; intros outputs0 Hpre Hfail; simpl.
  - rewrite Hfail. by destruct (is_Exception e).
  - destruct (Hpre step) as [out ->]; [elem_head|].
    apply IH; [|done]. intros s Hs. apply Hpre. elem_tail.
Qed.

Lemma is_Exception_class (c m : string) :
  c ≠ "CancelledError" → is_Exception (mkException c m) = true.
Proof. intros Hc. by apply bool_decide_eq_true_2. Qed.

Lemma _assign_roles_returns (roles : list Role.t) (self : SwarmCoordinator) :
  ∃ assignments self', _assign_roles roles self = (Ret assignments, self').
Proof.
  unfold _assign_roles.
  set (st0 := {| heap := available_agents self;
                 available := seq 0 (length (available_agents self));
                 assignments := [] |}).
  destruct (for_each_inv assign_inv assign_one roles st0) as (st & -> & _).
  - unfold assign_inv; simpl. split_and!; [apply NoDup_seq|done|done].
  - intros role s _. apply assign_one_inv.
  - by eexists _, _.
Qed.

(** What a workflow raises is an instance of [Exception] or the object
    raised by one of its steps. *)
Lemma _execute_workflow_raises (workflow : Workflow)
    (role_assignments : Dict AgentRef) (context : ExecutionContext) (e : Exception) :
  _execute_workflow execute_step workflow role_assignments context = Raise e →
  is_Exception e = true
  ∨ ∃ step, step ∈ steps workflow
            ∧ execute_step step role_assignments context = Raise e.
Proof.
  assert (∀ l outputs0,
            merge_results (error_handling workflow)
              (map (λ step, execute_step step role_assignments context) l) outputs0
            = Raise e →
            is_Exception e = true
            ∨ ∃ step, step ∈ l ∧ execute_step step role_assignments context = Raise e)
    as Hpar.
  { induction l as [|step l IH]; intros outputs0; simpl; [done|].
    assert (∀ o, merge_results (error_handling workflow)
                   (map (λ step, execute_step step role_assignments context) l) o
                 = Raise e →
                 is_Exception e = true
                 ∨ ∃ step0, step0 ∈ step :: l
                            ∧ execute_step step0 role_assignments context = Raise e)
      as Hrest.
    { intros o Ho. destruct (IH _ Ho) as [?|(s & Hs & Hse)]; [by left|].
      right. exists s. split; [elem_tail | done]. }
    destruct (execute_step step role_assignments context) as [out|e'] eqn:Hstep;
      [apply Hrest|].
    destruct (is_Exception e') eqn:He'.
    - destruct (decide (error_handling workflow = "stop")); [|apply Hrest].
      intros [= <-]. by left.
    - intros [= <-]. left. by apply is_Exception_class. }
  assert (∀ l outputs0,
            run_sequential execute_step (error_handling workflow) role_assignments
              context l outputs0 = Raise e →
            is_Exception e = true
            ∨ ∃ step, step ∈ l ∧ execute_step step role_assignments context = Raise e)
    as Hseq.
  { induction l as [|step l IH]; intros outputs0; simpl; [done|].
    assert (∀ o, run_sequential execute_step (error_handling workflow)
                   role_assignments context l o = Raise e →
                 is_Exception e = true
                 ∨ ∃ step0, step0 ∈ step :: l
                            ∧ execute_step step0 role_assignments context = Raise e)
      as Hrest.
    { intros o Ho. destruct (IH _ Ho) as [?|(s & Hs & Hse)]; [by left|].
      right. exists s. split; [elem_tail | done]. }
    destruct (execute_step step role_assignments context) as [out|e'] eqn:Hstep;
      [apply Hrest|].
    destruct (is_Exception e') eqn:He'.
    - destruct (decide (error_handling workflow = "stop")); [|apply Hrest].
      intros [= <-]. by left.
    - intros [= <-]. right. exists step. split; [elem_head | done]. }
  unfold _execute_workflow. destruct (parallel_execution workflow);
    [apply Hpar | apply Hseq].
Qed.

(** What the [try] block raises is an instance of [Exception] or the
    object raised by a step of the workflow. *)
Lemma execute_assembly_body_raises (assembly : Assembly.t) (context : ExecutionContext)
    (self s : SwarmCoordinator) (e : Exception) :
  execute_assembly_body execute_step assembly context self = (Raise e, s) →
  is_Exception e = true
  ∨ ∃ role_assignments step,
      step ∈ steps (Assembly.workflow assembly)
      ∧ execute_step step role_assignments context = Raise e.
Proof.
  unfold execute_assembly_body, se_bind, se_modify.
  destruct (_assign_roles_returns (Assembly.roles assembly)
              (set_active (dict_set (task_id context) assembly) self))
    as (ra & s1 & ->).
  destruct (dict_is_empty ra).
  - unfold se_raise. intros [= <- _]. left. by apply is_Exception_class.
  - unfold se_ret, se_lift.
    destruct (_execute_workflow execute_step (Assembly.workflow assembly) ra context)
      as [outs|e'] eqn:Hwf; [done|].
    intros [= <- _]. destruct (_execute_workflow_raises _ _ _ _ Hwf) as [?|(step & ? & ?)];
      [by left|]. right. by exists ra, step.
Qed.

(** An instance of [Exception] raised by the [try] block is answered by
    the handler's result. *)
Lemma execute_assembly_raise (assembly : Assembly.t) (context : ExecutionContext)
    (self s : SwarmCoordinator) (e : Exception) :
  execute_assembly_body execute_step assembly context self = (Raise e, s) →
  is_Exception e = true →
  ∃ self',
    execute_assembly execute_step assembly context self
    = (Ret {| assembly_name := Assembly.name assembly;
              status := FAILED;
              outputs := [];
              agent_contributions := [];
              error_message := Some (str_exc e) |}, self').
Proof.
  intros Hbody He. unfold execute_assembly, try_finally, try_except.
  rewrite Hbody, He. simpl. eauto.
Qed.

(** Any other raised object leaves [execute_assembly], after the cleanup. *)
Lemma execute_assembly_propagates (assembly : Assembly.t) (context : ExecutionContext)
    (self s : SwarmCoordinator) (e : Exception) :
  execute_assembly_body execute_step assembly context self = (Raise e, s) →
  is_Exception e = false →
  ∃ self', execute_assembly execute_step assembly context self = (Raise e, self').
Proof.
  intros Hbody He. unfold execute_assembly, try_finally, try_except.
  rewrite Hbody, He. simpl. eauto.
Qed.

(** C5, amended.  [execute_assembly] hands back the result of its [try]
    block when the block returns.  When the block raises, at any of its
    statements, an instance of [Exception], the call returns a result with
    the status FAILED, empty outputs and the exception's message in
    [error_message].  Any other raised object, which only a step of the
    workflow can raise (a cancelled step's [CancelledError]), propagates
    to the caller.  The call therefore always returns a result when every
    failure of the step executor is an instance of [Exception]. *)
Theorem c5_execute_assembly_catches_exception_instances
    (assembly : Assembly.t) (context : ExecutionContext) (self : SwarmCoordinator) :
  ∃ outcome self',
    execute_assembly execute_step assembly context self = (outcome, self')
    ∧ match (execute_assembly_body execute_step assembly context self).1 with
      | Ret result => outcome = Ret result
      | Raise e =>
          if is_Exception e
          then outcome = Ret {| assembly_name := Assembly.name assembly;
                                status := FAILED;
                                outputs := [];
                                agent_contributions := [];
                                error_message := Some (str_exc e) |}
          else outcome = Raise e
               ∧ ∃ role_assignments step,
                   step ∈ steps (Assembly.workflow assembly)
                   ∧ execute_step step role_assignments context = Raise e
      end
    ∧ ((∀ role_assignments,
          fails_with_Exception execute_step role_assignments context
            (steps (Assembly.workflow assembly))) →
       ∃ result, outcome = Ret result).
Proof.
  destruct (execute_assembly_body execute_step assembly context self)
    as [[result|e] s] eqn:Hbody; cbn [fst].
  - unfold execute_assembly, try_finally, try_except. rewrite Hbody. simpl.
    eexists _, _. split; [done|]. split; [done|]. intros _. by eexists.
  - destruct (is_Exception e) eqn:He.
    + destruct (execute_assembly_raise _ _ _ _ _ Hbody He) as [self' Hrun].
      eexists _, _. split; [exact Hrun|]. split; [done|]. intros _. by eexists.
    + destruct (execute_assembly_propagates _ _ _ _ _ Hbody He) as [self' Hrun].
      eexists _, _. split; [exact Hrun|].
      destruct (execute_assembly_body_raises _ _ _ _ _ Hbody)
        as [Habs|(ra & step & Hstep & Hraise)]; [congruence|].
      split; [split; [done | by exists ra, step]|].
      intros Hall. specialize (Hall ra step e Hstep Hraise). congruence.
Qed.

(** C1, amended.  When a sequential workflow runs under the "stop" policy
    and a step fails after the steps before it succeeded, [execute_assembly]
    returns a result with the status FAILED whose output map and
    contribution map are empty: the keys emitted by the steps that
    succeeded are not in it.  When roles were assigned, [error_message] is
    the message of the failing step.  (This is the outcome for a failure
    that is an instance of [Exception]; a cancelled step's
    [CancelledError] leaves the call as it is, and no result is
    returned.) *)
Theorem c1_stop_failure_returns_empty_outputs
    (assembly : Assembly.t) (context : ExecutionContext) (self : SwarmCoordinator)
    (role_assignments : Dict AgentRef)
    (pre : list Step) (failing : Step) (post : list Step) (e : Exception) :
  parallel_execution (Assembly.workflow assembly) = false →
  error_handling (Assembly.workflow assembly) = "stop" →
  steps (Assembly.workflow assembly) = pre ++ failing :: post →
  (_assign_roles (Assembly.roles assembly)
     (set_active (dict_set (task_id context) assembly) self)).1
  = Ret role_assignments →
  (∀ step, step ∈ pre → ∃ out, execute_step step role_assignments context = Ret out) →
  execute_step failing role_assignments context = Raise e →
  ∃ outcome self',
    execute_assembly execute_step assembly context self = (outcome, self')
    ∧ if is_Exception e || dict_is_empty role_assignments
      then ∃ result,
             outcome = Ret result
             ∧ status result = FAILED
             ∧ outputs result = []
             ∧ agent_contributions result = []
             ∧ (dict_is_empty role_assignments = false →
                error_message result = Some (str_exc e))
      else outcome = Raise e.
Proof.
  intros Hseq Hstop Hsteps Hra Hpre Hfail.
  destruct (_assign_roles (Assembly.roles assembly)
              (set_active (dict_set (task_id context) assembly) self))
    as [r s1] eqn:Hassign.
  simpl in Hra. subst r.
  destruct (dict_is_empty role_assignments) eqn:Hempty.
  - rewrite orb_true_r.
    assert (execute_assembly_body execute_step assembly context self
            = (Raise (mkException "ValueError" "Failed to assign all required roles"),
               s1)) as Hbody.
    { unfold execute_assembly_body, se_bind, se_modify. by rewrite Hassign, Hempty. }
    destruct (execute_assembly_raise _ _ _ _ _ Hbody) as [self' Hrun];
      [by apply is_Exception_class|].
    eexists _, _. split; [exact Hrun|]. eexists. by split_and!.
  - rewrite orb_false_r.
    assert (execute_assembly_body execute_step assembly context self = (Raise e, s1))
      as Hbody.
    { unfold execute_assembly_body, se_bind, se_modify. rewrite Hassign, Hempty.
      unfold se_ret, se_lift, _execute_workflow.
      rewrite Hseq, Hstop, Hsteps.
      by rewrite (run_sequential_stop_raises _ _ _ _ _ e). }
    destruct (is_Exception e) eqn:He.
    + destruct (execute_assembly_raise _ _ _ _ _ Hbody He) as [self' Hrun].
      eexists _, _. split; [exact Hrun|]. eexists. by split_and!.
    + destruct (execute_assembly_propagates _ _ _ _ _ Hbody He) as [self' Hrun].
      by eexists _, _.
Qed.

End ExecutionFacts.

Lemma c1_stop_failure_returns_empty_outputs_witness :
  ∃ result self',
    execute_assembly exec_scenario_c assembly_c context_c pool_c = (Ret result, self')
    ∧ status result = FAILED
    ∧ outputs result = []
    ∧ agent_contributions result = []
    ∧ (dict_is_empty [("writer", 0)] = false →
       error_message result = Some "step S2 failed").
Proof.
  destruct (c1_stop_failure_returns_empty_outputs exec_scenario_c assembly_c context_c
              pool_c [("writer", 0)] [step_of "writer" "S1"] (step_of "writer" "S2") []
              (mkException "RuntimeError" "step S2 failed"))
    as (outcome & self' & Hrun & result & -> & Hcase).
  - reflexivity.
  - reflexivity.
  - reflexivity.
  - reflexivity.
  - intros step Hstep. apply list_elem_of_singleton in Hstep as ->.
    exists [("k1", VStr "v1")]. reflexivity.
  - reflexivity.
  - by exists result, self'.
Defined.

(** C1, as stated, fails on scenario C: S1 succeeds and emits "k1", S2
    fails under the "stop" policy, and the failed result does not contain
    "k1". *)
Lemma c1_partial_outputs_not_in_failed_result :
  exec_scenario_c (step_of "writer" "S1") [("writer", 0)] context_c
  = Ret [("k1", VStr "v1")]
  ∧ exec_scenario_c (step_of "writer" "S2") [("writer", 0)] context_c
    = Raise (mkException "RuntimeError" "step S2 failed")
  ∧ ∃ result self',
      execute_assembly exec_scenario_c assembly_c context_c pool_c = (Ret result, self')
      ∧ status result = FAILED
      ∧ dict_mem "k1" (outputs result) = false.
Proof.
  split_and!; [reflexivity|reflexivity|].
  eexists _, _. split_and!; [vm_compute; reflexivity|reflexivity|reflexivity].
Qed.

(** C5, as stated, fails: in scenario C with a step S2 that is cancelled,
    the [CancelledError] of the step is no instance of [Exception];
    [execute_assembly] returns no result and raises it to the caller. *)
Lemma c5_cancelled_step_propagates :
  exec_cancelled (step_of "writer" "S2") [("writer", 0)] context_c
  = Raise (mkException "CancelledError" "")
  ∧ (∃ self',
       execute_assembly exec_cancelled assembly_c context_c pool_c
       = (Raise (mkException "CancelledError" ""), self'))
  ∧ ¬ ∃ result self',
        execute_assembly exec_cancelled assembly_c context_c pool_c
        = (Ret result, self').
Proof.
  split_and!; [reflexivity|eexists; vm_compute; reflexivity|].
  intros (result & self' & Hrun). vm_compute in Hrun. discriminate Hrun.
Qed.

(** ** The agent pool *)

Lemma pool_of_snoc (agents : list Agent.t) (a : Agent.t) :
  pool_of (agents ++ [a]) = register_agent a (pool_of agents).
Proof. unfold pool_of. by rewrite foldl_app. Qed.

(** X1.  [register_agent]: a pool that is built by registrations holds
    every registered agent once, whatever was registered twice;
    registering is idempotent and keeps the agents that are there at their
    positions. *)
Theorem register_agent_pool (agents : list Agent.t) (agent : Agent.t) :
  NoDup (available_agents (pool_of agents))
  ∧ (∀ a, a ∈ available_agents (pool_of agents) ↔ a ∈ agents)
  ∧ agent ∈ available_agents (register_agent agent (pool_of agents))
  ∧ (∃ l, available_agents (register_agent agent (pool_of agents))
          = available_agents (pool_of agents) ++ l)
  ∧ register_agent agent (register_agent agent (pool_of agents))
    = register_agent agent (pool_of agents).
Proof.
  assert (∀ self a, a ∈ available_agents (register_agent a self)) as Hin.
  { intros self a. unfold register_agent.
    destruct (bool_decide_reflect (a ∈ available_agents self)); [done|].
    simpl. apply elem_of_app. right. elem_head. }
  assert (NoDup (available_agents (pool_of agents))
          ∧ ∀ a, a ∈ available_agents (pool_of agents) ↔ a ∈ agents) as [Hnd Hmem].
  { induction agents as [|x agents IH] using rev_ind.
    - split; [apply NoDup_nil_2 | done].
    - destruct IH as [Hnd Hmem]. rewrite pool_of_snoc. unfold register_agent.
      destruct (bool_decide_reflect (x ∈ available_agents (pool_of agents)))
        as [Hx|Hx].
      + split; [done|]. intros a. rewrite Hmem, elem_of_app, list_elem_of_singleton.
        split; [tauto|]. intros [? | ->]; [done | by apply Hmem].
      + simpl. split.
        * apply NoDup_app. split_and!; [done| |apply NoDup_singleton].
          intros y Hy Hy'. by apply list_elem_of_singleton in Hy' as ->.
        * intros a. rewrite !elem_of_app, Hmem. done. }
  split_and!; [done|done|apply Hin| |].
  - unfold register_agent. destruct (bool_decide _).
    + exists []. by rewrite app_nil_r.
    + by exists [agent].
  - unfold register_agent at 1.
    by rewrite bool_decide_eq_true_2 by apply Hin.
Qed.

(** X2.  [unregister_agent]: no agent with the identifier remains, the
    other agents stay, in their order; a second call changes nothing; and
    an agent registered and then unregistered by its identifier leaves the
    pool as unregistering alone does. *)
Theorem unregister_agent_removes (self : SwarmCoordinator) (agent_id : string)
    (agent : Agent.t) :
  (∀ a, a ∈ available_agents (unregister_agent agent_id self)
        ↔ a ∈ available_agents self ∧ Agent.agent_id a ≠ agent_id)
  ∧ available_agents (unregister_agent agent_id self)
      `sublist_of` available_agents self
  ∧ unregister_agent agent_id (unregister_agent agent_id self)
    = unregister_agent agent_id self
  ∧ unregister_agent (Agent.agent_id agent) (register_agent agent self)
    = unregister_agent (Agent.agent_id agent) self
  ∧ ((∀ a, a ∈ available_agents self → Agent.agent_id a ≠ agent_id) →
     unregister_agent agent_id self = self).
Proof.
  unfold unregister_agent. split_and!.
  - intros a. simpl. rewrite list_elem_of_filter. tauto.
  - simpl. apply sublist_filter.
  - unfold set_agents. simpl. f_equal.
    apply list_filter_filter_l. done.
  - unfold register_agent. destruct (bool_decide _); [done|].
    unfold set_agents. simpl. f_equal.
    rewrite filter_app, filter_cons_False by (intros H; by apply H).
    by rewrite filter_nil, app_nil_r.
  - intros Hnone. destruct self as [act av hist]. unfold set_agents. simpl in *.
    f_equal. induction av as [|a av IH]; [done|].
    rewrite filter_cons_True by (apply Hnone; elem_head).
    f_equal. apply IH. intros x Hx. apply Hnone. elem_tail.
Qed.

Lemma unregister_agent_removes_witness :
  unregister_agent "a9" (pool_of [mk_agent "a1" ["coding"]; mk_agent "a2" []])
  = pool_of [mk_agent "a1" ["coding"]; mk_agent "a2" []].
Proof.
  apply (unregister_agent_removes
           (pool_of [mk_agent "a1" ["coding"]; mk_agent "a2" []]) "a9"
           (mk_agent "a1" ["coding"])).
  intros a Ha.
  apply elem_of_cons in Ha as [->|Ha]; [discriminate|].
  apply list_elem_of_singleton in Ha as ->. discriminate.
Defined.

(** ** More on the role-list assignment *)

Lemma assign_one_frame (heap0 : list Agent.t) (roles : list Role.t)
    (role : Role.t) (st : AssignLoop) :
  role ∈ roles →
  assign_inv st ∧ assign_frame heap0 roles st →
  ∃ st', assign_one role st = (Ret tt, st')
         ∧ assign_inv st' ∧ assign_frame heap0 roles st'.
Proof.
  intros Hrole [Hinv (Hlen & Hav & Hheap & Hasg)].
  destruct (assign_one_inv role st Hinv) as (st' & Hrun & Hinv').
  exists st'. split; [done|]. split; [done|].
  destruct (assign_one_cases role st)
    as [[_ Heq]|(ref & agent & pre & post & Hsplit & Href & Hcan & Hpos & _ & Heq)];
    rewrite Heq in Hrun; injection Hrun as <-; [done|].
  destruct Hinv as (Hnd & Hout & _).
  assert (ref ∈ available st) as Hin
    by (rewrite Hsplit; apply elem_of_app; right; elem_head).
  assert (heap0 !! ref = Some agent) as Href0 by (by rewrite <- Hav).
  assert (∀ x, x ∈ pre ++ post → x ∈ available st ∧ x ≠ ref) as Hrest.
  { intros x Hx. rewrite Hsplit in Hnd |- *.
    apply NoDup_app in Hnd as (_ & Hdisj & Hnd). apply NoDup_cons in Hnd as [Hr _].
    apply elem_of_app in Hx as [Hx|Hx].
    - split; [apply elem_of_app; by left|]. intros ->. apply (Hdisj _ Hx). elem_head.
    - split; [apply elem_of_app; right; elem_tail|]. by intros ->. }
  unfold assign_frame. simpl. split_and!.
  - by rewrite length_insert.
  - intros x Hx. destruct (Hrest x Hx) as [Hx' Hne].
    rewrite list_lookup_insert_ne by done. by apply Hav.
  - intros x a'. destruct (decide (x = ref)) as [->|Hne].
    + rewrite list_lookup_insert_eq by (by eapply lookup_lt_Some).
      intros [= <-]. exists agent. split; [done|]. right. by exists role.
    + rewrite list_lookup_insert_ne by done. apply Hheap.
  - intros n x. rewrite dict_get_set.
    destruct (decide (Role.name role = n)) as [<-|Hn].
    + intros [= <-]. exists agent, role. split_and!; try done.
      apply list_lookup_insert_eq. by eapply lookup_lt_Some.
    + intros Hx. destruct (Hasg _ _ Hx) as (a & r & ? & ? & ? & ? & ? & Hlook).
      exists a, r. split_and!; try done.
      rewrite list_lookup_insert_ne; [done|].
      intros <-. by destruct (Hout _ _ Hx) as [Hnot _].
Qed.

Lemma _assign_roles_run (roles : list Role.t) (self : SwarmCoordinator) :
  ∃ st,
    _assign_roles roles self
    = (Ret (assignments st), set_agents (λ _, heap st) self)
    ∧ assign_inv st ∧ assign_frame (available_agents self) roles st.
Proof.
  unfold _assign_roles.
  set (st0 := {| heap := available_agents self;
                 available := seq 0 (length (available_agents self));
                 assignments := [] |}).
  destruct (for_each_inv
              (λ st, assign_inv st ∧ assign_frame (available_agents self) roles st)
              assign_one roles st0) as (st & -> & Hinv & Hframe).
  - split.
    + unfold assign_inv; simpl. split_and!; [apply NoDup_seq|done|done].
    + unfold assign_frame; simpl. split_and!; try done.
      intros ref a' Ha. exists a'. split; [done | by left].
  - intros role s Hrole Hs. by apply assign_one_frame.
  - by exists st.
Qed.

Lemma _assign_roles_state (roles : list Role.t) (self : SwarmCoordinator) :
  ∃ assignments self',
    _assign_roles roles self = (Ret assignments, self')
    ∧ active_assemblies self' = active_assemblies self
    ∧ execution_history self' = execution_history self
    ∧ length (available_agents self') = length (available_agents self)
    ∧ ∀ n ref, dict_get n assignments = Some ref →
        (∃ r, r ∈ roles) ∧ ref < length (available_agents self').
Proof.
  destruct (_assign_roles_run roles self) as (st & -> & _ & Hlen & _ & _ & Hasg).
  eexists _, _. split; [done|]. simpl. split_and!; try done.
  intros n ref Hn. destruct (Hasg _ _ Hn) as (a & r & _ & Hr & _ & _ & _ & Hlook).
  split; [by exists r | by eapply lookup_lt_Some].
Qed.

(** X4.  [_assign_roles] changes nothing of the coordinator but the agents
    it assigns: the registry and the history are as before, the pool has
    the same length, every agent keeps its identifier, name and
    capabilities, and an agent is either as before or marked "assigned"
    with a role of the call that it can perform as its current role. *)
Theorem _assign_roles_frame (roles : list Role.t) (self : SwarmCoordinator) :
  ∃ assignments self',
    _assign_roles roles self = (Ret assignments, self')
    ∧ active_assemblies self' = active_assemblies self
    ∧ execution_history self' = execution_history self
    ∧ length (available_agents self') = length (available_agents self)
    ∧ ∀ ref a, available_agents self !! ref = Some a →
        ∃ a', available_agents self' !! ref = Some a'
              ∧ Agent.agent_id a' = Agent.agent_id a
              ∧ Agent.name a' = Agent.name a
              ∧ Agent.capabilities a' = Agent.capabilities a
              ∧ (a' = a
                 ∨ (Agent.status a' = "assigned"
                    ∧ ∃ r, r ∈ roles ∧ Agent.current_role a' = Some r
                           ∧ can_perform_role a r = true)).
Proof.
  destruct (_assign_roles_run roles self) as (st & -> & _ & Hlen & _ & Hheap & _).
  eexists _, _. split; [done|]. simpl. split_and!; try done.
  intros ref a Ha.
  destruct (lookup_lt_is_Some_2 (heap st) ref) as [a' Ha'].
  { rewrite Hlen. by eapply lookup_lt_Some. }
  exists a'. split; [done|].
  destruct (Hheap _ _ Ha') as (a0 & Ha0 & Hcase).
  rewrite Ha in Ha0. injection Ha0 as <-.
  destruct Hcase as [->|(r & Hr & Hcan & ->)].
  - split_and!; try done. by left.
  - unfold assign_role. rewrite Hcan. simpl. split_and!; try done.
    right. split; [done|]. by exists r.
Qed.

(** X5.  Every entry of the mapping that [_assign_roles] returns names a
    role of the call; the agent it points to can perform that role, shares
    a capability with it, and has it as its current role. *)
Theorem _assign_roles_entries (roles : list Role.t) (self : SwarmCoordinator) :
  ∃ assignments self',
    _assign_roles roles self = (Ret assignments, self')
    ∧ ∀ n ref, dict_get n assignments = Some ref →
        ∃ a r, available_agents self' !! ref = Some a
               ∧ r ∈ roles ∧ Role.name r = n
               ∧ Agent.current_role a = Some r
               ∧ can_perform_role a r = true
               ∧ 0 < py_set_inter_len (Agent.capabilities a) (Role.capabilities r).
Proof.
  destruct (_assign_roles_run roles self) as (st & -> & _ & _ & _ & _ & Hasg).
  eexists _, _. split; [done|]. simpl.
  intros n ref Hn.
  destruct (Hasg _ _ Hn) as (a & r & _ & Hr & Hname & Hcan & Hpos & Hlook).
  exists (assign_role a r).1, r. split_and!; try done.
  - by apply assign_role_status.
  - by rewrite (can_perform_role_caps _ a) by apply assign_role_caps.
  - by rewrite assign_role_caps.
Qed.

Lemma find_best_max agents role (l : list AgentRef) (acc : option AgentRef * nat) :
  acc.2 ≤ (foldl (scan_agent agents role) acc l).2
  ∧ ∀ y s, y ∈ l → eligible_score agents role y = Some s →
           s ≤ (foldl (scan_agent agents role) acc l).2.
Proof.
  revert acc. induction l as [|x l IH]; intros acc; simpl.
  - split; [done|]. intros y s Hy. by apply elem_of_nil in Hy.
  - destruct (IH (scan_agent agents role acc x)) as [Hacc Hall].
    assert (acc.2 ≤ (scan_agent agents role acc x).2
            ∧ ∀ s, eligible_score agents role x = Some s →
                   s ≤ (scan_agent agents role acc x).2) as [Hle Hx].
    { rewrite scan_agent_eligible.
      destruct (eligible_score agents role x) as [sx|]; [|done].
      destruct (bool_decide_reflect (acc.2 < sx)); simpl.
      - split; [lia|]. by intros s [= <-].
      - split; [done|]. intros s [= <-]. lia. }
    split; [lia|]. intros y s Hy Hs.
    apply elem_of_cons in Hy as [->|Hy]; [|by eapply Hall].
    specialize (Hx s Hs). lia.
Qed.

Lemma seq_split_prefix (n ref : nat) (pre post : list nat) :
  seq 0 n = pre ++ ref :: post → ∀ y, y < ref → y ∈ pre.
Proof.
  intros Hsplit y Hy.
  assert (ref = length pre) as ->.
  { assert (seq 0 n !! length pre = Some ref) as Hl
      by (rewrite Hsplit; apply list_lookup_middle; done).
    apply lookup_seq in Hl as [Hl _]. simpl in Hl. done. }
  assert (length pre ≤ n) as Hle.
  { rewrite <- (length_seq n 0), Hsplit, length_app. lia. }
  assert (pre = seq 0 (length pre)) as Hpre.
  { rewrite <- (take_app_length pre (length pre :: post)) at 1.
    rewrite <- Hsplit, take_seq. f_equal. lia. }
  rewrite Hpre. apply elem_of_seq. lia.
Qed.

(** X6.  For a call with one role, the role goes to the first agent of the
    pool that reaches the highest overlap score among the eligible agents,
    when that score is positive, and is left unassigned when no eligible
    agent has a positive score. *)
Theorem _assign_roles_best_fit (role : Role.t) (self : SwarmCoordinator) :
  ∃ assignments self',
    _assign_roles [role] self = (Ret assignments, self')
    ∧ match dict_get (Role.name role) assignments with
      | Some ref =>
          ∃ s, eligible_score (available_agents self) role ref = Some s
               ∧ 0 < s
               ∧ ∀ y s', eligible_score (available_agents self) role y = Some s' →
                         s' ≤ s ∧ (y < ref → s' < s)
      | None =>
          ∀ y s', eligible_score (available_agents self) role y = Some s' → s' = 0
      end.
Proof.
  assert (∀ y s', eligible_score (available_agents self) role y = Some s' →
            y ∈ seq 0 (length (available_agents self))) as Hdom.
  { intros y s'. unfold eligible_score.
    destruct (available_agents self !! y) eqn:Hy; [|done]. intros _.
    apply elem_of_seq. apply lookup_lt_Some in Hy. lia. }
  unfold _assign_roles. simpl. unfold se_bind.
  set (st0 := {| heap := available_agents self;
                 available := seq 0 (length (available_agents self));
                 assignments := [] |}).
  destruct (assign_one_cases role st0)
    as [[Hnone ->]|(ref & agent & pre & post & Hsplit & Href & Hcan & Hpos & Hbest & ->)].
  - eexists _, _. split; [done|]. simpl.
    intros y s' Hs'. unfold find_best in Hnone.
    destruct (find_best_foldl (available_agents self) role
                (seq 0 (length (available_agents self))) (None, 0))
      as [[_ Hle]|(? & ? & ? & ? & _ & Hr & _)].
    + specialize (Hle y s' (Hdom _ _ Hs') Hs'). simpl in Hle. lia.
    + simpl in Hnone. rewrite Hr in Hnone. done.
  - eexists _, _. split; [done|]. simpl.
    rewrite decide_True by done.
    destruct (find_best_Some _ _ _ _ Hbest) as (pre' & post' & s & Hsplit' & Hs & Hs0 & Hpre).
    exists s. split_and!; [done|done|].
    intros y s' Hs'. split.
    + destruct (find_best_max (available_agents self) role
                  (seq 0 (length (available_agents self))) (None, 0)) as [_ Hmax].
      specialize (Hmax y s' (Hdom _ _ Hs') Hs').
      unfold find_best in Hbest.
      destruct (find_best_foldl (available_agents self) role
                  (seq 0 (length (available_agents self))) (None, 0))
        as [[Heq _]|(? & ref' & ? & s2 & _ & Hr & Hs2 & _)].
      * simpl in Hbest. rewrite Heq in Hbest. done.
      * simpl in *. rewrite Hr in Hbest, Hmax. simpl in *.
        injection Hbest as ->. rewrite Hs in Hs2. injection Hs2 as <-. done.
    + intros Hlt. apply (Hpre y); [|done].
      by apply (seq_split_prefix _ _ _ _ Hsplit').
Qed.

(** ** More on workflow execution *)

Section WorkflowFacts.
Variable execute_step : Step → Dict AgentRef → ExecutionContext → Exc (Dict PyVal).

Lemma run_sequential_merge_results (error_handling : string)
    (role_assignments : Dict AgentRef) (context : ExecutionContext)
    (steps : list Step) (outputs0 : Dict PyVal) :
  fails_with_Exception execute_step role_assignments context steps →
  run_sequential execute_step error_handling role_assignments context steps outputs0
  = merge_results error_handling
      (map (λ step, execute_step step role_assignments context) steps) outputs0.
Proof.
  revert outputs0. induction steps as [|step l IH]; intros outputs0 Hexc; simpl; [done|].
  assert (fails_with_Exception execute_step role_assignments context l) as Hexc'.
  { intros s e Hs. apply Hexc. elem_tail. }
  destruct (execute_step step role_assignments context) as [out|e] eqn:Hstep;
    [by apply IH|].
  rewrite (Hexc step e) by (done || elem_head).
  destruct (decide (error_handling = "stop")); [done | by apply IH].
Qed.



Lemma run_sequential_continue (error_handling : string)
    (role_assignments : Dict AgentRef) (context : ExecutionContext)
    (steps : list Step) (outputs0 : Dict PyVal) :
  error_handling ≠ "stop" →
  fails_with_Exception execute_step role_assignments context steps →
  run_sequential execute_step error_handling role_assignments context steps outputs0
  = Ret (foldl dict_update outputs0
           (step_successes execute_step role_assignments context steps)).
Proof.
  intros Hpolicy. revert outputs0.
  induction steps as [|step l IH]; intros outputs0 Hexc; simpl; [done|].
  assert (fails_with_Exception execute_step role_assignments context l) as Hexc'.
  { intros s e Hs. apply Hexc. elem_tail. }
  unfold step_successes. simpl.
  destruct (execute_step step role_assignments context) as [out|e] eqn:Hstep; simpl;
    [by apply IH|].
  rewrite (Hexc step e) by (done || elem_head).
  rewrite decide_False by done. by apply IH.
Qed.

(** X9.  Under every policy but "stop" ("continue", the unimplemented
    "retry", any other string) a workflow whose steps fail with instances
    of [Exception] only does not raise, in either mode: it returns the
    output maps of the steps that succeeded, merged in step order, and a
    failed step contributes nothing. *)
Theorem _execute_workflow_continue (workflow : Workflow)
    (role_assignments : Dict AgentRef) (context : ExecutionContext) :
  error_handling workflow ≠ "stop" →
  fails_with_Exception execute_step role_assignments context (steps workflow) →
  _execute_workflow execute_step workflow role_assignments context
  = Ret (foldl dict_update []
           (step_successes execute_step role_assignments context (steps workflow))).
Proof.
  intros Hpolicy Hexc. unfold _execute_workflow.
  destruct (parallel_execution workflow).
  - rewrite <- run_sequential_merge_results by done. by apply run_sequential_continue.
  - by apply run_sequential_continue.
Qed.

(** The states that the [try] block of [execute_assembly] goes through. *)
Lemma execute_assembly_body_cases (assembly : Assembly.t)
    (context : ExecutionContext) (self : SwarmCoordinator) :
  ∃ role_assignments s2,
    _assign_roles (Assembly.roles assembly)
      (set_active (dict_set (task_id context) assembly) self)
    = (Ret role_assignments, s2)
    ∧ active_assemblies s2
      = dict_set (task_id context) assembly (active_assemblies self)
    ∧ execution_history s2 = execution_history self
    ∧ ((role_assignments = []
        ∧ execute_assembly_body execute_step assembly context self
          = (Raise (mkException "ValueError" "Failed to assign all required roles"),
             s2))
       ∨ (role_assignments ≠ []
          ∧ ∃ e,
              _execute_workflow execute_step (Assembly.workflow assembly)
                role_assignments context = Raise e
              ∧ execute_assembly_body execute_step assembly context self
                = (Raise e, s2))
       ∨ (role_assignments ≠ []
          ∧ ∃ outs contributions,
              _execute_workflow execute_step (Assembly.workflow assembly)
                role_assignments context = Ret outs
              ∧ _collect_contributions role_assignments s2 = (Ret contributions, s2)
              ∧ execute_assembly_body execute_step assembly context self
                = (Ret {| assembly_name := Assembly.name assembly;
                          status := if _validate_results outs
                                         (Assembly.success_criteria assembly)
                                    then COMPLETED else FAILED;
                          outputs := outs;
                          agent_contributions := contributions;
                          error_message := None |},
                   set_history
                     (λ h, h ++ [{| assembly_name := Assembly.name assembly;
                                    status := if _validate_results outs
                                                   (Assembly.success_criteria assembly)
                                              then COMPLETED else FAILED;
                                    outputs := outs;
                                    agent_contributions := contributions;
                                    error_message := None |}]) s2))).
Proof.
  destruct (_assign_roles_state (Assembly.roles assembly)
              (set_active (dict_set (task_id context) assembly) self))
    as (ra & s2 & Hassign & Hact & Hhist & _).
  exists ra, s2. split_and!; [done|done|done|].
  unfold execute_assembly_body, se_bind, se_modify. rewrite Hassign.
  destruct ra as [|entry ra]; simpl.
  - left. done.
  - right. unfold se_ret, se_lift.
    destruct (_execute_workflow execute_step (Assembly.workflow assembly)
                (entry :: ra) context) as [outs|e].
    + right. split; [done|]. eexists _, _. split; [done|]. split; done.
    + left. split; [done|]. by exists e.
Qed.

(** X10.  Guaranteed cleanup: after [execute_assembly], on every path,
    whether it returns a result or lets a raised object through, the task
    is not in the registry of active assemblies, and the entries of the
    other tasks are as before. *)
Theorem execute_assembly_cleanup_done (assembly : Assembly.t)
    (context : ExecutionContext) (self : SwarmCoordinator) :
  dict_wf (active_assemblies self) →
  ∃ outcome self',
    execute_assembly execute_step assembly context self = (outcome, self')
    ∧ dict_get (task_id context) (active_assemblies self') = None
    ∧ (task_id context ∉ get_active_assemblies self')
    ∧ dict_wf (active_assemblies self')
    ∧ ∀ k, k ≠ task_id context →
        dict_get k (active_assemblies self') = dict_get k (active_assemblies self).
Proof.
  intros Hwf.
  destruct (execute_assembly_body_cases assembly context self)
    as (ra & s2 & _ & Hact & _ & Hcases).
  assert (∃ r s3, try_except (execute_assembly_body execute_step assembly context)
                    (execute_assembly_handler assembly) self = (r, s3)
                  ∧ active_assemblies s3
                    = dict_set (task_id context) assembly (active_assemblies self))
    as (r & s3 & Htry & Hact3).
  { unfold try_except.
    destruct Hcases as [[_ Hb]|[(_ & e & _ & Hb)|(_ & outs & c & _ & _ & Hb)]];
      rewrite Hb; [| destruct (is_Exception e) |];
      eexists _, _; (split; [reflexivity|]); simpl; done. }
  unfold execute_assembly, try_finally. rewrite Htry. simpl.
  unfold dict_mem. rewrite Hact3, dict_get_set_eq.
  eexists _, _. split; [done|]. simpl. rewrite Hact3.
  pose proof (dict_wf_set (task_id context) assembly _ Hwf) as Hwf'.
  assert (dict_get (task_id context)
            (dict_del (task_id context)
               (dict_set (task_id context) assembly (active_assemblies self)))
          = None) as Hgone by by apply dict_get_del_eq.
  split_and!.
  - done.
  - unfold get_active_assemblies. simpl. rewrite Hact3. by apply dict_get_None.
  - by apply dict_wf_del.
  - intros k Hk. rewrite dict_get_del_ne, dict_get_set_ne by done. done.
Qed.

(** X11.  The history records exactly the results of the runs whose [try]
    block returned: a result without error message is appended to the
    history, a result that reports an exception is not recorded, and
    nothing is recorded when a raised object leaves the call. *)
Theorem execute_assembly_history (assembly : Assembly.t)
    (context : ExecutionContext) (self : SwarmCoordinator) :
  ∃ outcome self',
    execute_assembly execute_step assembly context self = (outcome, self')
    ∧ execution_history self'
      = execution_history self
        ++ match outcome with
           | Ret result =>
               match error_message result with
               | None => [result]
               | Some _ => []
               end
           | Raise _ => []
           end.
Proof.
  destruct (execute_assembly_body_cases assembly context self)
    as (ra & s2 & _ & _ & Hhist & Hcases).
  unfold execute_assembly, try_finally, try_except.
  destruct Hcases as [[_ Hb]|[(_ & e & _ & Hb)|(_ & outs & c & _ & _ & Hb)]];
    rewrite Hb; [| destruct (is_Exception e) |];
    simpl; eexists _, _; (split; [reflexivity|]); simpl;
    destruct (dict_mem _ _); simpl; rewrite ?Hhist, ?app_nil_r; done.
Qed.

(** X12.  With an empty role list or an empty pool nothing can be
    assigned, and [execute_assembly] answers with the failed result of the
    message "Failed to assign all required roles"; the workflow is not
    run. *)
Theorem execute_assembly_nothing_assigned (assembly : Assembly.t)
    (context : ExecutionContext) (self : SwarmCoordinator) :
  Assembly.roles assembly = [] ∨ available_agents self = [] →
  ∃ self',
    execute_assembly execute_step assembly context self
    = (Ret (no_roles_result assembly), self')
    ∧ available_agents self' = available_agents self
    ∧ execution_history self' = execution_history self.
Proof.
  intros Hempty.
  destruct (execute_assembly_body_cases assembly context self)
    as (ra & s2 & Hassign & _ & Hhist & Hcases).
  destruct (_assign_roles_state (Assembly.roles assembly)
              (set_active (dict_set (task_id context) assembly) self))
    as (ra' & s2' & Hassign' & _ & _ & Hlen & Hentries).
  rewrite Hassign in Hassign'. injection Hassign' as <- <-.
  assert (ra = []) as ->.
  { destruct ra as [|[n ref] ra]; [done|]. exfalso.
    destruct (Hentries n ref) as [[r Hr] Ha]; [simpl; by rewrite decide_True|].
    destruct Hempty as [Hroles|Hpool].
    - rewrite Hroles in Hr. by apply elem_of_nil in Hr.
    - rewrite Hlen in Ha. simpl in Ha. rewrite Hpool in Ha. simpl in Ha. lia. }
  assert (available_agents s2 = available_agents self) as Hpool2.
  { destruct Hempty as [Hroles|Hpool].
    - unfold _assign_roles in Hassign. rewrite Hroles in Hassign. simpl in Hassign.
      by injection Hassign as <-.
    - simpl in Hlen. rewrite Hpool in Hlen |- *. by apply nil_length_inv. }
  destruct Hcases as [[_ Hbody]|[(Hne & _)|(Hne & _)]]; [|done|done].
  unfold execute_assembly, try_finally, try_except. rewrite Hbody.
  rewrite is_Exception_class by done. simpl.
  eexists. split; [reflexivity|]. by destruct (dict_mem _ _).
Qed.

End WorkflowFacts.

Lemma fails_with_Exception_scenario_c (role_assignments : Dict AgentRef)
    (steps : list Step) :
  fails_with_Exception exec_scenario_c role_assignments context_c steps.
Proof.
  intros step e _. unfold exec_scenario_c.
  destruct (decide _); [done|]. by intros [= <-].
Qed.


Lemma execute_assembly_cleanup_done_witness :
  ∃ outcome self',
    execute_assembly exec_cancelled assembly_c context_c pool_c = (outcome, self')
    ∧ dict_get "task-1" (active_assemblies self') = None
    ∧ ("task-1" ∉ get_active_assemblies self')
    ∧ dict_wf (active_assemblies self')
    ∧ ∀ k, k ≠ "task-1" →
        dict_get k (active_assemblies self') = dict_get k (active_assemblies pool_c).
Proof.
  apply (execute_assembly_cleanup_done exec_cancelled assembly_c context_c pool_c).
  apply NoDup_nil_2.
Defined.

Lemma execute_assembly_nothing_assigned_witness :
  ∃ self',
    execute_assembly exec_scenario_c assembly_c context_c init
    = (Ret (no_roles_result assembly_c), self')
    ∧ available_agents self' = available_agents init
    ∧ execution_history self' = execution_history init.
Proof.
  apply (execute_assembly_nothing_assigned exec_scenario_c assembly_c context_c init).
  right. reflexivity.
Defined.

Lemma _execute_workflow_continue_witness :
  _execute_workflow exec_scenario_c
    {| steps := [step_of "writer" "S2"; step_of "writer" "S1"];
       parallel_execution := true; error_handling := "retry" |}
    [("writer", 0)] context_c
  = Ret (foldl dict_update []
           (step_successes exec_scenario_c [("writer", 0)] context_c
              [step_of "writer" "S2"; step_of "writer" "S1"])).
Proof.
  apply (_execute_workflow_continue exec_scenario_c
           {| steps := [step_of "writer" "S2"; step_of "writer" "S1"];
              parallel_execution := true; error_handling := "retry" |}).
  - simpl. discriminate.
  - apply fails_with_Exception_scenario_c.
Defined.

(** ** The placeholder step executor and the contributions *)

Lemma placeholder_lookup (steps : list Step) (outputs0 : Dict PyVal) (k : string) :
  dict_get k (foldl (λ d step, dict_set (step_key step) (VStr "completed") d)
                outputs0 steps)
  = if bool_decide (k ∈ map step_key steps) then Some (VStr "completed")
    else dict_get k outputs0.
Proof.
  revert outputs0. induction steps as [|step steps IH]; intros outputs0; simpl; [done|].
  rewrite IH, dict_get_set.
  destruct (bool_decide_reflect (k ∈ map step_key steps)) as [Hin|Hnin].
  - rewrite bool_decide_eq_true_2; [done | elem_tail].
  - destruct (decide (step_key step = k)) as [<-|Hne].
    + rewrite bool_decide_eq_true_2; [done | elem_head].
    + rewrite bool_decide_eq_false_2; [done|].
      rewrite not_elem_of_cons. done.
Qed.

Lemma placeholder_workflow (workflow : Workflow) (role_assignments : Dict AgentRef)
    (context : ExecutionContext) :
  _execute_workflow _execute_step workflow role_assignments context
  = Ret (foldl (λ d step, dict_set (step_key step) (VStr "completed") d)
           [] (steps workflow)).
Proof.
  assert (∀ l outputs0,
            run_sequential _execute_step (error_handling workflow)
              role_assignments context l outputs0
            = Ret (foldl (λ d step, dict_set (step_key step) (VStr "completed") d)
                     outputs0 l)) as Hseq.
  { induction l as [|step l IH]; intros outputs0; simpl; [done|]. apply IH. }
  unfold _execute_workflow. destruct (parallel_execution workflow); [|apply Hseq].
  rewrite <- run_sequential_merge_results; [apply Hseq|].
  intros step e _. by unfold _execute_step.
Qed.

(** X13.  With the step executor of the source no step fails: unless no
    role could be assigned, [execute_assembly] returns a result without
    error message whose outputs are the keys "<role>_<action>" of the
    workflow steps, each with the value "completed", and the run is
    COMPLETED exactly when every required output is one of these keys. *)
Theorem execute_assembly_placeholder (assembly : Assembly.t)
    (context : ExecutionContext) (self : SwarmCoordinator) :
  ∃ result self',
    execute_assembly _execute_step assembly context self = (Ret result, self')
    ∧ (result = no_roles_result assembly
       ∨ (error_message result = None
          ∧ (∀ k, dict_get k (outputs result)
                  = if bool_decide
                         (k ∈ map step_key (steps (Assembly.workflow assembly)))
                    then Some (VStr "completed") else None)
          ∧ (status result = COMPLETED
             ↔ ∀ k, k ∈ required_outputs (Assembly.success_criteria assembly) →
                    k ∈ map step_key (steps (Assembly.workflow assembly)))
          ∧ (status result = COMPLETED ∨ status result = FAILED))).
Proof.
  destruct (execute_assembly_body_cases _execute_step assembly context self)
    as (ra & s2 & _ & _ & _ & Hcases).
  unfold execute_assembly, try_finally, try_except.
  destruct Hcases as [[_ Hb]|[(_ & e & He & _)|(_ & outs & c & Houts & _ & Hb)]].
  - rewrite Hb. rewrite is_Exception_class by done. simpl.
    eexists _, _. split; [reflexivity|]. by left.
  - by rewrite placeholder_workflow in He.
  - rewrite Hb. simpl. eexists _, _. split; [reflexivity|]. right. simpl.
    rewrite placeholder_workflow in Houts. injection Houts as <-.
    split_and!; [done | intros k; by rewrite placeholder_lookup | |].
    + assert (_validate_results
                (foldl (λ d step, dict_set (step_key step) (VStr "completed") d) []
                   (steps (Assembly.workflow assembly)))
                (Assembly.success_criteria assembly) = true
              ↔ ∀ k, k ∈ required_outputs (Assembly.success_criteria assembly) →
                     k ∈ map step_key (steps (Assembly.workflow assembly))) as Hval.
      { unfold _validate_results. rewrite forallb_forall. split.
        - intros H k Hk. apply list_elem_of_In in Hk. apply H in Hk.
          unfold dict_mem in Hk. rewrite placeholder_lookup in Hk.
          by destruct (bool_decide_reflect
                         (k ∈ map step_key (steps (Assembly.workflow assembly)))).
        - intros H k Hk. apply list_elem_of_In, H in Hk.
          unfold dict_mem. rewrite placeholder_lookup.
          by rewrite bool_decide_eq_true_2. }
      destruct (_validate_results _ _); split; try done.
      * intros _. by apply Hval.
      * intros H. by apply Hval in H.
    + destruct (_validate_results _ _); [by left | by right].
Qed.

(** X14.  [_collect_contributions]: the coordinator is left as it is;
    every assigned agent has a contribution under its identifier, with the
    quality score 0.85 and no outputs; and every contribution belongs to
    an entry of the assignment, so there are no more contributions than
    entries. *)
Theorem _collect_contributions_spec (role_assignments : Dict AgentRef)
    (self : SwarmCoordinator) :
  ∃ contributions,
    _collect_contributions role_assignments self = (Ret contributions, self)
    ∧ (∀ n ref a, (n, ref) ∈ role_assignments →
         available_agents self !! ref = Some a →
         ∃ c, dict_get (Agent.agent_id a) contributions = Some c)
    ∧ (∀ i c, dict_get i contributions = Some c →
         Contribution.agent_id c = i
         ∧ Contribution.outputs c = []
         ∧ Contribution.quality_score c = (85 # 100)%Q
         ∧ ∃ ref a, (Contribution.role_name c, ref) ∈ role_assignments
                    ∧ available_agents self !! ref = Some a
                    ∧ Agent.agent_id a = i)
    ∧ length contributions ≤ length role_assignments.
Proof.
  unfold _collect_contributions. eexists. split; [reflexivity|].
  induction role_assignments as [|[n0 ref0] ra IH] using rev_ind.
  - simpl. split_and!; [|done|done].
    intros n ref a Hin. by apply elem_of_nil in Hin.
  - destruct IH as (Hhas & Hfrom & Hlen).
    rewrite foldl_app. simpl.
    set (c0 := foldl _ [] ra) in *.
    destruct (available_agents self !! ref0) as [a0|] eqn:Ha0.
    + split_and!.
      * intros n ref a Hin Ha. rewrite dict_get_set.
        destruct (decide (Agent.agent_id a0 = Agent.agent_id a)); [by eexists|].
        apply elem_of_app in Hin as [Hin|Hin]; [by eapply Hhas|].
        apply list_elem_of_singleton in Hin as [= -> ->]. congruence.
      * intros i c. rewrite dict_get_set.
        destruct (decide (Agent.agent_id a0 = i)) as [<-|Hne].
        -- intros [= <-]. simpl. split_and!; try done.
           exists ref0, a0. split; [|done].
           apply elem_of_app. right. elem_head.
        -- intros Hc. destruct (Hfrom _ _ Hc) as (? & ? & ? & ref & a & Hin & ? & ?).
           split_and!; try done. exists ref, a. split; [|done].
           apply elem_of_app. by left.
      * rewrite length_app. simpl.
        pose proof (f_equal length (dict_keys_set (Agent.agent_id a0)
          {| Contribution.agent_id := Agent.agent_id a0;
             Contribution.role_name := n0;
             Contribution.outputs := [];
             Contribution.duration_seconds := 1%Q;
             Contribution.quality_score := (85 # 100)%Q |} c0)) as Hkeys.
        unfold dict_keys in Hkeys. rewrite !length_fmap in Hkeys.
        rewrite Hkeys. destruct (bool_decide _); rewrite ?length_app, ?length_fmap;
          simpl; lia.
    + split_and!.
      * intros n ref a Hin Ha.
        apply elem_of_app in Hin as [Hin|Hin]; [by eapply Hhas|].
        apply list_elem_of_singleton in Hin as [= -> ->]. congruence.
      * intros i c Hc. destruct (Hfrom _ _ Hc) as (? & ? & ? & ref & a & Hin & ? & ?).
        split_and!; try done. exists ref, a. split; [|done].
        apply elem_of_app. by left.
      * rewrite length_app. simpl. lia.
Qed.

(** ** The requirements path *)

(** X7.  The requirements path never returns an assignment: called with at
    least one agent and one required role it raises TypeError at its first
    membership test, the agents being unhashable; otherwise it returns the
    empty mapping. *)
Theorem assign_roles_outcome (agents : list Agent.t) (requirements : RoleRequirements) :
  assign_roles agents requirements
  = match agents, required_roles requirements with
    | _ :: _, _ :: _ => Raise (mkException "TypeError" "unhashable type: 'Agent'")
    | _, _ => Ret []
    end.
Proof.
  unfold assign_roles, assign_roles_with.
  destruct agents as [|a agents].
  - induction (required_roles requirements) as [|n rest IH]; simpl; [done|].
    rewrite IH. by destruct rest.
  - by destruct (required_roles requirements) as [|n rest].
Qed.

End CoordinatorFacts.

(** ** Result validation *)

Module AggregatorFacts.
Import Aggregator AggregatorSpec.







(** ** Python equality *)

Lemma py_eq_refl (v : PyVal) : py_eq v v = true.
Proof. destruct v; simpl; try done; by apply bool_decide_eq_true. Qed.

Lemma py_eq_sym (v w : PyVal) : py_eq v w = py_eq w v.
Proof.
  destruct v, w; simpl; try done; apply bool_decide_ext; split; by intros ->.
Qed.

Lemma py_eq_trans (u v w : PyVal) :
  py_eq u v = true → py_eq v w = true → py_eq u w = true.
Proof.
  destruct u, v, w; simpl; try done;
    rewrite !bool_decide_eq_true;
    repeat match goal with b : bool |- _ => destruct b end; simpl; congruence.
Qed.

(** Equal values of one type are the same value; a [bool] and an [int]
    can be equal and differ. *)
Lemma py_eq_same_type (v w : PyVal) :
  py_eq v w = true → py_type v = py_type w → v = w.
Proof.
  destruct v, w; simpl; try done; rewrite bool_decide_eq_true; by intros ->.
Qed.

(** ** [aggregate] on valid outputs *)

Lemma filter_validate_all (outs : list AgentOutput) :
  Forall (λ o, validate o = true) outs → List.filter validate outs = outs.
Proof.
  induction outs as [|o outs IH]; intros H; simpl; [done|].
  apply Forall_cons in H as [-> H]. by rewrite IH.
Qed.

Lemma aggregate_valid (outs : list AgentOutput) (strategy : AggregationStrategy) :
  outs ≠ [] →
  Forall (λ o, validate o = true) outs →
  aggregate outs strategy
  = match strategy with
    | MERGE => _merge_strategy outs
    | VOTE => _vote_strategy outs
    | CONSENSUS => Ret (_consensus_strategy outs)
    | WEIGHTED => Ret (_weighted_strategy outs)
    | BEST => Ret (_best_strategy outs)
    | SEQUENTIAL => _sequential_strategy outs
    end.
Proof.
  intros Hne Hvalid. unfold aggregate. rewrite filter_validate_all by done.
  by destruct outs.
Qed.

(** ** The set of all keys *)

Lemma set_update_spec (s keys : list string) :
  NoDup s →
  NoDup (set_update s keys)
  ∧ ∀ k, k ∈ set_update s keys ↔ k ∈ s ∨ k ∈ keys.
Proof.
  unfold set_update. revert s. induction keys as [|x keys IH]; intros s Hs; simpl.
  - split; [done|]. intros k. rewrite elem_of_nil. tauto.
  - destruct (bool_decide_reflect (x ∈ s)) as [Hx|Hx].
    + destruct (IH s Hs) as [Hnd Hin]. split; [done|].
      intros k. rewrite Hin, elem_of_cons. split; [tauto|].
      intros [?|[->|?]]; tauto.
    + destruct (IH (s ++ [x])) as [Hnd Hin].
      { apply NoDup_app. split_and!; [done| |apply NoDup_singleton].
        intros y Hy Hy'. apply list_elem_of_singleton in Hy' as ->. done. }
      split; [done|]. intros k.
      rewrite Hin, elem_of_app, list_elem_of_singleton, elem_of_cons. tauto.
Qed.

Lemma collect_keys_foldl (outs : list AgentOutput) (s : list string) :
  NoDup s →
  NoDup (foldl (λ s o, set_update s (dict_keys (output_data o))) s outs)
  ∧ ∀ k, k ∈ foldl (λ s o, set_update s (dict_keys (output_data o))) s outs
         ↔ k ∈ s ∨ ∃ o, o ∈ outs ∧ k ∈ dict_keys (output_data o).
Proof.
  revert s. induction outs as [|o outs IH]; intros s Hs; simpl.
  - split; [done|]. intros k. split; [tauto|].
    intros [?|(o & Ho & _)]; [done | by apply elem_of_nil in Ho].
  - destruct (set_update_spec s (dict_keys (output_data o)) Hs) as [Hnd Hin].
    destruct (IH _ Hnd) as [Hnd' Hin']. split; [done|].
    intros k. rewrite Hin', Hin. split.
    + intros [[?|?]|(o' & Ho' & Hk)]; [tauto| |].
      * right. exists o. split; [elem_head | done].
      * right. exists o'. split; [elem_tail | done].
    + intros [?|(o' & Ho' & Hk)]; [tauto|].
      apply elem_of_cons in Ho' as [->|Ho']; [tauto|].
      right. by exists o'.
Qed.

(** [all_keys] lists, without repetition, the keys of all the outputs. *)
Lemma collect_keys_spec (outs : list AgentOutput) :
  NoDup (collect_keys outs)
  ∧ ∀ k, k ∈ collect_keys outs ↔ ∃ o, o ∈ outs ∧ k ∈ dict_keys (output_data o).
Proof.
  destruct (collect_keys_foldl outs [] (NoDup_nil_2)) as [Hnd Hin].
  split; [done|]. intros k. unfold collect_keys. rewrite Hin, elem_of_nil. tauto.
Qed.

(** ** CONSENSUS *)

Lemma consensus_item_get (first_id : string) (o : AgentOutput)
    (st : Dict PyVal * list Conflict) (item : string * PyVal) (k : string) (v : PyVal) :
  dict_wf st.1 →
  dict_get k (consensus_item first_id o st item).1 = Some v →
  dict_get k st.1 = Some v ∧ (item.1 = k → py_eq v item.2 = true).
Proof.
  intros Hwf. unfold consensus_item.
  destruct (dict_get item.1 st.1) as [cur|] eqn:Hcur.
  - destruct (py_eq cur item.2) eqn:Heq; simpl.
    + intros Hk. split; [done|]. intros <-. congruence.
    + destruct (decide (item.1 = k)) as [<-|Hne].
      * by rewrite dict_get_del_eq.
      * rewrite dict_get_del_ne by done. intros Hk. done.
  - intros Hk. split; [done|]. intros <-. congruence.
Qed.

Lemma consensus_item_wf (first_id : string) (o : AgentOutput)
    (st : Dict PyVal * list Conflict) (item : string * PyVal) :
  dict_wf st.1 → dict_wf (consensus_item first_id o st item).1.
Proof.
  intros Hwf. unfold consensus_item.
  destruct (dict_get item.1 st.1); [|done].
  destruct (py_eq _ _); [done|]. simpl. by apply dict_wf_del.
Qed.

Lemma consensus_items_get (first_id : string) (o : AgentOutput)
    (items : Dict PyVal) (st : Dict PyVal * list Conflict) (k : string) (v : PyVal) :
  dict_wf st.1 →
  dict_get k (foldl (consensus_item first_id o) st items).1 = Some v →
  dict_wf (foldl (consensus_item first_id o) st items).1
  ∧ dict_get k st.1 = Some v
  ∧ ∀ w, (k, w) ∈ items → py_eq v w = true.
Proof.
  revert st. induction items as [|item items IH]; intros st Hwf; simpl.
  - intros Hk. split_and!; [done|done|]. intros w Hw. by apply elem_of_nil in Hw.
  - intros Hk.
    destruct (IH _ (consensus_item_wf first_id o st item Hwf) Hk) as (Hwf' & Hk' & Hall).
    destruct (consensus_item_get _ _ _ _ _ _ Hwf Hk') as [Hst Heq].
    split_and!; [done|done|].
    intros w Hw. apply elem_of_cons in Hw as [<-|Hw]; [by apply Heq | by apply Hall].
Qed.

Lemma consensus_items_wf (first_id : string) (o : AgentOutput)
    (items : Dict PyVal) (st : Dict PyVal * list Conflict) :
  dict_wf st.1 → dict_wf (foldl (consensus_item first_id o) st items).1.
Proof.
  revert st. induction items as [|item items IH]; intros st Hwf; simpl; [done|].
  apply IH. by apply consensus_item_wf.
Qed.

Lemma consensus_outputs_get (first_id : string) (rest : list AgentOutput)
    (st : Dict PyVal * list Conflict) (k : string) (v : PyVal) :
  dict_wf st.1 →
  dict_get k (foldl (consensus_output first_id) st rest).1 = Some v →
  dict_get k st.1 = Some v
  ∧ ∀ o w, o ∈ rest → dict_get k (output_data o) = Some w → py_eq v w = true.
Proof.
  revert st. induction rest as [|o rest IH]; intros st Hwf; simpl.
  - intros Hk. split; [done|]. intros o w Ho. by apply elem_of_nil in Ho.
  - intros Hk. unfold consensus_output at 2 in Hk.
    destruct (IH _ (consensus_items_wf first_id o (output_data o) st Hwf) Hk)
      as [Hk' Hall].
    destruct (consensus_items_get _ _ _ _ _ _ Hwf Hk') as (_ & Hst & Ho).
    split; [done|]. intros o' w Ho' Hw.
    apply elem_of_cons in Ho' as [->|Ho']; [|by eapply Hall].
    apply Ho. by apply dict_get_Some_elem.
Qed.

(** C7.  For a CONSENSUS aggregation over valid outputs: every key of the
    result map carries the first contributor's value, and all contributing
    outputs that include the key carry values equal ([==]) to it and to
    each other, which for values of one type are the same value; the
    confidence is the number of keys of the result divided
    by the number of distinct keys of all the outputs.  For two
    contributors that agree on "budget" and disagree on "plan", the result
    map is [{"budget": agreed value}], there is one conflict entry, for
    "plan", and the confidence is 1/2. *)
Theorem c7_consensus (first : AgentOutput) (rest : list AgentOutput) :
  Forall (λ o, validate o = true) (first :: rest) →
  dict_wf (output_data first) →
  let r := _consensus_strategy (first :: rest) in
  aggregate (first :: rest) CONSENSUS = Ret r
  ∧ (∀ k v, dict_get k (outputs r) = Some v →
     dict_get k (output_data first) = Some v
     ∧ ∀ o1 o2 w1 w2,
         o1 ∈ first :: rest → o2 ∈ first :: rest →
         dict_get k (output_data o1) = Some w1 →
         dict_get k (output_data o2) = Some w2 →
         py_eq v w1 = true ∧ py_eq w1 w2 = true
         ∧ (py_type w1 = py_type w2 → w1 = w2))
  ∧ NoDup (collect_keys (first :: rest))
  ∧ (∀ k, k ∈ collect_keys (first :: rest)
          ↔ ∃ o, o ∈ first :: rest ∧ k ∈ dict_keys (output_data o))
  ∧ 0 < length (collect_keys (first :: rest))
  ∧ result_confidence r
    = ratio (length (outputs r)) (length (collect_keys (first :: rest)))
  ∧ (∀ id1 id2 c1 c2 agreed agreed' plan1 plan2,
       py_eq agreed agreed' = true →
       py_eq plan1 plan2 = false →
       let d := _consensus_strategy
                  [mk_output id1 [("budget", agreed); ("plan", plan1)] c1;
                   mk_output id2 [("budget", agreed'); ("plan", plan2)] c2] in
       outputs d = [("budget", agreed)]
       ∧ conflicts d = [{| key := "plan"; values := [plan1; plan2];
                           agents := Some [id1; id2]; votes := None |}]
       ∧ result_confidence d = (1 # 2)%Q).
Proof.
  intros Hvalid Hwf r.
  destruct (collect_keys_spec (first :: rest)) as [Hnd Hkeys].
  assert (∀ k v, dict_get k (outputs r) = Some v →
            dict_get k (output_data first) = Some v
            ∧ ∀ o w, o ∈ first :: rest → dict_get k (output_data o) = Some w →
                     py_eq v w = true) as Hagree.
  { intros k v Hk. unfold r, _consensus_strategy in Hk. simpl in Hk.
    apply consensus_outputs_get in Hk as [Hfirst Hrest]; [|done].
    split; [done|]. intros o w Ho Hw.
    apply elem_of_cons in Ho as [->|Ho]; [|by eapply Hrest].
    simpl in Hfirst. rewrite Hfirst in Hw. injection Hw as <-. apply py_eq_refl. }
  assert (0 < length (collect_keys (first :: rest))) as Hpos.
  { apply Forall_cons in Hvalid as [Hfirst _]. unfold validate in Hfirst.
    destruct (output_data first) as [|[k v] d] eqn:Hdata; [done|].
    assert (k ∈ collect_keys (first :: rest)) as Hk.
    { apply Hkeys. exists first. split; [elem_head|].
      rewrite Hdata. elem_head. }
    destruct (collect_keys (first :: rest)); [by apply elem_of_nil in Hk|simpl; lia]. }
  split_and!; try done.
  - by apply aggregate_valid.
  - intros k v Hk. destruct (Hagree k v Hk) as [Hfirst Hall].
    split; [done|]. intros o1 o2 w1 w2 Ho1 Ho2 Hw1 Hw2.
    pose proof (Hall o1 w1 Ho1 Hw1) as H1.
    pose proof (Hall o2 w2 Ho2 Hw2) as H2.
    assert (py_eq w1 w2 = true) as H12
      by (apply (py_eq_trans _ v); [by rewrite py_eq_sym | done]).
    split_and!; [done | done | by apply py_eq_same_type].
  - unfold r, _consensus_strategy. simpl.
    fold (collect_keys (first :: rest)).
    change (foldl (λ s o, set_update s (dict_keys (output_data o)))
              (set_update [] (dict_keys (output_data first))) rest)
      with (collect_keys (first :: rest)).
    destruct (collect_keys (first :: rest)); [simpl in Hpos; lia | done].
  - intros id1 id2 c1 c2 agreed agreed' plan1 plan2 Hag Hplan d.
    unfold d, _consensus_strategy, consensus_output, consensus_item. simpl.
    rewrite Hag. simpl. rewrite Hplan. simpl. done.
Qed.

Lemma c7_consensus_witness :
  outputs (_consensus_strategy [output_d1; output_d2]) = [("budget", VInt 5)]
  ∧ (∀ k v,
       dict_get k (outputs (_consensus_strategy [output_d1; output_d2])) = Some v →
       dict_get k (output_data output_d1) = Some v
       ∧ ∀ o1 o2 w1 w2,
           o1 ∈ [output_d1; output_d2] → o2 ∈ [output_d1; output_d2] →
           dict_get k (output_data o1) = Some w1 →
           dict_get k (output_data o2) = Some w2 →
           py_eq v w1 = true ∧ py_eq w1 w2 = true
           ∧ (py_type w1 = py_type w2 → w1 = w2))
  ∧ result_confidence (_consensus_strategy [output_d1; output_d2])
    = ratio (length (outputs (_consensus_strategy [output_d1; output_d2])))
            (length (collect_keys [output_d1; output_d2])).
Proof.
  destruct (c7_consensus output_d1 [output_d2])
    as (_ & Hagree & _ & _ & _ & Hconf & Hd).
  - forall_elements ltac:(reflexivity).
  - apply (bool_decide_unpack _). reflexivity.
  - split_and!; [|exact Hagree|exact Hconf].
    apply (Hd "a1" "a2" (9 # 10)%Q (8 # 10)%Q (VInt 5) (VInt 5)
              (VStr "p1") (VStr "p2")); reflexivity.
Defined.

(** ** MERGE *)

Lemma first_holder_spec (outs : list AgentOutput) (k : string) (w : PyVal) (a : string) :
  first_holder outs k w = Ret a →
  ∃ l1 o l2,
    outs = l1 ++ o :: l2 ∧ agent_id o = a ∧ holds k w o = true
    ∧ Forall (λ x, holds k w x = false) l1.
Proof.
  unfold first_holder. induction outs as [|x outs IH]; simpl; [done|].
  destruct (holds k w x) eqn:Hx.
  - intros [= <-]. exists [], x, outs. split_and!; try done.
  - intros H. destruct (IH H) as (l1 & o & l2 & -> & Ha & Ho & Hl1).
    exists (x :: l1), o, l2. split_and!; try done. by apply Forall_cons.
Qed.

Lemma first_holder_returns (outs : list AgentOutput) (k : string) (w : PyVal)
    (o : AgentOutput) :
  o ∈ outs → dict_get k (output_data o) = Some w →
  ∃ a, first_holder outs k w = Ret a.
Proof.
  intros Ho Hw. unfold first_holder.
  assert (In o (List.filter (holds k w) outs)) as Hin.
  { apply filter_In. split; [by apply list_elem_of_In|].
    unfold holds. rewrite Hw. apply py_eq_refl. }
  destruct (List.filter (holds k w) outs); [done | eauto].
Qed.

Lemma last_value_app (l1 l2 : list AgentOutput) (k : string) :
  last_value (l1 ++ l2) k
  = match last_value l2 k with
    | Some v => Some v
    | None => last_value l1 k
    end.
Proof.
  induction l1 as [|o l1 IH]; simpl.
  - by destruct (last_value l2 k).
  - rewrite IH. by destruct (last_value l2 k).
Qed.

(** One write of the merge loop: the key takes the new value, and the
    conflict list only grows. *)
Lemma merge_item_run (outs : list AgentOutput) (o : AgentOutput)
    (st : Dict PyVal * list Conflict) (item : string * PyVal) :
  provenance outs st.1 →
  ∃ more,
    merge_item outs o st item = Ret (dict_set item.1 item.2 st.1, st.2 ++ more)
    ∧ ∀ cur, dict_get item.1 st.1 = Some cur → py_eq cur item.2 = false →
        ∃ a, first_holder outs item.1 cur = Ret a
             ∧ more = [{| key := item.1; values := [cur; item.2];
                          agents := Some [a; agent_id o]; votes := None |}].
Proof.
  intros Hprov. unfold merge_item.
  destruct (dict_get item.1 st.1) as [cur|] eqn:Hcur.
  - destruct (py_eq cur item.2) eqn:Heq.
    + exists []. rewrite app_nil_r. split; [done|]. intros ? [= <-]. congruence.
    + destruct (Hprov _ _ Hcur) as (o' & Ho' & Hw).
      destruct (first_holder_returns outs _ _ _ Ho' Hw) as [a Ha]. rewrite Ha.
      eexists. split; [done|]. intros ? [= <-] _. eauto.
  - exists []. rewrite app_nil_r. split; [done|]. intros ? [=].
Qed.

Lemma provenance_set (outs : list AgentOutput) (o : AgentOutput)
    (merged : Dict PyVal) (k : string) (v : PyVal) :
  o ∈ outs → dict_get k (output_data o) = Some v →
  provenance outs merged → provenance outs (dict_set k v merged).
Proof.
  intros Ho Hv Hprov k' cur. rewrite dict_get_set.
  destruct (decide (k = k')) as [<-|Hne]; [|apply Hprov].
  intros [= <-]. eauto.
Qed.

(** The writes of one output. *)
Lemma merge_items_run (outs : list AgentOutput) (o : AgentOutput)
    (items : Dict PyVal) (st : Dict PyVal * list Conflict) :
  o ∈ outs →
  (∀ item, item ∈ items → dict_get item.1 (output_data o) = Some item.2) →
  dict_wf items →
  provenance outs st.1 →
  ∃ st',
    exc_foldl (merge_item outs o) st items = Ret st'
    ∧ provenance outs st'.1
    ∧ (∀ k, dict_get k st'.1
            = match dict_get k items with
              | Some v => Some v
              | None => dict_get k st.1
              end)
    ∧ ∃ more, st'.2 = st.2 ++ more.
Proof.
  intros Ho. revert st.
  induction items as [|item items IH]; intros st Hitems Hwf Hprov; simpl.
  - exists st. split_and!; try done. exists []. by rewrite app_nil_r.
  - destruct (merge_item_run outs o st item Hprov) as (more & -> & _).
    apply NoDup_cons in Hwf as [Hfresh Hwf].
    destruct (IH (dict_set item.1 item.2 st.1, st.2 ++ more))
      as (st' & Hrun & Hprov' & Hget & more' & Hmore); [| done | |].
    + intros i Hi. apply Hitems. elem_tail.
    + simpl. eapply provenance_set; [done | | done].
      apply Hitems. elem_head.
    + exists st'. split_and!; [done|done| |].
      * intros k. rewrite Hget. simpl. destruct item as [k0 v0]; simpl in *.
        rewrite dict_get_set.
        destruct (decide (k = k0)) as [->|Hne].
        -- rewrite decide_True by done.
           by rewrite (proj2 (dict_get_None k0 items) Hfresh).
        -- rewrite decide_False by done. done.
      * exists (more ++ more'). rewrite Hmore. simpl. by rewrite app_assoc.
Qed.

Lemma merge_output_run (outs : list AgentOutput) (o : AgentOutput)
    (st : Dict PyVal * list Conflict) :
  o ∈ outs → dict_wf (output_data o) → provenance outs st.1 →
  ∃ st',
    merge_output outs st o = Ret st'
    ∧ provenance outs st'.1
    ∧ (∀ k, dict_get k st'.1
            = match dict_get k (output_data o) with
              | Some v => Some v
              | None => dict_get k st.1
              end)
    ∧ ∃ more, st'.2 = st.2 ++ more.
Proof.
  intros Ho Hwf Hprov. unfold merge_output.
  apply merge_items_run; try done.
  intros [k v] Hin. by apply dict_elem_get.
Qed.

(** The writes of a list of outputs. *)
Lemma merge_outputs_run (outs l : list AgentOutput) (st : Dict PyVal * list Conflict) :
  (∀ o, o ∈ l → o ∈ outs ∧ dict_wf (output_data o)) →
  provenance outs st.1 →
  ∃ st',
    exc_foldl (merge_output outs) st l = Ret st'
    ∧ provenance outs st'.1
    ∧ (∀ k, dict_get k st'.1
            = match last_value l k with
              | Some v => Some v
              | None => dict_get k st.1
              end)
    ∧ ∃ more, st'.2 = st.2 ++ more.
Proof.
  revert st. induction l as [|o l IH]; intros st Hl Hprov; simpl.
  - exists st. split_and!; try done. exists []. by rewrite app_nil_r.
  - destruct (Hl o) as [Ho Hwf]; [elem_head|].
    destruct (merge_output_run outs o st Ho Hwf Hprov)
      as (st1 & -> & Hprov1 & Hget1 & more1 & Hmore1).
    destruct (IH st1) as (st' & Hrun & Hprov' & Hget & more & Hmore); [|done|].
    { intros o' Ho'. apply Hl. elem_tail. }
    exists st'. split_and!; [done|done| |].
    + intros k. rewrite Hget, Hget1. by destruct (last_value l k).
    + exists (more1 ++ more). rewrite Hmore, Hmore1. by rewrite app_assoc.
Qed.

(** C3, amended.  In a MERGE aggregation, when a contributor writes under
    a key a value different ([!=]) from the value merged so far for that
    key, which is the value of the most recent earlier contributor that has
    the key, a conflict entry records the key, that merged value and the
    new value, and two agent ids: the first listed contributor whose output
    has the merged value under the key, and the writer.  The aggregation
    returns, and in the merged map every key carries the value of the
    last listed contributor that has it. *)
Theorem c3_merge_conflict_entry
    (pre : list AgentOutput) (o : AgentOutput) (post : list AgentOutput)
    (k : string) (v w : PyVal) :
  Forall (λ x, dict_wf (output_data x)) (pre ++ o :: post) →
  dict_get k (output_data o) = Some v →
  last_value pre k = Some w →
  py_eq w v = false →
  ∃ r a,
    _merge_strategy (pre ++ o :: post) = Ret r
    ∧ first_holder (pre ++ o :: post) k w = Ret a
    ∧ (∃ l1 h l2, pre ++ o :: post = l1 ++ h :: l2 ∧ agent_id h = a
                  ∧ holds k w h = true ∧ Forall (λ x, holds k w x = false) l1)
    ∧ {| key := k; values := [w; v];
         agents := Some [a; agent_id o]; votes := None |} ∈ conflicts r
    ∧ ∀ k', dict_get k' (outputs r) = last_value (pre ++ o :: post) k'.
Proof.
  intros Hwf Hv Hw Hne.
  set (outs := pre ++ o :: post) in *.
  assert (∀ x, x ∈ outs → dict_wf (output_data x)) as Hwf'
    by by apply Forall_forall.
  assert (o ∈ outs) as Ho.
  { unfold outs. apply elem_of_app. right. elem_head. }
  (* the outputs before [o] *)
  destruct (merge_outputs_run outs pre ([], []))
    as (st1 & Hrun1 & Hprov1 & Hget1 & _); [|done|].
  { intros x Hx. assert (x ∈ outs) by (unfold outs; apply elem_of_app; by left).
    split; [done | by apply Hwf']. }
  (* the items of [o] before the key *)
  apply dict_get_Some_elem in Hv as Hin.
  apply list_elem_of_split in Hin as (i1 & i2 & Hitems).
  pose proof (Hwf' o Ho) as Hwfo. rewrite Hitems in Hwfo.
  unfold dict_wf, dict_keys in Hwfo. rewrite fmap_app, fmap_cons in Hwfo.
  apply NoDup_app in Hwfo as (Hwf1 & Hdisj & Hwf2).
  assert (∀ item, item ∈ output_data o →
            dict_get item.1 (output_data o) = Some item.2) as Hitem.
  { intros [k0 v0] H0. by apply dict_elem_get; [apply Hwf'|]. }
  destruct (merge_items_run outs o i1 st1 Ho)
    as (st2 & Hrun2 & Hprov2 & Hget2 & _); [|done|done|].
  { intros item Hi. apply Hitem. rewrite Hitems. apply elem_of_app; by left. }
  assert (dict_get k st2.1 = Some w) as Hcur.
  { rewrite Hget2. rewrite (proj2 (dict_get_None k i1)).
    - rewrite Hget1, Hw. done.
    - intros Hk. apply (Hdisj _ Hk). elem_head. }
  (* the write of [v] under the key *)
  destruct (merge_item_run outs o st2 (k, v) Hprov2) as (more & Hrun3 & Hmore).
  destruct (Hmore w Hcur Hne) as (a & Ha & ->). simpl in Hrun3.
  (* the items of [o] after the key *)
  destruct (merge_items_run outs o i2
              (dict_set k v st2.1,
               st2.2 ++ [{| key := k; values := [w; v];
                            agents := Some [a; agent_id o]; votes := None |}]) Ho)
    as (st4 & Hrun4 & Hprov4 & _ & more4 & Hmore4).
  { intros item Hi. apply Hitem. rewrite Hitems.
    apply elem_of_app; right. elem_tail. }
  { by apply NoDup_cons in Hwf2 as [_ ?]. }
  { simpl. eapply provenance_set; [exact Ho | | done].
    apply (Hitem (k, v)). rewrite Hitems.
    apply elem_of_app; right. elem_head. }
  (* the outputs after [o] *)
  destruct (merge_outputs_run outs post st4)
    as (st5 & Hrun5 & _ & _ & more5 & Hmore5); [|done|].
  { intros x Hx.
    assert (x ∈ outs)
      by (unfold outs; apply elem_of_app; right; elem_tail).
    split; [done | by apply Hwf']. }
  (* the whole run *)
  destruct (merge_outputs_run outs outs ([], []))
    as (st & Hrun & _ & Hget & _); [|done|].
  { intros x Hx. split; [done | by apply Hwf']. }
  assert (st = st5) as ->.
  { assert (Ret st = Ret st5) as [=]; [|done].
    rewrite <- Hrun. unfold outs at 2.
    rewrite exc_foldl_app, Hrun1. simpl.
    unfold merge_output at 1. rewrite Hitems.
    rewrite exc_foldl_app, Hrun2. simpl. rewrite Hrun3, Hrun4. done. }
  destruct st5 as [merged conflicts5]. simpl in *.
  pose proof (first_holder_spec _ _ _ _ Ha) as Hfirst.
  assert (∃ q, div_len (sum_confidence outs) (length outs) = Ret q) as [q Hq].
  { unfold div_len. destruct (length outs) eqn:Hlen; [|eauto].
    apply nil_length_inv in Hlen. rewrite Hlen in Ho. by apply elem_of_nil in Ho. }
  eexists _, a. split_and!.
  - unfold _merge_strategy. rewrite Hrun, Hq. done.
  - done.
  - done.
  - simpl. rewrite Hmore5, Hmore4.
    rewrite !elem_of_app, list_elem_of_singleton. tauto.
  - intros k'. simpl. rewrite Hget. by destruct (last_value outs k').
Qed.

Lemma c3_merge_conflict_entry_witness :
  ∃ r a,
    _merge_strategy outputs_three_writers = Ret r
    ∧ first_holder outputs_three_writers "k" (VInt 2) = Ret a
    ∧ (∃ l1 h l2, outputs_three_writers = l1 ++ h :: l2 ∧ agent_id h = a
                  ∧ holds "k" (VInt 2) h = true
                  ∧ Forall (λ x, holds "k" (VInt 2) x = false) l1)
    ∧ {| key := "k"; values := [VInt 2; VInt 3];
         agents := Some [a; "C"]; votes := None |} ∈ conflicts r
    ∧ ∀ k', dict_get k' (outputs r) = last_value outputs_three_writers k'.
Proof.
  apply (c3_merge_conflict_entry
           [mk_output "A" [("k", VInt 1)] (9 # 10)%Q;
            mk_output "B" [("k", VInt 2)] (8 # 10)%Q]
           (mk_output "C" [("k", VInt 3)] (5 # 10)%Q) [] "k" (VInt 3) (VInt 2)).
  - forall_elements ltac:(apply NoDup_singleton).
  - reflexivity.
  - reflexivity.
  - reflexivity.
Defined.

(** C3, as stated, fails with three writers of one key: the first value
    ever written is 1, the third contributor writes 3, and no conflict
    entry holds the values 1 and 3; the entry of that collision holds the
    previously merged value 2. *)
Lemma c3_conflict_records_merged_value_not_first :
  last_value [mk_output "A" [("k", VInt 1)] (9 # 10)%Q] "k" = Some (VInt 1)
  ∧ ∃ r,
      _merge_strategy outputs_three_writers = Ret r
      ∧ conflicts r
        = [{| key := "k"; values := [VInt 1; VInt 2];
              agents := Some ["A"; "B"]; votes := None |};
           {| key := "k"; values := [VInt 2; VInt 3];
              agents := Some ["B"; "C"]; votes := None |}]
      ∧ ∀ c, c ∈ conflicts r → values c ≠ [VInt 1; VInt 3].
Proof.
  split; [reflexivity|].
  eexists. split; [vm_compute; reflexivity|]. split; [reflexivity|].
  simpl. intros c Hc.
  apply elem_of_cons in Hc as [->|Hc]; [discriminate|].
  apply list_elem_of_singleton in Hc as ->. discriminate.
Qed.

(** ** VOTE: the tallies *)

Lemma sum_values_set {V} (g : V → nat) (k : string) (x : V) (d : Dict V) :
  sum_nat (map g (dict_values (dict_set k x d)))
  + match dict_get k d with Some old => g old | None => 0 end
  = sum_nat (map g (dict_values d)) + g x.
Proof.
  unfold dict_values. induction d as [|[k' v'] d IH]; csimpl; [lia|].
  destruct (decide (k = k')); csimpl; lia.
Qed.

Lemma total_votes_cast (votes : Dict (Dict nat)) (item : string * PyVal) :
  total_votes (cast_vote votes item) = total_votes votes + 1.
Proof.
  unfold total_votes, cast_vote.
  pose proof (sum_values_set (λ v, sum_nat (dict_values v)) item.1
    (dict_set (py_str item.2)
       (default 0 (dict_get (py_str item.2) (default [] (dict_get item.1 votes))) + 1)
       (default [] (dict_get item.1 votes))) votes) as Houter.
  pose proof (sum_values_set (λ c : nat, c) (py_str item.2)
    (default 0 (dict_get (py_str item.2) (default [] (dict_get item.1 votes))) + 1)
    (default [] (dict_get item.1 votes))) as Hinner.
  rewrite !map_id in Hinner. simpl in Houter.
  destruct (dict_get item.1 votes) as [tally|]; simpl in *.
  - destruct (dict_get (py_str item.2) tally); simpl in *; lia.
  - lia.
Qed.

Lemma total_votes_collect (outs : list AgentOutput) : 
  total_votes (collect_votes outs) = all_votes outs.
Proof.
  unfold collect_votes, all_votes.
  assert (∀ items votes,
            total_votes (foldl cast_vote votes items)
            = total_votes votes + length items) as Hitems.
  { induction items as [|item items IH]; intros votes; simpl; [lia|].
    rewrite IH, total_votes_cast. lia. }
  assert (∀ l votes,
            total_votes (foldl (λ votes o, foldl cast_vote votes (output_data o)) votes l)
            = total_votes votes + sum_nat (map (λ o, length (output_data o)) l))
    as Houts.
  { induction l as [|o l IH]; intros votes; simpl; [lia|].
    rewrite IH, Hitems. lia. }
  rewrite Houts. done.
Qed.

Lemma tally_of_cast (votes : Dict (Dict nat)) (item : string * PyVal) (k s : string) :
  tally_of (cast_vote votes item) k s
  = tally_of votes k s
    + (if decide (item.1 = k ∧ py_str item.2 = s) then 1 else 0).
Proof.
  unfold tally_of, cast_vote. rewrite dict_get_set.
  destruct (decide (item.1 = k)) as [<-|Hk].
  - rewrite dict_get_set.
    destruct (decide (py_str item.2 = s)) as [<-|Hs].
    + rewrite decide_True by done.
      destruct (dict_get item.1 votes) as [tally|]; simpl; [|done].
      destruct (dict_get (py_str item.2) tally); simpl; lia.
    + rewrite decide_False by tauto.
      destruct (dict_get item.1 votes) as [tally|]; simpl; lia.
  - rewrite decide_False by tauto. lia.
Qed.

Lemma tally_of_items (items : Dict PyVal) (votes : Dict (Dict nat)) (k s : string) :
  dict_wf items →
  tally_of (foldl cast_vote votes items) k s
  = tally_of votes k s
    + match dict_get k items with
      | Some v => if bool_decide (py_str v = s) then 1 else 0
      | None => 0
      end.
Proof.
  revert votes. induction items as [|[k0 v0] items IH]; intros votes Hwf; simpl; [lia|].
  apply NoDup_cons in Hwf as [Hfresh Hwf].
  rewrite IH, tally_of_cast by done. simpl.
  destruct (decide (k = k0)) as [->|Hne].
  - rewrite (proj2 (dict_get_None k0 items) Hfresh).
    destruct (bool_decide_reflect (py_str v0 = s)) as [Hs|Hs].
    + rewrite decide_True by done. lia.
    + rewrite decide_False by tauto. lia.
  - rewrite decide_False by (intros [? _]; congruence). lia.
Qed.

Lemma tally_of_outputs (outs : list AgentOutput) (votes : Dict (Dict nat)) (k s : string) :
  Forall (λ o, dict_wf (output_data o)) outs →
  tally_of (foldl (λ votes o, foldl cast_vote votes (output_data o)) votes outs) k s
  = tally_of votes k s + votes_for outs k s.
Proof.
  revert votes. induction outs as [|o outs IH]; intros votes Hwf; simpl.
  - unfold votes_for. simpl. lia.
  - apply Forall_cons in Hwf as [Hwfo Hwf].
    rewrite IH, tally_of_items by done. unfold votes_for. simpl.
    destruct (dict_get k (output_data o)) as [v|]; [|lia].
    destruct (bool_decide (py_str v = s)); simpl; lia.
Qed.

(** The tallies of the code count, for every key, the outputs by the
    string form of their value. *)
Lemma tally_of_collect (outs : list AgentOutput) (k s : string) :
  Forall (λ o, dict_wf (output_data o)) outs →
  tally_of (collect_votes outs) k s = votes_for outs k s.
Proof. intros Hwf. unfold collect_votes. by rewrite tally_of_outputs. Qed.

Lemma dict_keys_cast (votes : Dict (Dict nat)) (items : Dict PyVal) :
  dict_keys (foldl cast_vote votes items)
  = set_update (dict_keys votes) (dict_keys items).
Proof.
  unfold set_update. revert votes.
  induction items as [|item items IH]; intros votes; simpl; [done|].
  rewrite IH. unfold cast_vote. by rewrite dict_keys_set.
Qed.

(** The tallies have the keys of [all_keys], in the same order. *)
Lemma dict_keys_collect (outs : list AgentOutput) :
  dict_keys (collect_votes outs) = collect_keys outs.
Proof.
  unfold collect_votes, collect_keys.
  change (@nil string) with (dict_keys (@nil (string * Dict nat))).
  generalize (@nil (string * Dict nat)) as votes.
  induction outs as [|o outs IH]; intros votes; simpl; [done|].
  by rewrite IH, dict_keys_cast.
Qed.

Lemma tallies_ok_cast (votes : Dict (Dict nat)) (item : string * PyVal) :
  tallies_ok votes → tallies_ok (cast_vote votes item).
Proof.
  intros [Hwf Hall]. unfold cast_vote. split; [by apply dict_wf_set|].
  intros k tally Hin. apply dict_set_elem in Hin as [[-> ->]|Hin]; [|by apply (Hall k)].
  assert (dict_wf (default [] (dict_get item.1 votes))
          ∧ ∀ s c, (s, c) ∈ default [] (dict_get item.1 votes) → 0 < c) as [Hwft Hpos].
  { destruct (dict_get item.1 votes) as [tally|] eqn:Hget; simpl.
    - apply dict_get_Some_elem in Hget. destruct (Hall _ _ Hget) as (? & _ & ?). done.
    - split; [apply dict_wf_nil|]. intros s c H. by apply elem_of_nil in H. }
  split_and!; [by apply dict_wf_set | apply dict_set_not_nil |].
  intros s c Hin. apply dict_set_elem in Hin as [[-> ->]|Hin]; [lia | by apply (Hpos s)].
Qed.

Lemma tallies_ok_collect (outs : list AgentOutput) : tallies_ok (collect_votes outs).
Proof.
  unfold collect_votes.
  assert (tallies_ok []) as Hnil.
  { split; [apply dict_wf_nil|]. intros k t H. by apply elem_of_nil in H. }
  revert Hnil. generalize (@nil (string * Dict nat)) as votes.
  induction outs as [|o outs IH]; intros votes Hok; simpl; [done|].
  apply IH. clear IH. revert votes Hok.
  induction (output_data o) as [|item items IH]; intros votes Hok; simpl; [done|].
  apply IH. by apply tallies_ok_cast.
Qed.

(** ** VOTE: the winner *)

Lemma insert_desc_not_nil (x : string * nat) (l : list (string * nat)) :
  insert_desc x l ≠ [].
Proof. destruct l as [|y l]; simpl; [done|]. by destruct (bool_decide (x.2 < y.2)). Qed.

Lemma sorted_desc_head (tally : Dict nat) :
  tally ≠ [] → ∃ rest, sorted_desc tally = top_of tally :: rest.
Proof.
  destruct tally as [|x l]; [done|]. intros _. unfold top_of. simpl.
  destruct (insert_desc x (sorted_desc l)) eqn:E; [|eauto].
  by apply insert_desc_not_nil in E.
Qed.

Lemma top_of_cons (x : string * nat) (l : Dict nat) :
  l ≠ [] →
  top_of (x :: l) = if bool_decide (x.2 < (top_of l).2) then top_of l else x.
Proof.
  intros Hl. destruct (sorted_desc_head l Hl) as [rest Hs].
  unfold top_of at 1. simpl. rewrite Hs. simpl.
  by destruct (bool_decide (x.2 < (top_of l).2)).
Qed.

(** The sorted tally starts with an item of the highest count. *)
Lemma sorted_desc_top (tally : Dict nat) :
  tally ≠ [] →
  top_of tally ∈ tally ∧ ∀ x, x ∈ tally → x.2 ≤ (top_of tally).2.
Proof.
  induction tally as [|x l IH]; [done|]. intros _.
  destruct l as [|y l].
  - split; [elem_head|].
    intros z Hz. by apply list_elem_of_singleton in Hz as ->.
  - destruct IH as [Hin Hmax]; [done|].
    rewrite top_of_cons by done.
    destruct (bool_decide_reflect (x.2 < (top_of (y :: l)).2)) as [Hlt|Hge].
    + split; [elem_tail|].
      intros z Hz. apply elem_of_cons in Hz as [->|Hz]; [lia | by apply Hmax].
    + split; [elem_head|].
      intros z Hz. apply elem_of_cons in Hz as [->|Hz]; [lia|].
      specialize (Hmax z Hz). lia.
Qed.

Lemma foldl_max_spec (l : list nat) (x : nat) :
  (foldl Nat.max x l = x ∨ foldl Nat.max x l ∈ l)
  ∧ x ≤ foldl Nat.max x l
  ∧ ∀ y, y ∈ l → y ≤ foldl Nat.max x l.
Proof.
  revert x. induction l as [|z l IH]; intros x; simpl.
  - split_and!; [by left | done |]. intros y Hy. by apply elem_of_nil in Hy.
  - destruct (IH (x `max` z)) as (Hm & Hle & Hall). split_and!.
    + destruct Hm as [Hm|Hm]; [|right; elem_tail].
      rewrite Hm. destruct (Nat.max_spec x z) as [[_ ->]|[_ ->]];
        [right; elem_head | by left].
    + lia.
    + intros y Hy. apply elem_of_cons in Hy as [->|Hy]; [lia | by apply Hall].
Qed.

(** [max(v.values())] is the count of the first item of the sorted tally. *)
Lemma py_max_top (tally : Dict nat) :
  tally ≠ [] → py_max (dict_values tally) = Ret (top_of tally).2.
Proof.
  intros Hne. destruct (sorted_desc_top tally Hne) as [Hin Hmax].
  destruct tally as [|[s c] l]; [done|]. unfold dict_values. csimpl. f_equal.
  destruct (foldl_max_spec l.*2 c) as (Hm & Hle & Hall).
  apply Nat.le_antisymm.
  - assert (∃ s', (s', foldl Nat.max c l.*2) ∈ (s, c) :: l) as [s' Hs'].
    { destruct Hm as [->|Hm]; [exists s; elem_head|].
      apply list_elem_of_fmap in Hm as ([s' c'] & Hc & Hx). simpl in Hc.
      exists s'. rewrite Hc. elem_tail. }
    apply (Hmax _ Hs').
  - apply elem_of_cons in Hin as [->|Hin]; [done|].
    apply Hall. apply list_elem_of_fmap. by exists (top_of ((s, c) :: l)).
Qed.

Lemma winning_votes_foldl (l : list (Dict nat)) (acc : nat) :
  (∀ t, t ∈ l → t ≠ []) →
  exc_foldl (λ acc v, match py_max (dict_values v) with
                      | Ret m => Ret (acc + m)
                      | Raise e => Raise e
                      end) acc l
  = Ret (acc + sum_nat (map (λ t, (top_of t).2) l)).
Proof.
  revert acc. induction l as [|t l IH]; intros acc Hl; simpl.
  - f_equal. lia.
  - rewrite py_max_top by (apply Hl; elem_head).
    rewrite IH by (intros t' Ht'; apply Hl; elem_tail).
    f_equal. lia.
Qed.

Lemma dict_keys_winner_entries (l : Dict (Dict nat)) :
  dict_keys (map winner_entry l) = dict_keys l.
Proof.
  unfold dict_keys. induction l as [|kt l IH]; csimpl; [done|]. by rewrite IH.
Qed.

(** The winner loop writes, for every key in turn, the string that comes
    first in the sorted tally of the key. *)
Lemma pick_winners_run (votes : Dict (Dict nat)) :
  tallies_ok votes →
  ∀ todo finished conflicts0,
    votes = finished ++ todo →
    ∃ conflicts1,
      exc_foldl (pick_winner votes) (map winner_entry finished, conflicts0)
                (dict_keys todo)
      = Ret (map winner_entry votes, conflicts1).
Proof.
  intros [Hwf Hall]. induction todo as [|[k tally] todo IH];
    intros finished conflicts0 Hsplit.
  - rewrite app_nil_r in Hsplit. subst. simpl. eauto.
  - unfold dict_keys. csimpl. unfold pick_winner at 1.
    assert ((k, tally) ∈ votes) as Hin.
    { rewrite Hsplit. apply elem_of_app; right. elem_head. }
    rewrite (dict_elem_get _ _ _ Hwf Hin).
    destruct (Hall _ _ Hin) as (_ & Hne & _).
    destruct (sorted_desc_head tally Hne) as [rest Hs].
    rewrite Hs. simpl.
    rewrite dict_set_fresh.
    2:{ rewrite dict_keys_winner_entries.
        unfold dict_wf, dict_keys in Hwf. rewrite Hsplit, fmap_app in Hwf.
        apply NoDup_app in Hwf as (_ & Hdisj & _). intros Hk.
        apply (Hdisj _ Hk). csimpl. elem_head. }
    change [(k, VStr (top_of tally).1)] with (map winner_entry [(k, tally)]).
    rewrite <- map_app.
    apply IH. rewrite Hsplit, <- app_assoc. done.
Qed.

(** The outcome of the VOTE strategy in terms of the tallies. *)
Lemma _vote_strategy_run (outs : list AgentOutput) :
  ∃ r,
    _vote_strategy outs = Ret r
    ∧ outputs r = map winner_entry (collect_votes outs)
    ∧ result_confidence r
      = if bool_decide (0 < total_votes (collect_votes outs))
        then ratio (sum_nat (map (λ kt, (top_of kt.2).2) (collect_votes outs)))
                   (total_votes (collect_votes outs))
        else 0%Q.
Proof.
  pose proof (tallies_ok_collect outs) as Hok.
  unfold _vote_strategy. rewrite <- dict_keys_collect.
  destruct (pick_winners_run _ Hok (collect_votes outs) [] [] eq_refl) as [c1 Hrun].
  simpl in Hrun. rewrite Hrun.
  unfold winning_votes. rewrite winning_votes_foldl.
  - eexists. split; [done|]. simpl. split; [done|].
    unfold dict_values. by rewrite <- list_fmap_compose.
  - intros t Ht. apply list_elem_of_fmap in Ht as ([k t'] & -> & Hin).
    destruct Hok as [_ Hall]. by destruct (Hall _ _ Hin) as (_ & ? & _).
Qed.

(** The string written for a key has the votes counted by the tally, and
    no string has more votes under that key. *)
Lemma winner_votes (outs : list AgentOutput) (k : string) (tally : Dict nat) :
  Forall (λ o, dict_wf (output_data o)) outs →
  (k, tally) ∈ collect_votes outs →
  votes_for outs k (top_of tally).1 = (top_of tally).2
  ∧ 0 < (top_of tally).2
  ∧ ∀ s, votes_for outs k s ≤ (top_of tally).2.
Proof.
  intros Hwf Hin. destruct (tallies_ok_collect outs) as [Hwfv Hall].
  destruct (Hall _ _ Hin) as (Hwft & Hne & Hpos).
  destruct (sorted_desc_top tally Hne) as [Htop Hmax].
  assert (∀ s, votes_for outs k s = default 0 (dict_get s tally)) as Hvotes.
  { intros s. rewrite <- tally_of_collect by done. unfold tally_of.
    by rewrite (dict_elem_get _ _ _ Hwfv Hin). }
  destruct (top_of tally) as [s0 c0] eqn:Etop. simpl.
  split_and!.
  - by rewrite Hvotes, (dict_elem_get _ _ _ Hwft Htop).
  - by apply (Hpos s0).
  - intros s. rewrite Hvotes.
    destruct (dict_get s tally) as [c|] eqn:Hs; simpl; [|lia].
    apply dict_get_Some_elem in Hs. apply (Hmax _ Hs).
Qed.

Lemma votes_for_pos (outs : list AgentOutput) (k s : string) :
  0 < votes_for outs k s →
  ∃ o v, o ∈ outs ∧ dict_get k (output_data o) = Some v ∧ py_str v = s.
Proof.
  unfold votes_for. intros Hpos.
  destruct (List.filter _ outs) as [|o l] eqn:Hf; [simpl in Hpos; lia|].
  assert (In o (List.filter
                  (λ o, match dict_get k (output_data o) with
                        | Some v => bool_decide (py_str v = s)
                        | None => false
                        end) outs)) as Hin by (rewrite Hf; by left).
  apply filter_In in Hin as [Hin Ho].
  destruct (dict_get k (output_data o)) as [v|] eqn:Hv; [|done].
  apply bool_decide_eq_true in Ho.
  exists o, v. split_and!; [by apply list_elem_of_In | done | done].
Qed.

Lemma sum_nat_map_ext {A} (f g : A → nat) (l : list A) :
  (∀ x, x ∈ l → f x = g x) → sum_nat (map f l) = sum_nat (map g l).
Proof.
  induction l as [|x l IH]; intros H; simpl; [done|].
  rewrite (H x) by (elem_head).
  rewrite IH; [done|]. intros y Hy. apply H. elem_tail.
Qed.

(** C6.  For a VOTE aggregation over valid outputs: the aggregation
    returns a result with one entry per key of the outputs; the value
    chosen for a key is a string whose vote count, the number of outputs
    whose value under the key has that string form, is positive and at
    least the count of every competing value; and the confidence is the sum
    over the keys of the chosen values' counts divided by the number of all
    votes.  For the three contributors of scenario A the chosen value is
    "x" and the confidence is 2/3. *)
Theorem c6_vote_majority (outs : list AgentOutput) :
  outs ≠ [] →
  Forall (λ o, validate o = true) outs →
  Forall (λ o, dict_wf (output_data o)) outs →
  ∃ r,
    aggregate outs VOTE = Ret r
    ∧ _vote_strategy outs = Ret r
    ∧ (∀ k, k ∈ dict_keys (outputs r)
            ↔ ∃ o, o ∈ outs ∧ k ∈ dict_keys (output_data o))
    ∧ (∀ k w, dict_get k (outputs r) = Some w →
         0 < votes_for outs k (py_str w)
         ∧ ∀ s, votes_for outs k s ≤ votes_for outs k (py_str w))
    ∧ 0 < all_votes outs
    ∧ result_confidence r = ratio (chosen_votes outs (outputs r)) (all_votes outs)
    ∧ ∀ id1 id2 id3,
        ∃ ra,
          _vote_strategy (outputs_scenario_a id1 id2 id3) = Ret ra
          ∧ outputs ra = [("summary", VStr "x")]
          ∧ votes_for (outputs_scenario_a id1 id2 id3) "summary" "x" = 2
          ∧ votes_for (outputs_scenario_a id1 id2 id3) "summary" "y" = 1
          ∧ result_confidence ra = (2 # 3)%Q.
Proof.
  intros Hne Hvalid Hwf.
  destruct (_vote_strategy_run outs) as (r & Hrun & Hout & Hconf).
  assert (0 < all_votes outs) as Hpos.
  { destruct outs as [|o outs]; [done|].
    apply Forall_cons in Hvalid as [Ho _]. unfold validate in Ho.
    unfold all_votes. simpl. destruct (output_data o); [done | simpl; lia]. }
  exists r. split_and!; try done.
  - by rewrite aggregate_valid.
  - intros k. rewrite Hout, dict_keys_winner_entries, dict_keys_collect.
    apply collect_keys_spec.
  - intros k w Hw. apply dict_get_Some_elem in Hw. rewrite Hout in Hw.
    apply list_elem_of_fmap in Hw as ([k' tally] & [= -> ->] & Hin). simpl.
    destruct (winner_votes outs k' tally Hwf Hin) as (Heq & Hc & Hmax).
    rewrite Heq. done.
  - rewrite Hconf, total_votes_collect.
    rewrite bool_decide_eq_true_2 by done. f_equal.
    unfold chosen_votes. rewrite Hout, map_map.
    apply sum_nat_map_ext. intros [k tally] Hin. simpl.
    by destruct (winner_votes outs k tally Hwf Hin) as (-> & _).
  - intros id1 id2 id3. eexists. split_and!; reflexivity.
Qed.

Lemma c6_vote_majority_witness :
  ∃ r,
    _vote_strategy (outputs_scenario_a "a1" "a2" "a3") = Ret r
    ∧ (∀ k w, dict_get k (outputs r) = Some w →
         0 < votes_for (outputs_scenario_a "a1" "a2" "a3") k (py_str w)
         ∧ ∀ s, votes_for (outputs_scenario_a "a1" "a2" "a3") k s
                ≤ votes_for (outputs_scenario_a "a1" "a2" "a3") k (py_str w))
    ∧ result_confidence r
      = ratio (chosen_votes (outputs_scenario_a "a1" "a2" "a3") (outputs r))
              (all_votes (outputs_scenario_a "a1" "a2" "a3")).
Proof.
  destruct (c6_vote_majority (outputs_scenario_a "a1" "a2" "a3"))
    as (r & _ & Hrun & _ & Hmax & _ & Hconf & _).
  - discriminate.
  - forall_elements ltac:(reflexivity).
  - forall_elements ltac:(apply NoDup_singleton).
  - exists r. split_and!; assumption.
Defined.

(** C10.  Under the VOTE strategy the tallies count the outputs by the
    string form [str(value)] of their value, whatever the values
    themselves are, and the value stored in the result for a key is that
    string form of the value of some contributor, not the value.  With an
    integer 1 and a string "1" under the same key, both are one candidate
    with two votes, it wins over "2", and the integer is returned as the
    string "1". *)
Theorem c10_vote_stringifies (outs : list AgentOutput) :
  Forall (λ o, dict_wf (output_data o)) outs →
  ∃ r,
    _vote_strategy outs = Ret r
    ∧ (∀ k s, tally_of (collect_votes outs) k s = votes_for outs k s)
    ∧ (∀ k w, dict_get k (outputs r) = Some w →
         ∃ o v, o ∈ outs ∧ dict_get k (output_data o) = Some v
                ∧ w = VStr (py_str v))
    ∧ ∃ rs,
        _vote_strategy outputs_same_str = Ret rs
        ∧ VInt 1 ≠ VStr "1"
        ∧ py_str (VInt 1) = py_str (VStr "1")
        ∧ tally_of (collect_votes outputs_same_str) "count" "1" = 2
        ∧ outputs rs = [("count", VStr "1")].
Proof.
  intros Hwf.
  destruct (_vote_strategy_run outs) as (r & Hrun & Hout & _).
  exists r. split_and!; [done| | |].
  - intros k s. by apply tally_of_collect.
  - intros k w Hw. apply dict_get_Some_elem in Hw. rewrite Hout in Hw.
    apply list_elem_of_fmap in Hw as ([k' tally] & [= -> ->] & Hin). simpl.
    destruct (winner_votes outs k' tally Hwf Hin) as (Heq & Hc & _).
    rewrite <- Heq in Hc.
    destruct (votes_for_pos _ _ _ Hc) as (o & v & Ho & Hv & Hs).
    exists o, v. by rewrite Hs.
  - eexists. split_and!; [reflexivity | done | reflexivity | reflexivity | reflexivity].
Qed.

Lemma c10_vote_stringifies_witness :
  ∃ r,
    _vote_strategy outputs_same_str = Ret r
    ∧ (∀ k s, tally_of (collect_votes outputs_same_str) k s
              = votes_for outputs_same_str k s)
    ∧ (∀ k w, dict_get k (outputs r) = Some w →
         ∃ o v, o ∈ outputs_same_str ∧ dict_get k (output_data o) = Some v
                ∧ w = VStr (py_str v))
    ∧ ∃ rs,
        _vote_strategy outputs_same_str = Ret rs
        ∧ VInt 1 ≠ VStr "1"
        ∧ py_str (VInt 1) = py_str (VStr "1")
        ∧ tally_of (collect_votes outputs_same_str) "count" "1" = 2
        ∧ outputs rs = [("count", VStr "1")].
Proof.
  apply (c10_vote_stringifies outputs_same_str).
  forall_elements ltac:(apply NoDup_singleton).
Defined.

(** ** MERGE and SEQUENTIAL *)

Lemma dict_update_wf {V} (d other : Dict V) : dict_wf d → dict_wf (dict_update d other).
Proof.
  unfold dict_update. revert d.
  induction other as [|kv other IH]; intros d Hwf; simpl; [done|].
  apply IH. by apply dict_wf_set.
Qed.

Lemma dict_get_update {V} (d other : Dict V) (k : string) :
  dict_wf other →
  dict_get k (dict_update d other)
  = match dict_get k other with
    | Some v => Some v
    | None => dict_get k d
    end.
Proof.
  unfold dict_update. revert d.
  induction other as [|[k0 v0] other IH]; intros d Hwf; simpl; [done|].
  apply NoDup_cons in Hwf as [Hfresh Hwf]. rewrite IH by done. simpl.
  destruct (decide (k = k0)) as [->|Hne].
  - by rewrite (proj2 (dict_get_None k0 other) Hfresh), dict_get_set_eq.
  - rewrite dict_get_set_ne by done. done.
Qed.

Lemma merge_item_fst (outs : list AgentOutput) (o : AgentOutput)
    (st st' : Dict PyVal * list Conflict) (item : string * PyVal) :
  merge_item outs o st item = Ret st' → st'.1 = dict_set item.1 item.2 st.1.
Proof.
  unfold merge_item. destruct (dict_get item.1 st.1) as [cur|].
  - destruct (py_eq cur item.2); [by intros [= <-]|].
    destruct (first_holder outs item.1 cur); [by intros [= <-] | done].
  - by intros [= <-].
Qed.

Lemma merge_items_fst (outs : list AgentOutput) (o : AgentOutput)
    (items : Dict PyVal) (st st' : Dict PyVal * list Conflict) :
  exc_foldl (merge_item outs o) st items = Ret st' →
  st'.1 = dict_update st.1 items.
Proof.
  unfold dict_update. revert st.
  induction items as [|item items IH]; intros st; simpl; [by intros [= <-]|].
  destruct (merge_item outs o st item) as [st1|] eqn:Hitem; [|done].
  intros Hrun. rewrite (IH _ Hrun). by rewrite (merge_item_fst _ _ _ _ _ Hitem).
Qed.

Lemma merge_outputs_fst (outs l : list AgentOutput) (st st' : Dict PyVal * list Conflict) :
  exc_foldl (merge_output outs) st l = Ret st' →
  st'.1 = foldl (λ r o, dict_update r (output_data o)) st.1 l.
Proof.
  revert st. induction l as [|o l IH]; intros st; simpl; [by intros [= <-]|].
  destruct (merge_output outs st o) as [st1|] eqn:Ho; [|done].
  intros Hrun. rewrite (IH _ Hrun). by rewrite (merge_items_fst _ _ _ _ _ Ho).
Qed.

Lemma merge_item_sound (outs : list AgentOutput) (o : AgentOutput)
    (st st' : Dict PyVal * list Conflict) (item : string * PyVal) :
  o ∈ outs →
  dict_get item.1 (output_data o) = Some item.2 →
  provenance outs st.1 →
  (∀ c, c ∈ st.2 → conflict_sound outs c) →
  merge_item outs o st item = Ret st' →
  ∀ c, c ∈ st'.2 → conflict_sound outs c.
Proof.
  intros Ho Hitem Hprov Hsound. unfold merge_item.
  destruct (dict_get item.1 st.1) as [cur|] eqn:Hcur.
  - destruct (py_eq cur item.2) eqn:Heq; [by intros [= <-]|].
    destruct (first_holder outs item.1 cur) as [a|] eqn:Ha; [|done].
    intros [= <-] c. simpl. rewrite elem_of_app, list_elem_of_singleton.
    intros [Hc | ->]; [by apply Hsound|].
    destruct (Hprov _ _ Hcur) as (o1 & Ho1 & Hw).
    exists o1, o, cur, item.2, a. simpl. split_and!; done.
  - by intros [= <-].
Qed.

Lemma merge_items_sound (outs : list AgentOutput) (o : AgentOutput)
    (items : Dict PyVal) (st st' : Dict PyVal * list Conflict) :
  o ∈ outs →
  (∀ item, item ∈ items → dict_get item.1 (output_data o) = Some item.2) →
  provenance outs st.1 →
  (∀ c, c ∈ st.2 → conflict_sound outs c) →
  exc_foldl (merge_item outs o) st items = Ret st' →
  provenance outs st'.1 ∧ ∀ c, c ∈ st'.2 → conflict_sound outs c.
Proof.
  intros Ho. revert st.
  induction items as [|item items IH]; intros st Hitems Hprov Hsound; simpl.
  - by intros [= <-].
  - destruct (merge_item outs o st item) as [st1|] eqn:Hitem; [|done].
    assert (dict_get item.1 (output_data o) = Some item.2) as Hget
      by (apply Hitems; elem_head).
    apply IH.
    + intros i Hi. apply Hitems. elem_tail.
    + rewrite (merge_item_fst _ _ _ _ _ Hitem). by eapply provenance_set.
    + by eapply merge_item_sound.
Qed.

Lemma merge_outputs_sound (outs l : list AgentOutput) (st st' : Dict PyVal * list Conflict) :
  (∀ o, o ∈ l → o ∈ outs ∧ dict_wf (output_data o)) →
  provenance outs st.1 →
  (∀ c, c ∈ st.2 → conflict_sound outs c) →
  exc_foldl (merge_output outs) st l = Ret st' →
  ∀ c, c ∈ st'.2 → conflict_sound outs c.
Proof.
  revert st. induction l as [|o l IH]; intros st Hl Hprov Hsound; simpl.
  - by intros [= <-].
  - destruct (merge_output outs st o) as [st1|] eqn:Hout; [|done].
    destruct (Hl o) as [Ho Hwf]; [elem_head|].
    destruct (merge_items_sound outs o (output_data o) st st1) as [Hprov1 Hsound1];
      try done.
    { intros [k v] Hin. by apply dict_elem_get. }
    apply IH; try done. intros o' Ho'. apply Hl. elem_tail.
Qed.

(** The outcome of MERGE on a non-empty list of outputs. *)
Lemma _merge_strategy_run (outs : list AgentOutput) :
  outs ≠ [] →
  Forall (λ o, dict_wf (output_data o)) outs →
  ∃ r,
    _merge_strategy outs = Ret r
    ∧ outputs r = foldl (λ r o, dict_update r (output_data o)) [] outs
    ∧ contributing_agents r = map agent_id outs
    ∧ (result_confidence r
       = sum_confidence outs / inject_Z (Z.of_nat (length outs)))%Q
    ∧ strategy_used r = MERGE
    ∧ ∀ c, c ∈ conflicts r → conflict_sound outs c.
Proof.
  intros Hne Hwf.
  assert (∀ o, o ∈ outs → o ∈ outs ∧ dict_wf (output_data o)) as Hall.
  { intros o Ho. split; [done|]. by apply (proj1 (Forall_forall _ _) Hwf). }
  destruct (merge_outputs_run outs outs ([], []) Hall) as (st & Hrun & _); [done|].
  pose proof (merge_outputs_fst _ _ _ _ Hrun) as Hfst.
  pose proof (merge_outputs_sound outs outs ([], []) st Hall) as Hsound.
  unfold _merge_strategy. rewrite Hrun. destruct st as [merged conflicts0].
  unfold div_len. destruct outs as [|o outs]; [done|].
  eexists. split; [done|]. simpl. split_and!; try done.
  apply Hsound; [done| |done]. intros c Hc. by apply elem_of_nil in Hc.
Qed.

(** X17.  MERGE and SEQUENTIAL build the same output map, in which every
    key has the value of the last contributor that has it, and report the
    same confidence and contributors; they differ in the conflict list,
    which SEQUENTIAL leaves empty. *)
Theorem merge_sequential_same_outputs (outs : list AgentOutput) :
  outs ≠ [] →
  Forall (λ o, dict_wf (output_data o)) outs →
  ∃ rm rs,
    _merge_strategy outs = Ret rm
    ∧ _sequential_strategy outs = Ret rs
    ∧ outputs rm = outputs rs
    ∧ (∀ k, dict_get k (outputs rs) = last_value outs k)
    ∧ result_confidence rm = result_confidence rs
    ∧ contributing_agents rm = contributing_agents rs
    ∧ conflicts rs = [].
Proof.
  intros Hne Hwf.
  destruct (_merge_strategy_run outs Hne Hwf) as (rm & Hrm & Hout & Hagents & Hconf & _).
  assert (∀ o, o ∈ outs → o ∈ outs ∧ dict_wf (output_data o)) as Hall.
  { intros o Ho. split; [done|]. by apply (proj1 (Forall_forall _ _) Hwf). }
  destruct (merge_outputs_run outs outs ([], []) Hall) as (st & Hrun & _ & Hget & _);
    [done|].
  pose proof (merge_outputs_fst _ _ _ _ Hrun) as Hfst. simpl in Hfst.
  unfold _sequential_strategy, div_len.
  destruct outs as [|o outs]; [done|].
  eexists _, _. split; [exact Hrm|]. split; [reflexivity|]. simpl.
  split_and!; try done.
  intros k. simpl in Hfst. rewrite <- Hfst, Hget. simpl.
  by destruct (last_value outs k), (dict_get k (output_data o)).
Qed.

Lemma merge_sequential_same_outputs_witness :
  ∃ rm rs,
    _merge_strategy outputs_three_writers = Ret rm
    ∧ _sequential_strategy outputs_three_writers = Ret rs
    ∧ outputs rm = outputs rs
    ∧ (∀ k, dict_get k (outputs rs) = last_value outputs_three_writers k)
    ∧ result_confidence rm = result_confidence rs
    ∧ contributing_agents rm = contributing_agents rs
    ∧ conflicts rs = [].
Proof.
  apply (merge_sequential_same_outputs outputs_three_writers).
  - discriminate.
  - forall_elements ltac:(apply NoDup_singleton).
Defined.

(** X18.  MERGE reports no conflict between equal values: every conflict
    record holds, for its key, the values of two contributors that differ
    ([!=]), so that contributors that agree on all the keys they share,
    among them contributors with disjoint keys, give an empty conflict
    list. *)
Theorem merge_conflicts_sound (outs : list AgentOutput) :
  outs ≠ [] →
  Forall (λ o, dict_wf (output_data o)) outs →
  ∃ r,
    _merge_strategy outs = Ret r
    ∧ (∀ c, c ∈ conflicts r → conflict_sound outs c)
    ∧ ((∀ o1 o2 k w v, o1 ∈ outs → o2 ∈ outs →
          dict_get k (output_data o1) = Some w →
          dict_get k (output_data o2) = Some v → py_eq w v = true) →
       conflicts r = []).
Proof.
  intros Hne Hwf.
  destruct (_merge_strategy_run outs Hne Hwf) as (r & Hr & _ & _ & _ & _ & Hsound).
  exists r. split_and!; [done|done|].
  intros Hagree. destruct (conflicts r) as [|c cs]; [done|]. exfalso.
  destruct (Hsound c) as (o1 & o2 & w & v & a & Ho1 & Ho2 & Hw & Hv & Hne' & _);
    [elem_head|].
  rewrite (Hagree o1 o2 (key c) w v) in Hne'; done.
Qed.

Lemma merge_conflicts_sound_witness :
  ∃ r,
    _merge_strategy outputs_three_writers = Ret r
    ∧ (∀ c, c ∈ conflicts r → conflict_sound outputs_three_writers c).
Proof.
  destruct (merge_conflicts_sound outputs_three_writers) as (r & Hr & Hsound & _).
  - discriminate.
  - forall_elements ltac:(apply NoDup_singleton).
  - by exists r.
Defined.

(** ** BEST *)

(** [max(..., key=f)] returns the first of the elements of highest key. *)
Lemma py_max_by_spec {A} (f : A → Q) (x : A) (l : list A) :
  ∃ l1 l2,
    x :: l = l1 ++ py_max_by f x l :: l2
    ∧ (∀ y, y ∈ l1 → (f y < f (py_max_by f x l))%Q)
    ∧ (∀ y, y ∈ l2 → (f y <= f (py_max_by f x l))%Q).
Proof.
  unfold py_max_by. induction l as [|z l IH] using rev_ind.
  - exists [], []. simpl. split_and!; [done| |]; intros y Hy; by apply elem_of_nil in Hy.
  - destruct IH as (l1 & l2 & Hsplit & Hl1 & Hl2).
    rewrite foldl_app. simpl.
    set (best := foldl (λ best y, if Qlt_le_dec (f best) (f y) then y else best) x l) in *.
    destruct (Qlt_le_dec (f best) (f z)) as [Hlt|Hle].
    + exists (x :: l), []. split_and!.
      * done.
      * intros y Hy. rewrite Hsplit in Hy.
        apply elem_of_app in Hy as [Hy|Hy].
        -- eapply Qlt_trans; [by apply Hl1 | done].
        -- apply elem_of_cons in Hy as [->|Hy]; [done|].
           eapply Qle_lt_trans; [by apply Hl2 | done].
      * intros y Hy. by apply elem_of_nil in Hy.
    + exists l1, (l2 ++ [z]). split_and!.
      * rewrite app_comm_cons, Hsplit, <- app_assoc. done.
      * done.
      * intros y Hy. apply elem_of_app in Hy as [Hy|Hy]; [by apply Hl2|].
        by apply list_elem_of_singleton in Hy as ->.
Qed.

(** X23.  BEST returns the output map of one contributor as it is: the
    first listed among the contributors of highest confidence; it names
    this contributor alone, reports its confidence, and records no
    conflict. *)
Theorem _best_strategy_picks_first_highest (o : AgentOutput) (rest : list AgentOutput) :
  ∃ l1 best l2,
    o :: rest = l1 ++ best :: l2
    ∧ outputs (_best_strategy (o :: rest)) = output_data best
    ∧ contributing_agents (_best_strategy (o :: rest)) = [agent_id best]
    ∧ result_confidence (_best_strategy (o :: rest)) = confidence best
    ∧ conflicts (_best_strategy (o :: rest)) = []
    ∧ (∀ y, y ∈ l1 → (confidence y < confidence best)%Q)
    ∧ (∀ y, y ∈ l2 → (confidence y <= confidence best)%Q).
Proof.
  destruct (py_max_by_spec confidence o rest) as (l1 & l2 & Hsplit & Hl1 & Hl2).
  exists l1, (py_max_by confidence o rest), l2. by split_and!.
Qed.

(** ** CONSENSUS: the conflicts *)

Lemma dict_del_length {V} (k : string) (d : Dict V) (v : V) :
  dict_get k d = Some v → length (dict_del k d) + 1 = length d.
Proof.
  induction d as [|[k' v'] d IH]; simpl; [done|].
  destruct (decide (k = k')); simpl; [lia|].
  intros H. rewrite <- (IH H). lia.
Qed.

Lemma consensus_item_inv (first o : AgentOutput) (rest : list AgentOutput)
    (st : Dict PyVal * list Conflict) (item : string * PyVal) :
  o ∈ rest →
  consensus_inv first rest st →
  consensus_inv first rest (consensus_item (agent_id first) o st item).
Proof.
  intros Ho (Hwf & Hlen & Hsub & Hcov & Hcs). unfold consensus_item.
  destruct (dict_get item.1 st.1) as [cur|] eqn:Hcur; [|done].
  destruct (py_eq cur item.2) eqn:Heq; [done|].
  unfold consensus_inv. simpl. split_and!.
  - by apply dict_wf_del.
  - rewrite length_app. simpl. pose proof (dict_del_length _ _ _ Hcur). lia.
  - intros k v. destruct (decide (item.1 = k)) as [<-|Hne].
    + by rewrite dict_get_del_eq.
    + rewrite dict_get_del_ne by done. apply Hsub.
  - intros k v Hk. destruct (decide (item.1 = k)) as [<-|Hne].
    + right. eexists. split; [apply elem_of_app; right; elem_head | done].
    + rewrite dict_get_del_ne by done.
      destruct (Hcov _ _ Hk) as [?|(c & Hc & Hkey)]; [by left|].
      right. exists c. split; [apply elem_of_app; by left | done].
  - intros c Hc. apply elem_of_app in Hc as [Hc|Hc].
    + destruct (Hcs c Hc) as [Hnone Hrec]. split; [|done].
      destruct (decide (item.1 = key c)) as [<-|Hne].
      * by rewrite dict_get_del_eq.
      * by rewrite dict_get_del_ne.
    + apply list_elem_of_singleton in Hc as ->. simpl.
      split; [by apply dict_get_del_eq|].
      exists cur, item.2, o. split_and!; try done. by apply Hsub.
Qed.

Lemma consensus_run_inv (first : AgentOutput) (rest : list AgentOutput) :
  dict_wf (output_data first) →
  consensus_inv first rest
    (foldl (consensus_output (agent_id first)) (output_data first, []) rest).
Proof.
  intros Hwf.
  assert (∀ l st, (∀ o, o ∈ l → o ∈ rest) → consensus_inv first rest st →
            consensus_inv first rest (foldl (consensus_output (agent_id first)) st l))
    as Hrun.
  { induction l as [|o l IH]; intros st Hl Hst; simpl; [done|].
    apply IH; [intros o' Ho'; apply Hl; elem_tail|].
    unfold consensus_output.
    assert (o ∈ rest) as Ho by (apply Hl; elem_head).
    revert st Hst. induction (output_data o) as [|item items IHi]; intros st Hst; simpl;
      [done|].
    apply IHi. by apply consensus_item_inv. }
  apply Hrun; [done|].
  unfold consensus_inv. simpl. split_and!; try done.
  - intros k v Hk. by left.
  - intros c Hc. by apply elem_of_nil in Hc.
Qed.



(** ** [resolve_conflicts] *)

Lemma resolved_value_Some (cs : list Conflict) (k : string) (v : PyVal) :
  resolved_value cs k = Some v → ∃ c, c ∈ cs ∧ key c = k ∧ head (values c) = Some v.
Proof.
  induction cs as [|c cs IH]; simpl; [done|].
  destruct (resolved_value cs k) as [v'|].
  - intros [= ->]. destruct IH as (c' & Hc' & Hk & Hv); [done|].
    exists c'. split; [elem_tail | done].
  - destruct (decide (key c = k)) as [Hk|]; [|done].
    intros Hv. exists c. split; [elem_head | done].
Qed.

Lemma resolved_value_None (cs : list Conflict) (k : string) (c : Conflict) :
  Forall (λ c, values c ≠ []) cs →
  resolved_value cs k = None → c ∈ cs → key c ≠ k.
Proof.
  intros Hall. induction Hall as [|c' cs Hc' Hall IH]; simpl; intros Hnone Hin.
  - by apply elem_of_nil in Hin.
  - destruct (resolved_value cs k); [done|].
    apply elem_of_cons in Hin as [->|Hin]; [|by apply IH].
    destruct (decide (key c' = k)); [|done].
    destruct (values c'); done.
Qed.

Lemma first_values_foldl (cs : list Conflict) (acc : Dict PyVal) :
  Forall (λ c, values c ≠ []) cs →
  dict_wf acc →
  ∃ d, exc_foldl (λ resolved c,
                    match values c with
                    | v :: _ => Ret (dict_set (key c) v resolved)
                    | [] => Raise (mkException "IndexError" "list index out of range")
                    end) acc cs = Ret d
       ∧ dict_wf d
       ∧ ∀ k, dict_get k d = match resolved_value cs k with
                             | Some v => Some v
                             | None => dict_get k acc
                             end.
Proof.
  intros Hall. revert acc.
  induction Hall as [|c cs Hc Hall IH]; intros acc Hwf; simpl.
  - by exists acc.
  - destruct (values c) as [|v vs] eqn:Hvs; [done|].
    destruct (IH (dict_set (key c) v acc)) as (d & Hrun & Hwfd & Hget);
      [by apply dict_wf_set|].
    exists d. split_and!; [done..|].
    intros k. rewrite Hget. destruct (resolved_value cs k); [done|].
    destruct (decide (key c = k)) as [<-|Hne]; simpl.
    + by rewrite dict_get_set_eq.
    + by rewrite dict_get_set_ne.
Qed.

Lemma first_values_raises (cs : list Conflict) (acc : Dict PyVal) :
  Exists (λ c, values c = []) cs →
  exc_foldl (λ resolved c,
               match values c with
               | v :: _ => Ret (dict_set (key c) v resolved)
               | [] => Raise (mkException "IndexError" "list index out of range")
               end) acc cs
  = Raise (mkException "IndexError" "list index out of range").
Proof.
  intros Hex. revert acc. induction cs as [|c cs IH]; intros acc; simpl.
  - by apply Exists_nil in Hex.
  - destruct (values c) as [|v vs] eqn:Hvs; [done|].
    apply IH. apply Exists_cons in Hex as [Hex|Hex]; [congruence | done].
Qed.

Lemma resolve_conflicts_named (cs : list Conflict) (strategy : string) :
  strategy ∈ ["majority"; "weighted"; "confidence"] →
  resolve_conflicts cs strategy = resolved_map (first_values cs).
Proof.
  intros Hs. unfold resolve_conflicts. destruct cs as [|c cs]; [done|].
  unfold _resolve_by_majority, _resolve_by_weight, _resolve_by_confidence.
  repeat (destruct (decide _); [done|]).
  repeat (apply elem_of_cons in Hs as [?|Hs]; [done|]).
  by apply elem_of_nil in Hs.
Qed.

(** X24.  The three resolution strategies that [resolve_conflicts] knows
    give the same answer: a map that sends the key of every conflict
    record to the first of its two values, the last record of a key
    deciding. The call raises IndexError as soon as one record has no
    value. For any other strategy name the call returns no such map but
    the first conflict record itself. *)
Theorem resolve_conflicts_spec (cs : list Conflict) (strategy : string) :
  (strategy ∈ ["majority"; "weighted"; "confidence"] →
     (Forall (λ c, values c ≠ []) cs →
        ∃ d, resolve_conflicts cs strategy = Ret (ResolvedMap d)
             ∧ dict_wf d
             ∧ ∀ k, dict_get k d = resolved_value cs k)
     ∧ (Exists (λ c, values c = []) cs →
        resolve_conflicts cs strategy
        = Raise (mkException "IndexError" "list index out of range")))
  ∧ (strategy ∉ ["majority"; "weighted"; "confidence"] →
     ∀ c, head cs = Some c → resolve_conflicts cs strategy = Ret (ConflictRecord c)).
Proof.
  split.
  - intros Hs. rewrite (resolve_conflicts_named _ _ Hs). unfold first_values. split.
    + intros Hall.
      destruct (first_values_foldl cs [] Hall dict_wf_nil) as (d & -> & Hwf & Hget).
      exists d. split_and!; [done..|].
      intros k. rewrite Hget. by destruct (resolved_value cs k).
    + intros Hex. by rewrite first_values_raises.
  - intros Hs c Hc. destruct cs as [|c' cs]; [done|]. injection Hc as ->.
    unfold resolve_conflicts.
    destruct (decide (strategy = "majority")) as [->|_];
      [exfalso; apply Hs; elem_head|].
    destruct (decide (strategy = "weighted")) as [->|_];
      [exfalso; apply Hs; apply elem_of_cons; right; elem_head|].
    destruct (decide (strategy = "confidence")) as [->|_];
      [exfalso; apply Hs; do 2 (apply elem_of_cons; right); elem_head|].
    done.
Qed.

Lemma resolve_conflicts_spec_witness :
  ∃ d, resolve_conflicts
         [{| key := "k"; values := [VInt 1; VInt 2]; agents := Some ["a"; "b"];
             votes := None |}] "weighted"
       = Ret (ResolvedMap d)
       ∧ dict_wf d
       ∧ ∀ k, dict_get k d
              = resolved_value
                  [{| key := "k"; values := [VInt 1; VInt 2]; agents := Some ["a"; "b"];
                      votes := None |}] k.
Proof.
  apply (resolve_conflicts_spec _ "weighted").
  - apply elem_of_cons; right; elem_head.
  - by apply Forall_singleton.
Defined.

(** X21.  Resolving the conflicts of a CONSENSUS result and writing the
    resolution over the result gives back the output map of the first
    contributor, key by key: every disagreement is settled in favour of
    the first listed contributor. *)
Theorem consensus_resolution_restores_first
    (first : AgentOutput) (rest : list AgentOutput) (strategy : string) :
  dict_wf (output_data first) →
  strategy ∈ ["majority"; "weighted"; "confidence"] →
  ∃ d, resolve_conflicts (conflicts (_consensus_strategy (first :: rest))) strategy
       = Ret (ResolvedMap d)
       ∧ ∀ k, dict_get k (dict_update (outputs (_consensus_strategy (first :: rest))) d)
              = dict_get k (output_data first).
Proof.
  intros Hwf Hs.
  destruct (consensus_run_inv first rest Hwf) as (_ & _ & Hsub & Hcov & Hcs).
  unfold _consensus_strategy. simpl.
  set (st := foldl (consensus_output (agent_id first)) (output_data first, []) rest) in *.
  assert (Forall (λ c, values c ≠ []) st.2) as Hall.
  { apply Forall_forall. intros c Hc.
    destruct (Hcs c Hc) as (_ & v & w & o & _ & _ & _ & Hv & _). by rewrite Hv. }
  rewrite (resolve_conflicts_named _ _ Hs). unfold first_values.
  destruct (first_values_foldl st.2 [] Hall dict_wf_nil) as (d & -> & Hwfd & Hget).
  exists d. split; [done|]. intros k.
  rewrite dict_get_update by done. rewrite Hget.
  destruct (resolved_value st.2 k) as [v|] eqn:Hres.
  - apply resolved_value_Some in Hres as (c & Hc & <- & Hv).
    destruct (Hcs c Hc) as (_ & v' & w & o & _ & Hfirst & _ & Hvals & _).
    rewrite Hvals in Hv. simpl in Hv. congruence.
  - simpl. destruct (dict_get k (output_data first)) as [v|] eqn:Hfirst.
    + destruct (Hcov _ _ Hfirst) as [?|(c & Hc & Hk)]; [done|].
      by destruct (resolved_value_None _ _ _ Hall Hres Hc).
    + destruct (dict_get k st.1) as [v|] eqn:Hst; [|done].
      apply Hsub in Hst. congruence.
Qed.

Lemma consensus_resolution_restores_first_witness :
  ∃ d, resolve_conflicts (conflicts (_consensus_strategy [output_d1; output_d2])) "majority"
       = Ret (ResolvedMap d)
       ∧ ∀ k, dict_get k (dict_update (outputs (_consensus_strategy [output_d1; output_d2])) d)
              = dict_get k (output_data output_d1).
Proof.
  apply (consensus_resolution_restores_first output_d1 [output_d2] "majority").
  - apply (bool_decide_unpack _). reflexivity.
  - elem_head.
Defined.

(** ** [validate_result] *)

Lemma check_required_nil (out : Dict PyVal) (ks : list string) (acc : list Message) :
  foldl (λ errors k,
           if dict_mem k out then errors else errors ++ [MissingRequiredOutput k])
        acc ks = []
  ↔ acc = [] ∧ ∀ k, k ∈ ks → dict_mem k out = true.
Proof.
  revert acc. induction ks as [|k ks IH]; intros acc; simpl.
  - split; [intros ->; split; [done|]; intros k Hk; by apply elem_of_nil in Hk | by intros [-> _]].
  - rewrite IH. destruct (dict_mem k out) eqn:Hk.
    + split; intros [-> Hall]; (split; [done|]).
      * intros k' Hk'. apply elem_of_cons in Hk' as [->|Hk']; [done | by apply Hall].
      * intros k' Hk'. apply Hall. elem_tail.
    + split.
      * intros [Hnil _]. by destruct acc.
      * intros [_ Hall]. rewrite Hall in Hk; [done | elem_head].
Qed.

(** X25.  [validate_result] accepts a result exactly when every required
    key is among its outputs, it has no conflict or at most max_conflicts
    of them (3 when the requirement is absent), and its confidence is at
    least min_confidence (0.7 when absent). A warning is issued, and only
    one, exactly when there are conflicts within that bound. *)
Theorem validate_result_valid_iff (result : AggregatedResult) (requirements : Requirements) :
  (is_valid (validate_result result requirements) = true
   ↔ (∀ k, k ∈ default [] (req_required_outputs requirements) →
           dict_mem k (outputs result) = true)
     ∧ (conflicts result = []
        ∨ (Z.of_nat (length (conflicts result))
           <= default 3%Z (req_max_conflicts requirements))%Z)
     ∧ (default (7 # 10)%Q (req_min_confidence requirements)
        <= result_confidence result)%Q)
  ∧ (warnings (validate_result result requirements)
     = if bool_decide
            (conflicts result ≠ []
             ∧ (Z.of_nat (length (conflicts result))
                <= default 3%Z (req_max_conflicts requirements))%Z)
       then [FoundConflicts (length (conflicts result))]
       else []).
Proof.
  assert (is_valid (validate_result result requirements) = true
          ↔ check_required result requirements = []
            ∧ (check_conflicts result requirements).1 = []
            ∧ check_confidence result requirements = []) as Hvalid.
  { unfold validate_result. simpl. rewrite bool_decide_eq_true.
    rewrite length_zero_iff_nil. split.
    - intros H. apply app_eq_nil in H as [? H]. apply app_eq_nil in H as [? ?]. done.
    - intros (-> & -> & ->). done. }
  assert ((check_conflicts result requirements).1 = []
          ↔ conflicts result = []
            ∨ (Z.of_nat (length (conflicts result))
               <= default 3%Z (req_max_conflicts requirements))%Z) as Hconf.
  { unfold check_conflicts. destruct (conflicts result) as [|c cs] eqn:Hcs; [by split; [left|]|].
    case_bool_decide as Hlt; cbn [fst].
    - split; [done|]. intros [?|?]; [done | lia].
    - split; [|done]. intros _. right. lia. }
  split.
  - rewrite Hvalid, Hconf. unfold check_required. rewrite check_required_nil.
    unfold check_confidence.
    destruct (Qlt_le_dec _ _) as [Hlt|Hle].
    + split; [by intros (_ & _ & ?)|]. intros (_ & _ & Hle).
      by apply Qle_not_lt in Hle.
    + split; [by intros ((_ & ?) & ? & _) | by intros (? & ? & _)].
  - unfold validate_result, check_conflicts. simpl.
    destruct (conflicts result) as [|c cs] eqn:Hcs.
    + rewrite bool_decide_eq_false_2; [done | by intros [? _]].
    + case_bool_decide as Hlt; cbn [snd].
      * rewrite bool_decide_eq_false_2; [done|]. intros [_ ?]. lia.
      * rewrite bool_decide_eq_true_2; [done|]. split; [done | lia].
Qed.

(** ** [aggregate] *)

Lemma validate_true (o : AgentOutput) :
  validate o = true → output_data o ≠ [] ∧ (0 <= confidence o)%Q ∧ (confidence o <= 1)%Q.
Proof.
  unfold validate. destruct (output_data o); [done|]. simpl.
  destruct (Qlt_le_dec (confidence o) 0); [done|].
  destruct (Qlt_le_dec 1 (confidence o)); [done|]. done.
Qed.

Lemma filter_validate_Forall (outs : list AgentOutput) :
  Forall (λ o, validate o = true) (List.filter validate outs).
Proof.
  apply List.Forall_forall. intros o Ho. by apply List.filter_In in Ho as [_ ?].
Qed.

Lemma filter_validate_wf (outs : list AgentOutput) :
  Forall (λ o, dict_wf (output_data o)) outs →
  Forall (λ o, dict_wf (output_data o)) (List.filter validate outs).
Proof.
  intros Hwf. apply List.Forall_forall. intros o Ho.
  apply List.filter_In in Ho as [Ho _]. by apply (proj1 (List.Forall_forall _ _) Hwf).
Qed.

Lemma inject_Z_pos (n : nat) : 0 < n → (0 < inject_Z (Z.of_nat n))%Q.
Proof. intros Hn. change 0%Q with (inject_Z 0). rewrite <- Zlt_Qlt. lia. Qed.

Lemma ratio_range (a b : nat) : a ≤ b → 0 < b → (0 <= ratio a b)%Q ∧ (ratio a b <= 1)%Q.
Proof.
  intros Hab Hb. pose proof (inject_Z_pos b Hb) as Hpos. unfold ratio. split.
  - apply Qle_shift_div_l; [done|]. rewrite Qmult_0_l.
    change 0%Q with (inject_Z 0). rewrite <- Zle_Qle. lia.
  - apply Qle_shift_div_r; [done|]. rewrite Qmult_1_l. rewrite <- Zle_Qle. lia.
Qed.

Lemma sum_confidence_foldl (outs : list AgentOutput) (acc : Q) :
  Forall (λ o, validate o = true) outs →
  (acc <= foldl (λ acc o, acc + confidence o) acc outs)%Q
  ∧ (foldl (λ acc o, acc + confidence o) acc outs
     <= acc + inject_Z (Z.of_nat (length outs)))%Q.
Proof.
  intros Hall. revert acc. induction Hall as [|o outs Ho Hall IH]; intros acc.
  - cbn [foldl length Z.of_nat]. change (inject_Z 0) with 0%Q.
    split; [apply Qle_refl | rewrite Qplus_0_r; apply Qle_refl].
  - destruct (validate_true o Ho) as (_ & H0 & H1).
    destruct (IH (acc + confidence o)%Q) as [Hlo Hhi].
    cbn [foldl length]. rewrite Nat2Z.inj_succ. unfold Z.succ. rewrite inject_Z_plus.
    change (inject_Z 1) with 1%Q. split; lra.
Qed.

Lemma mean_confidence_range (outs : list AgentOutput) :
  outs ≠ [] →
  Forall (λ o, validate o = true) outs →
  (0 <= sum_confidence outs / inject_Z (Z.of_nat (length outs)))%Q
  ∧ (sum_confidence outs / inject_Z (Z.of_nat (length outs)) <= 1)%Q.
Proof.
  intros Hne Hall. destruct (sum_confidence_foldl outs 0 Hall) as [Hlo Hhi].
  fold (sum_confidence outs) in Hlo, Hhi.
  assert (0 < length outs) as Hlen by (destruct outs; [done | simpl; lia]).
  pose proof (inject_Z_pos _ Hlen) as Hpos. split.
  - apply Qle_shift_div_l; [done|]. lra.
  - apply Qle_shift_div_r; [done|]. lra.
Qed.

Lemma elem_le_sum (d : Dict nat) (x : string * nat) : x ∈ d → x.2 ≤ sum_nat (dict_values d).
Proof.
  unfold dict_values. induction d as [|y d IH]; intros Hx; csimpl.
  - by apply elem_of_nil in Hx.
  - apply elem_of_cons in Hx as [->|Hx]; [lia|]. specialize (IH Hx). lia.
Qed.

Lemma winning_le_total (votes : Dict (Dict nat)) :
  (∀ k tally, (k, tally) ∈ votes → tally ≠ []) →
  sum_nat (map (λ kt, (top_of kt.2).2) votes) ≤ total_votes votes.
Proof.
  unfold total_votes, dict_values. induction votes as [|[k t] votes IH]; intros Hne; csimpl.
  - done.
  - assert (t ≠ []) as Ht by (apply (Hne k); elem_head).
    destruct (sorted_desc_top t Ht) as [Hin _]. apply elem_le_sum in Hin.
    unfold dict_values in Hin.
    assert (∀ k tally, (k, tally) ∈ votes → tally ≠ []) as Hne'
      by (intros k' t' Hk'; apply (Hne k'); elem_tail).
    specialize (IH Hne'). lia.
Qed.

Lemma _vote_strategy_fields (outs : list AgentOutput) (r : AggregatedResult) :
  _vote_strategy outs = Ret r →
  strategy_used r = VOTE ∧ contributing_agents r = map agent_id outs.
Proof.
  unfold _vote_strategy.
  destruct (exc_foldl _ _ _) as [[result cs]|]; [|done].
  destruct (winning_votes _); [|done]. by intros [= <-].
Qed.

Lemma consensus_length (first : AgentOutput) (rest : list AgentOutput) :
  dict_wf (output_data first) →
  length (foldl (consensus_output (agent_id first)) (output_data first, []) rest).1
  ≤ length (collect_keys (first :: rest)).
Proof.
  intros Hwf. destruct (consensus_run_inv first rest Hwf) as (Hwfst & _ & Hsub & _).
  set (st := foldl _ _ _) in *.
  destruct (collect_keys_spec (first :: rest)) as [_ Hkeys].
  replace (length st.1) with (length (dict_keys st.1))
    by (unfold dict_keys; apply length_fmap).
  apply submseteq_length, NoDup_submseteq; [done|].
  intros k Hk. apply Hkeys. exists first. split; [elem_head|].
  apply dict_get_is_Some in Hk as [v Hv]. apply dict_get_is_Some.
  exists v. by apply Hsub.
Qed.

(** What every strategy gives on a non-empty list of valid outputs. *)
Lemma strategy_run (outs : list AgentOutput) (strategy : AggregationStrategy) :
  outs ≠ [] →
  Forall (λ o, validate o = true) outs →
  Forall (λ o, dict_wf (output_data o)) outs →
  ∃ r,
    match strategy with
    | MERGE => _merge_strategy outs
    | VOTE => _vote_strategy outs
    | CONSENSUS => Ret (_consensus_strategy outs)
    | WEIGHTED => Ret (_weighted_strategy outs)
    | BEST => Ret (_best_strategy outs)
    | SEQUENTIAL => _sequential_strategy outs
    end = Ret r
    ∧ strategy_used r = strategy
    ∧ (if strategy is BEST
       then ∃ o, o ∈ outs ∧ contributing_agents r = [agent_id o]
       else contributing_agents r = map agent_id outs)
    ∧ (0 <= result_confidence r)%Q ∧ (result_confidence r <= 1)%Q.
Proof.
  intros Hne Hvalid Hwf.
  pose proof (mean_confidence_range outs Hne Hvalid) as [Hlo Hhi].
  destruct strategy.
  - destruct (_merge_strategy_run outs Hne Hwf) as (r & -> & _ & Hag & Hconf & Hs & _).
    exists r. rewrite Hconf. by split_and!.
  - destruct (_vote_strategy_run outs) as (r & Hrun & _ & Hconf).
    destruct (_vote_strategy_fields outs r Hrun) as [Hs Hag].
    exists r. split_and!; [done..| |]; rewrite Hconf.
    + case_bool_decide as Htot; [|done].
      apply ratio_range; [|done]. apply winning_le_total.
      intros k t Hkt. destruct (tallies_ok_collect outs) as [_ Hall].
      by destruct (Hall _ _ Hkt) as (_ & ? & _).
    + case_bool_decide as Htot; [|done].
      apply ratio_range; [|done]. apply winning_le_total.
      intros k t Hkt. destruct (tallies_ok_collect outs) as [_ Hall].
      by destruct (Hall _ _ Hkt) as (_ & ? & _).
  - destruct outs as [|first rest]; [done|].
    apply Forall_cons in Hwf as [Hwf1 _].
    pose proof (consensus_length first rest Hwf1) as Hlen.
    eexists. split; [done|]. unfold _consensus_strategy. cbn [strategy_used
      contributing_agents result_confidence]. split_and!; [done..| |].
    + destruct (collect_keys (first :: rest)) as [|k ks] eqn:Hk; [done|].
      apply ratio_range; [done | simpl; lia].
    + destruct (collect_keys (first :: rest)) as [|k ks] eqn:Hk; [done|].
      apply ratio_range; [done | simpl; lia].
  - eexists. split; [done|]. unfold _weighted_strategy. cbn [strategy_used
      contributing_agents result_confidence].
    destruct outs as [|o outs]; [done|]. by split_and!.
  - destruct outs as [|o rest]; [done|].
    destruct (py_max_by_spec confidence o rest) as (l1 & l2 & Hsplit & _).
    assert (py_max_by confidence o rest ∈ o :: rest) as Hin.
    { rewrite Hsplit. apply elem_of_app. right. elem_head. }
    destruct (validate_true _ (proj1 (Forall_forall _ _) Hvalid _ Hin)) as (_ & H0 & H1).
    eexists. split; [done|]. unfold _best_strategy. cbn [strategy_used
      contributing_agents result_confidence]. split_and!; [done| |done..].
    by eexists.
  - unfold _sequential_strategy, div_len. destruct outs as [|o rest]; [done|].
    cbn [length]. eexists. split; [done|]. by split_and!.
Qed.

(** X15.  [aggregate] drops the invalid outputs before anything else: it
    gives the result of the chosen strategy on the valid outputs alone,
    tagged with that strategy, and the empty result when no output is
    valid. The contributors it lists are the valid outputs in order (for
    BEST, one of them). Its guard is what keeps MERGE and SEQUENTIAL from
    dividing by zero: called on an empty list, both raise
    ZeroDivisionError. *)
Theorem aggregate_ignores_invalid (outs : list AgentOutput) (strategy : AggregationStrategy) :
  Forall (λ o, dict_wf (output_data o)) outs →
  ∃ r,
    aggregate outs strategy = Ret r
    ∧ aggregate (List.filter validate outs) strategy = Ret r
    ∧ strategy_used r = strategy
    ∧ (List.filter validate outs = [] → r = _empty_result strategy)
    ∧ (if strategy is BEST
       then ∀ a, a ∈ contributing_agents r →
                 ∃ o, o ∈ outs ∧ validate o = true ∧ agent_id o = a
       else contributing_agents r = map agent_id (List.filter validate outs))
    ∧ _merge_strategy [] = Raise (mkException "ZeroDivisionError" "division by zero")
    ∧ _sequential_strategy []
      = Raise (mkException "ZeroDivisionError" "division by zero").
Proof.
  intros Hwf.
  pose proof (filter_validate_Forall outs) as Hvalid.
  pose proof (filter_validate_wf outs Hwf) as Hwf'.
  assert (aggregate (List.filter validate outs) strategy = aggregate outs strategy) as Hidem.
  { unfold aggregate. by rewrite (filter_validate_all _ Hvalid). }
  rewrite Hidem. unfold aggregate.
  destruct (List.filter validate outs) as [|v vs] eqn:Hvs.
  - exists (_empty_result strategy). split_and!; try done.
    destruct strategy; try done. intros a Ha. by apply elem_of_nil in Ha.
  - destruct (strategy_run (v :: vs) strategy) as (r & Hrun & Hs & Hag & _); [done..|].
    exists r. split_and!; try done.
    destruct strategy; try done.
    destruct Hag as (o & Ho & ->). intros a Ha. apply list_elem_of_singleton in Ha as ->.
    exists o. rewrite <- Hvs in Ho. apply list_elem_of_In, List.filter_In in Ho as [Ho Hv].
    split_and!; [by apply list_elem_of_In | done..].
Qed.

Lemma aggregate_ignores_invalid_witness :
  ∃ r, aggregate outputs_three_writers MERGE = Ret r
       ∧ aggregate (List.filter validate outputs_three_writers) MERGE = Ret r.
Proof.
  destruct (aggregate_ignores_invalid outputs_three_writers MERGE) as (r & H1 & H2 & _).
  - forall_elements ltac:(apply NoDup_singleton).
  - by exists r.
Defined.

(** X16.  The confidence of an aggregated result is a number between 0 and
    1, whatever the strategy and the outputs. *)
Theorem aggregate_confidence_range (outs : list AgentOutput) (strategy : AggregationStrategy) :
  Forall (λ o, dict_wf (output_data o)) outs →
  ∃ r, aggregate outs strategy = Ret r
       ∧ (0 <= result_confidence r)%Q ∧ (result_confidence r <= 1)%Q.
Proof.
  intros Hwf.
  pose proof (filter_validate_Forall outs) as Hvalid.
  pose proof (filter_validate_wf outs Hwf) as Hwf'.
  unfold aggregate.
  destruct (List.filter validate outs) as [|v vs] eqn:Hvs.
  - exists (_empty_result strategy). by split_and!.
  - destruct (strategy_run (v :: vs) strategy) as (r & Hrun & _ & _ & H0 & H1); [done..|].
    by exists r.
Qed.

Lemma aggregate_confidence_range_witness :
  ∃ r, aggregate outputs_three_writers VOTE = Ret r
       ∧ (0 <= result_confidence r)%Q ∧ (result_confidence r <= 1)%Q.
Proof.
  apply (aggregate_confidence_range outputs_three_writers VOTE).
  forall_elements ltac:(apply NoDup_singleton).
Defined.

(** ** WEIGHTED *)

Lemma entries_for_snoc (l : list AgentOutput) (o : AgentOutput) (k : string) :
  entries_for (l ++ [o]) k
  = entries_for l k ++ match dict_get k (output_data o) with
                       | Some v => [(v, confidence o)]
                       | None => []
                       end.
Proof.
  unfold entries_for. rewrite omap_app. f_equal. simpl.
  by destruct (dict_get k (output_data o)).
Qed.

Lemma add_weights_run (o : AgentOutput) (items : Dict PyVal)
    (weights : Dict (list (PyVal * Q))) :
  dict_wf items →
  weights_ok weights →
  weights_ok (foldl (add_weight o) weights items)
  ∧ ∀ k, default [] (dict_get k (foldl (add_weight o) weights items))
         = default [] (dict_get k weights)
           ++ match dict_get k items with
              | Some v => [(v, confidence o)]
              | None => []
              end.
Proof.
  revert weights. induction items as [|[k0 v0] items IH]; intros weights Hwf Hok.
  - simpl. split; [done|]. intros k. by rewrite app_nil_r.
  - apply NoDup_cons in Hwf as [Hfresh Hwf]. cbn [foldl].
    assert (weights_ok (add_weight o weights (k0, v0))) as Hok1.
    { destruct Hok as [Hwfw Hne]. unfold add_weight. simpl. split.
      - by apply dict_wf_set.
      - intros k l. rewrite dict_get_set. destruct (decide (k0 = k)) as [->|].
        + intros [= <-]. by destruct (default [] (dict_get k weights)).
        + apply Hne. }
    destruct (IH _ Hwf Hok1) as [Hok' Hget]. split; [done|].
    intros k. rewrite Hget. unfold add_weight. cbn [fst snd].
    rewrite dict_get_set. cbn [dict_get].
    destruct (decide (k0 = k)) as [->|Hne].
    + rewrite decide_True by done.
      rewrite (proj2 (dict_get_None k items) Hfresh). simpl. by rewrite app_nil_r.
    + by rewrite decide_False by done.
Qed.

Lemma collect_weights_run (l pre : list AgentOutput) (weights : Dict (list (PyVal * Q))) :
  Forall (λ o, dict_wf (output_data o)) l →
  weights_ok weights →
  (∀ k, default [] (dict_get k weights) = entries_for pre k) →
  weights_ok (foldl (λ w o, foldl (add_weight o) w (output_data o)) weights l)
  ∧ ∀ k, default [] (dict_get k (foldl (λ w o, foldl (add_weight o) w (output_data o))
                                       weights l))
         = entries_for (pre ++ l) k.
Proof.
  intros Hwf. revert pre weights.
  induction Hwf as [|o l Ho Hwf IH]; intros pre weights Hok Hpre.
  - simpl. by rewrite app_nil_r.
  - cbn [foldl]. destruct (add_weights_run o (output_data o) weights Ho Hok) as [Hok1 Hget1].
    destruct (IH (pre ++ [o]) _ Hok1) as [Hok' Hget'].
    { intros k. by rewrite Hget1, Hpre, entries_for_snoc. }
    split; [done|]. intros k. by rewrite Hget', <- app_assoc.
Qed.

Lemma select_weighted_run (weights : Dict (list (PyVal * Q))) (acc : Dict PyVal) (k : string) :
  dict_wf weights →
  dict_get k (foldl (λ acc kv,
                       match kv.2 with
                       | x :: l => dict_set kv.1 (py_max_by snd x l).1 acc
                       | [] => acc
                       end) acc weights)
  = match dict_get k weights with
    | Some (x :: l) => Some (py_max_by snd x l).1
    | _ => dict_get k acc
    end.
Proof.
  revert acc. induction weights as [|[k0 l0] weights IH]; intros acc Hwf; [done|].
  apply NoDup_cons in Hwf as [Hfresh Hwf]. cbn [foldl]. rewrite IH by done.
  cbn [dict_get fst snd]. destruct (decide (k = k0)) as [->|Hne].
  - rewrite (proj2 (dict_get_None k0 weights) Hfresh).
    destruct l0 as [|x l]; [done|]. by rewrite dict_get_set_eq.
  - destruct (dict_get k weights) as [[|x l]|]; try done;
      destruct l0 as [|x0 l0']; try done; by rewrite dict_get_set_ne.
Qed.

Lemma omap_split {A B} (f : A → option B) (l : list A) (e1 e2 : list B) (b : B) :
  omap f l = e1 ++ b :: e2 →
  ∃ l1 a l2, l = l1 ++ a :: l2 ∧ omap f l1 = e1 ∧ f a = Some b ∧ omap f l2 = e2.
Proof.
  revert e1. induction l as [|a l IH]; intros e1 H; csimpl in H.
  - by destruct e1.
  - destruct (f a) as [b'|] eqn:Hfa.
    + destruct e1 as [|b1 e1]; simpl in H.
      * injection H as -> He2. exists [], a, l. by split_and!.
      * injection H as -> He. destruct (IH _ He) as (l1 & a' & l2 & -> & H1 & Ha' & H2).
        exists (a :: l1), a', l2. split_and!; try done. csimpl. by rewrite Hfa, H1.
    + destruct (IH _ H) as (l1 & a' & l2 & -> & H1 & Ha' & H2).
      exists (a :: l1), a', l2. split_and!; try done. csimpl. by rewrite Hfa, H1.
Qed.

(** X22.  WEIGHTED gives every key the value of one contributor: the one
    of highest confidence among the contributors that have the key, the
    first listed of them on equal confidence. A key is absent from the
    result only when no contributor has it, and disagreeing values are
    never recorded as a conflict. *)
Theorem _weighted_strategy_picks_most_confident (outs : list AgentOutput) (k : string) :
  Forall (λ o, dict_wf (output_data o)) outs →
  conflicts (_weighted_strategy outs) = []
  ∧ match dict_get k (outputs (_weighted_strategy outs)) with
    | Some v =>
        ∃ l1 o l2,
          outs = l1 ++ o :: l2
          ∧ dict_get k (output_data o) = Some v
          ∧ (∀ y, y ∈ l1 → is_Some (dict_get k (output_data y)) →
                  (confidence y < confidence o)%Q)
          ∧ (∀ y, y ∈ l2 → is_Some (dict_get k (output_data y)) →
                  (confidence y <= confidence o)%Q)
    | None => ∀ o, o ∈ outs → dict_get k (output_data o) = None
    end.
Proof.
  intros Hwf. split; [done|].
  destruct (collect_weights_run outs [] [] Hwf) as [[Hwfw Hne] Hget];
    [split; [apply dict_wf_nil | done] | done |].
  unfold _weighted_strategy. cbn [outputs].
  rewrite select_weighted_run by done. specialize (Hget k). simpl in Hget.
  set (weights := foldl _ [] outs) in *.
  destruct (dict_get k weights) as [[|x l]|] eqn:Hk.
  - by destruct (Hne _ _ Hk).
  - simpl in Hget.
    destruct (py_max_by_spec snd x l) as (e1 & e2 & Hsplit & He1 & He2).
    rewrite Hget in Hsplit. unfold entries_for in Hsplit.
    apply omap_split in Hsplit as (l1 & o & l2 & -> & H1 & Ho & H2).
    destruct (dict_get k (output_data o)) as [v|] eqn:Hv; [|done].
    simpl in Ho. injection Ho as Ho. rewrite <- Ho in *. simpl in *.
    exists l1, o, l2. split_and!; [done..| |].
    + intros y Hy [w Hw]. apply (He1 (w, confidence y)).
      rewrite <- H1. apply list_elem_of_omap. exists y. split; [done|]. by rewrite Hw.
    + intros y Hy [w Hw]. apply (He2 (w, confidence y)).
      rewrite <- H2. apply list_elem_of_omap. exists y. split; [done|]. by rewrite Hw.
  - simpl in *. intros o Ho. destruct (dict_get k (output_data o)) as [v|] eqn:Hv; [|done].
    assert ((v, confidence o) ∈ entries_for outs k) as Hin.
    { apply list_elem_of_omap. exists o. split; [done|]. by rewrite Hv. }
    rewrite <- Hget in Hin. by apply elem_of_nil in Hin.
Qed.

Lemma _weighted_strategy_picks_most_confident_witness :
  conflicts (_weighted_strategy outputs_three_writers) = [].
Proof.
  apply (_weighted_strategy_picks_most_confident outputs_three_writers "k").
  forall_elements ltac:(apply NoDup_singleton).
Defined.

(** ** VOTE: the conflicts *)

Lemma elem_of_concat {A} (x : A) (ls : list (list A)) :
  x ∈ concat ls ↔ ∃ l, l ∈ ls ∧ x ∈ l.
Proof.
  induction ls as [|l ls IH]; simpl.
  - split; [intros H; by apply elem_of_nil in H|]. intros (l & Hl & _).
    by apply elem_of_nil in Hl.
  - rewrite elem_of_app, IH. split.
    + intros [?|(l' & ? & ?)]; [exists l; split; [elem_head | done]|].
      exists l'. split; [elem_tail | done].
    + intros (l' & Hl' & ?). apply elem_of_cons in Hl' as [->|?]; [by left|].
      right. by exists l'.
Qed.

Lemma insert_desc_perm (x : string * nat) (l : list (string * nat)) :
  insert_desc x l ≡ₚ x :: l.
Proof.
  induction l as [|y l IH]; simpl; [done|].
  destruct (bool_decide (x.2 < y.2)); [|done].
  rewrite IH. apply Permutation_swap.
Qed.

Lemma sorted_desc_perm (l : list (string * nat)) : sorted_desc l ≡ₚ l.
Proof.
  induction l as [|x l IH]; simpl; [done|].
  unfold sorted_desc in *. by rewrite insert_desc_perm, IH.
Qed.

Lemma insert_desc_desc (x : string * nat) (l : list (string * nat)) :
  desc l → desc (insert_desc x l).
Proof.
  induction l as [|y l IH]; intros Hl; simpl.
  - done.
  - destruct Hl as [Hy Hl]. destruct (bool_decide_reflect (x.2 < y.2)) as [Hlt|Hge]; simpl.
    + split; [|by apply IH]. rewrite insert_desc_perm.
      apply Forall_cons. split; [lia | done].
    + split; [|done]. apply Forall_cons. split; [lia|].
      eapply Forall_impl; [done|]. intros z Hz. simpl in Hz. lia.
Qed.

Lemma sorted_desc_desc (l : list (string * nat)) : desc (sorted_desc l).
Proof.
  induction l as [|x l IH]; simpl; [done|]. by apply insert_desc_desc.
Qed.

Lemma pick_winners_conflicts (votes todo : Dict (Dict nat)) (st : Dict PyVal * list Conflict) :
  (∀ kt, kt ∈ todo → dict_get kt.1 votes = Some kt.2 ∧ kt.2 ≠ []) →
  ∃ result,
    exc_foldl (pick_winner votes) st (dict_keys todo)
    = Ret (result, st.2 ++ concat (map tie_records todo)).
Proof.
  revert st. induction todo as [|[k tally] todo IH]; intros st Hall.
  - exists st.1. simpl. rewrite app_nil_r. by destruct st.
  - destruct (Hall (k, tally)) as [Hget Hne]; [elem_head|]. simpl in Hget, Hne.
    unfold dict_keys. csimpl. unfold pick_winner at 1. rewrite Hget.
    destruct (sorted_desc_head tally Hne) as [rest Hs].
    rewrite Hs. cbn zeta.
    match goal with
    | |- ∃ _, exc_foldl _ ?st' _ = _ =>
        destruct (IH st') as [result Hrun]; [intros kt Hkt; apply Hall; elem_tail|]
    end.
    unfold dict_keys in Hrun. rewrite Hrun. exists result. do 2 f_equal. cbn [snd].
    unfold tie_records at 2. cbn [fst snd]. rewrite Hs.
    destruct rest as [|second rest]; [done|].
    destruct (bool_decide (_ = second.2)); [|done]. by rewrite <- app_assoc.
Qed.

Lemma _vote_strategy_conflicts (outs : list AgentOutput) (r : AggregatedResult) :
  _vote_strategy outs = Ret r →
  conflicts r = concat (map tie_records (collect_votes outs)).
Proof.
  destruct (tallies_ok_collect outs) as [Hwf Hall].
  unfold _vote_strategy. rewrite <- dict_keys_collect.
  destruct (pick_winners_conflicts (collect_votes outs) (collect_votes outs) ([], []))
    as [result ->].
  { intros [k t] Hkt. simpl. split; [by apply dict_elem_get|].
    by destruct (Hall _ _ Hkt) as (_ & ? & _). }
  destruct (winning_votes _); [|done]. by intros [= <-].
Qed.

(** X19.  VOTE records a conflict for a key exactly when two different
    strings share the highest vote count of the key. The record of a tie
    holds the two strings and their (equal) counts; the first of them is
    the value written for the key. *)
Theorem vote_conflict_iff_tie (outs : list AgentOutput) :
  Forall (λ o, dict_wf (output_data o)) outs →
  ∃ r,
    _vote_strategy outs = Ret r
    ∧ (∀ c, c ∈ conflicts r →
         ∃ s1 s2 n,
           s1 ≠ s2
           ∧ values c = [VStr s1; VStr s2]
           ∧ votes c = Some [n; n]
           ∧ agents c = None
           ∧ votes_for outs (key c) s1 = n
           ∧ votes_for outs (key c) s2 = n
           ∧ (∀ s, votes_for outs (key c) s ≤ n)
           ∧ dict_get (key c) (outputs r) = Some (VStr s1))
    ∧ (∀ k s1 s2,
         s1 ≠ s2 →
         0 < votes_for outs k s1 →
         votes_for outs k s2 = votes_for outs k s1 →
         (∀ s, votes_for outs k s ≤ votes_for outs k s1) →
         ∃ c, c ∈ conflicts r ∧ key c = k).
Proof.
  intros Hwf.
  destruct (_vote_strategy_run outs) as (r & Hrun & Hout & _).
  pose proof (_vote_strategy_conflicts outs r Hrun) as Hcs.
  destruct (tallies_ok_collect outs) as [Hwfv Hall].
  exists r. split; [done|]. rewrite Hcs, Hout. split.
  - intros c Hc. apply elem_of_concat in Hc as (l & Hl & Hc).
    apply list_elem_of_fmap in Hl as ([k tally] & -> & Hkt).
    destruct (Hall _ _ Hkt) as (Hwft & Hne & Hpos).
    unfold tie_records in Hc. cbn [fst snd] in Hc.
    destruct (sorted_desc_head tally Hne) as [rest Hs].
    pose proof (sorted_desc_perm tally) as Hperm.
    rewrite Hs in Hc, Hperm.
    destruct rest as [|second rest]; [by apply elem_of_nil in Hc|].
    destruct (bool_decide_reflect ((top_of tally).2 = second.2)) as [Htie|];
      [|by apply elem_of_nil in Hc].
    apply list_elem_of_singleton in Hc as ->. cbn [key values votes agents].
    destruct (winner_votes outs k tally Hwf Hkt) as (Htopv & _ & Hmax).
    assert (second ∈ tally) as Hsec.
    { rewrite <- Hperm. apply elem_of_cons; right. elem_head. }
    assert (votes_for outs k second.1 = second.2) as Hsecv.
    { rewrite <- tally_of_collect by done. unfold tally_of.
      rewrite (dict_elem_get _ _ _ Hwfv Hkt).
      destruct second as [s2 c2]. cbn [fst snd]. by rewrite (dict_elem_get _ _ _ Hwft Hsec). }
    assert ((top_of tally).1 ≠ second.1) as Hdiff.
    { unfold dict_wf, dict_keys in Hwft. rewrite <- Hperm in Hwft. csimpl in Hwft.
      apply NoDup_cons in Hwft as [Hfresh _]. intros Heq. apply Hfresh.
      rewrite Heq. elem_head. }
    exists (top_of tally).1, second.1, (top_of tally).2.
    split_and!; try done.
    + simpl. by rewrite Htie.
    + by rewrite <- Htie in Hsecv.
    + apply dict_elem_get.
      * unfold dict_wf. by rewrite dict_keys_winner_entries.
      * apply list_elem_of_fmap. by exists (k, tally).
  - intros k s1 s2 Hdiff Hpos Heq Hmax.
    rewrite <- (tally_of_collect outs k s1 Hwf) in Hpos, Heq.
    rewrite <- (tally_of_collect outs k s2 Hwf) in Heq.
    assert (∀ s, tally_of (collect_votes outs) k s ≤ tally_of (collect_votes outs) k s1)
      as Hmax'.
    { intros s. rewrite !tally_of_collect by done. apply Hmax. }
    clear Hmax. unfold tally_of in *.
    destruct (dict_get k (collect_votes outs)) as [tally|] eqn:Hk; [|simpl in Hpos; lia].
    apply dict_get_Some_elem in Hk.
    destruct (Hall _ _ Hk) as (Hwft & Hne & _).
    destruct (dict_get s1 tally) as [n|] eqn:H1; [|simpl in Hpos; lia].
    destruct (dict_get s2 tally) as [n2|] eqn:H2; [|simpl in Heq, Hpos; lia].
    simpl in Heq, Hpos, Hmax'. subst n2.
    apply dict_get_Some_elem in H1, H2.
    destruct (sorted_desc_head tally Hne) as [rest Hs].
    pose proof (sorted_desc_perm tally) as Hperm.
    pose proof (sorted_desc_desc tally) as Hdesc.
    destruct (sorted_desc_top tally Hne) as [Htop Htopmax].
    rewrite Hs in Hperm, Hdesc.
    assert ((top_of tally).2 = n) as Htopn.
    { apply Nat.le_antisymm; [|apply (Htopmax _ H1)].
      specialize (Hmax' (top_of tally).1).
      destruct (top_of tally) as [s0 c0]. simpl in *.
      by rewrite (dict_elem_get _ _ _ Hwft Htop) in Hmax'. }
    assert (∃ x, x ∈ rest ∧ x.2 = n) as (x & Hx & Hxn).
    { rewrite <- Hperm in H1, H2.
      apply elem_of_cons in H1 as [H1|H1]; [|by exists (s1, n)].
      apply elem_of_cons in H2 as [H2|H2]; [|by exists (s2, n)].
      congruence. }
    destruct rest as [|second rest]; [by apply elem_of_nil in Hx|].
    destruct Hdesc as [Hfirst [Hsecond _]].
    assert ((top_of tally).2 = second.2) as Htie.
    { apply Forall_cons in Hfirst as [Hle _].
      apply elem_of_cons in Hx as [->|Hx]; [lia|].
      pose proof (proj1 (Forall_forall _ _) Hsecond x Hx) as Hxle. simpl in Hxle. lia. }
    assert (∃ c, tie_records (k, tally) = [c] ∧ key c = k) as (c & Hc & Hkey).
    { unfold tie_records. cbn [fst snd]. rewrite Hs, (bool_decide_eq_true_2 _ Htie).
      by eexists. }
    exists c. split; [|done]. apply elem_of_concat. exists (tie_records (k, tally)).
    split; [apply list_elem_of_fmap; by exists (k, tally) | rewrite Hc; elem_head].
Qed.

Lemma vote_conflict_iff_tie_witness :
  ∃ r, _vote_strategy outputs_three_writers = Ret r.
Proof.
  destruct (vote_conflict_iff_tie outputs_three_writers) as (r & Hr & _).
  - forall_elements ltac:(apply NoDup_singleton).
  - by exists r.
Defined.
End AggregatorFacts.
